(** * Lattice algorithms of [lat/lattice-functions.cc]

    A shallow embedding of the lattice routines of eesen
    (state times, beam pruning, depth limiting, depth statistics,
    shortest path, word alignment, word insertion penalty, rescoring and
    composition with an on-demand deterministic FST), with the properties
    the specification states about them.

    Numbers.  [double] and [BaseFloat] values are modelled by [xnum]: the
    IEEE special values (both infinities and NaN) with their arithmetic and
    comparisons, and exact rational arithmetic on finite values.  Rounding
    and overflow of finite values are outside the model.  [int32] and
    [size_t] are unbounded integers; the conversion of an [int32] to
    [size_t] wraps.

    Failure.  [KALDI_ASSERT] and [KALDI_ERR] abort the call; so does an
    index outside a [std::vector].  Functions that can abort return a
    [result].  [KALDI_WARN] only logs and is not modelled. *)

From Stdlib Require Import ZArith QArith Lia Lqa List Bool.
From stdpp Require Import base option list gmap.

(* ================================================================== *)
(** ** Extended numbers *)

Module XNum.

Inductive xnum : Type :=
| NInf
| Fin (q : Q)
| PInf
| NaN.

Definition Qltb (a b : Q) : bool :=
  (Qnum a * QDen b <? Qnum b * QDen a)%Z.

Definition xadd (a b : xnum) : xnum :=
  match a, b with
  | NaN, _ | _, NaN => NaN
  | PInf, NInf | NInf, PInf => NaN
  | PInf, _ | _, PInf => PInf
  | NInf, _ | _, NInf => NInf
  | Fin x, Fin y => Fin (x + y)
  end.

Definition xneg (a : xnum) : xnum :=
  match a with
  | NaN => NaN
  | PInf => NInf
  | NInf => PInf
  | Fin x => Fin (- x)
  end.

Definition xsub (a b : xnum) : xnum := xadd a (xneg b).

(** Sign of an extended number: [Some Lt], [Some Eq], [Some Gt], or [None]
    for NaN. *)
Definition xsign (a : xnum) : option comparison :=
  match a with
  | NaN => None
  | PInf => Some Gt
  | NInf => Some Lt
  | Fin x => Some (0 ?= x)%Q
  end.

Definition xmul (a b : xnum) : xnum :=
  match a, b with
  | Fin x, Fin y => Fin (x * y)
  | _, _ =>
      match xsign a, xsign b with
      | Some Eq, _ | _, Some Eq | None, _ | _, None => NaN
      | Some Lt, Some Lt | Some Gt, Some Gt => PInf
      | _, _ => NInf
      end
  end.

(** Division as IEEE has it: a finite non-zero numerator over zero is an
    infinity, zero over zero is NaN (the sign of a zero is not modelled; the
    zero divisors met here are converted from the integer 0). *)
Definition xdiv (a b : xnum) : xnum :=
  match a, b with
  | Fin x, Fin y =>
      if Qeq_bool y 0 then
        match (0 ?= x)%Q with Lt => PInf | Gt => NInf | Eq => NaN end
      else Fin (x / y)
  | Fin _, (PInf | NInf) => Fin 0
  | (PInf | NInf), (PInf | NInf) => NaN
  | _, _ =>
      match xsign a, xsign b with
      | None, _ | _, None => NaN
      | Some Lt, Some Lt | Some Gt, Some Gt | Some Gt, Some Eq => PInf
      | _, _ => NInf
      end
  end.

(** [a < b]; false as soon as one side is NaN. *)
Definition xltb (a b : xnum) : bool :=
  match a, b with
  | NaN, _ | _, NaN => false
  | _, NInf => false
  | NInf, _ => true
  | PInf, _ => false
  | _, PInf => true
  | Fin x, Fin y => Qltb x y
  end.

Definition xgtb (a b : xnum) : bool := xltb b a.

(** [a <= b]. *)
Definition xleb (a b : xnum) : bool :=
  match a, b with
  | NaN, _ | _, NaN => false
  | NInf, _ => true
  | _, PInf => true
  | _, NInf => false
  | PInf, _ => false
  | Fin x, Fin y => Qle_bool x y
  end.

(** [a == b]; NaN differs from everything, itself included. *)
Definition xeqb (a b : xnum) : bool :=
  match a, b with
  | NInf, NInf | PInf, PInf => true
  | Fin x, Fin y => Qeq_bool x y
  | _, _ => false
  end.

Definition xneb (a b : xnum) : bool := negb (xeqb a b).

(** [std::max(a, b)] is [(a < b) ? b : a]; [std::min(a, b)] is
    [(b < a) ? b : a]. *)
Definition xmax (a b : xnum) : xnum := if xltb a b then b else a.
Definition xmin (a b : xnum) : xnum := if xltb b a then b else a.

Definition of_Z (z : Z) : xnum := Fin (inject_Z z).
Definition of_nat (n : nat) : xnum := of_Z (Z.of_nat n).

Definition xle (a b : xnum) : Prop := xleb a b = true.
Definition xlt (a b : xnum) : Prop := xltb a b = true.
Definition xeq (a b : xnum) : Prop := xeqb a b = true.

(** A cost as the weight types allow it ([Member()]): a finite number or
    plus infinity. *)
Definition is_cost (a : xnum) : Prop :=
  match a with Fin _ | PInf => True | _ => False end.

Definition is_finite (a : xnum) : Prop :=
  match a with Fin _ => True | _ => False end.

End XNum.
Export XNum.

Declare Scope xnum_scope.
Delimit Scope xnum_scope with X.
Bind Scope xnum_scope with xnum.
Infix "+" := xadd : xnum_scope.
Infix "-" := xsub : xnum_scope.
Infix "*" := xmul : xnum_scope.
Infix "/" := xdiv : xnum_scope.
Notation "- x" := (xneg x) : xnum_scope.
Infix "<=" := xle : xnum_scope.
Infix "<" := xlt : xnum_scope.
Infix "==" := xeq (at level 70, no associativity) : xnum_scope.

(* ================================================================== *)
(** ** Aborting computations *)

Inductive failure : Type :=
| AssertFailed     (* a KALDI_ASSERT that does not hold *)
| KaldiErr         (* KALDI_ERR *)
| OutOfBounds      (* an index outside a vector, or a null pointer *)
| OutOfFuel.       (* the loop did not finish within the given bound *)

Inductive result (A : Type) : Type :=
| Ok (a : A)
| Err (e : failure).
Arguments Ok {A} a.
Arguments Err {A} e.

#[global] Instance result_ret : MRet result := fun _ a => Ok a.
#[global] Instance result_bind : MBind result := fun _ _ f m =>
  match m with Ok a => f a | Err e => Err e end.

Definition kaldi_assert (b : bool) : result unit :=
  if b then Ok tt else Err AssertFailed.

Fixpoint foldM {A B : Type} (f : B → A → result B) (b : B) (l : list A)
  : result B :=
  match l with
  | [] => Ok b
  | x :: l' => b' ← f b x; foldM f b' l'
  end.

(** [v[i]] and [v[i] = x] on a [std::vector]. *)
Definition vget {A : Type} (v : list A) (i : nat) : result A :=
  match v !! i with Some x => Ok x | None => Err OutOfBounds end.

Definition vset {A : Type} (v : list A) (i : nat) (x : A) : result (list A) :=
  if decide (i < length v)%nat then Ok (<[i := x]> v) else Err OutOfBounds.

(* ================================================================== *)
(** ** Weights *)

(** The operations of a weight type that the lattice routines use. *)
Class Weight (W : Type) := {
  Zero : W;
  weight_eqb : W → W → bool;
  ConvertToCost : W → xnum
}.

Definition weight_neb `{Weight W} (a b : W) : bool := negb (weight_eqb a b).

(** Modelled from the spec: [LatticeWeight] is declared in
    fstext/lattice-weight.h, not in lat/lattice-functions.cc.  A pair
    of floats, semiring zero [(+inf, +inf)], compared component by
    component, with cost [w1 + w2]. *)
Record LatticeWeight : Type := mkLatticeWeight {
  Value1 : xnum;
  Value2 : xnum
}.

#[global] Instance LatticeWeight_Weight : Weight LatticeWeight := {|
  Zero := mkLatticeWeight PInf PInf;
  weight_eqb a b := xeqb (Value1 a) (Value1 b) && xeqb (Value2 a) (Value2 b);
  ConvertToCost w := (Value1 w + Value2 w)%X
|}.

Definition SetValue1 (w : LatticeWeight) (x : xnum) : LatticeWeight :=
  mkLatticeWeight x (Value2 w).
Definition SetValue2 (w : LatticeWeight) (x : xnum) : LatticeWeight :=
  mkLatticeWeight (Value1 w) x.

(** Modelled from the spec: [CompactLatticeWeight] is declared in
    fstext/lattice-weight.h, not in lat/lattice-functions.cc.  A
    [LatticeWeight] with a string of frame-level symbols; zero is the zero
    [LatticeWeight] with the empty string; the cost ignores the string. *)
Record CompactLatticeWeight : Type := mkCompactLatticeWeight {
  Weight_ : LatticeWeight;
  String : list Z
}.

#[global] Instance CompactLatticeWeight_Weight : Weight CompactLatticeWeight := {|
  Zero := mkCompactLatticeWeight Zero [];
  weight_eqb a b :=
    weight_eqb (Weight_ a) (Weight_ b) && bool_decide (String a = String b);
  ConvertToCost w := ConvertToCost (Weight_ w)
|}.

Definition SetWeight (w : CompactLatticeWeight) (x : LatticeWeight)
  : CompactLatticeWeight :=
  mkCompactLatticeWeight x (String w).

(** Modelled from the spec: [Member()] of the weight types: both values
    finite, or the zero weight. *)
Definition LatticeWeight_Member (w : LatticeWeight) : Prop :=
  (is_finite (Value1 w) ∧ is_finite (Value2 w)) ∨ w = Zero.

(* ================================================================== *)
(** ** Lattices: [fst::VectorFst] over a weight type *)

Record Arc (W : Type) : Type := mkArc {
  ilabel : Z;
  olabel : Z;
  weight : W;
  nextstate : nat
}.
Arguments mkArc {W} _ _ _ _.
Arguments ilabel {W} _.
Arguments olabel {W} _.
Arguments weight {W} _.
Arguments nextstate {W} _.

Record StateData (W : Type) : Type := mkState {
  final : W;
  arcs : list (Arc W)
}.
Arguments mkState {W} _ _.
Arguments final {W} _.
Arguments arcs {W} _.

(** [Start] is [None] for [kNoStateId]. *)
Record VectorFst (W : Type) : Type := mkFst {
  Start : option nat;
  states : list (StateData W)
}.
Arguments mkFst {W} _ _.
Arguments Start {W} _.
Arguments states {W} _.

Abbreviation Lattice := (VectorFst LatticeWeight).
Abbreviation CompactLattice := (VectorFst CompactLatticeWeight).
Abbreviation LatticeArc := (Arc LatticeWeight).
Abbreviation CompactLatticeArc := (Arc CompactLatticeWeight).

Section Fst.
Context {W : Type} `{Weight W}.

Definition NumStates (f : VectorFst W) : nat := length (states f).

(** [Final(s)] and the arcs of [s]; a state that does not exist has none. *)
Definition Final (f : VectorFst W) (s : nat) : W :=
  match states f !! s with Some d => final d | None => Zero end.

Definition Arcs (f : VectorFst W) (s : nat) : list (Arc W) :=
  match states f !! s with Some d => arcs d | None => [] end.

Definition NumArcs (f : VectorFst W) (s : nat) : nat := length (Arcs f s).

Definition is_final (f : VectorFst W) (s : nat) : bool :=
  weight_neb (Final f s) Zero.

Definition AddState (f : VectorFst W) : VectorFst W * nat :=
  (mkFst (Start f) (states f ++ [mkState Zero []]), NumStates f).

Definition SetStart (f : VectorFst W) (s : nat) : VectorFst W :=
  mkFst (Some s) (states f).

Definition SetFinal (f : VectorFst W) (s : nat) (w : W) : VectorFst W :=
  mkFst (Start f) (alter (fun d => mkState w (arcs d)) s (states f)).

Definition AddArc (f : VectorFst W) (s : nat) (a : Arc W) : VectorFst W :=
  mkFst (Start f) (alter (fun d => mkState (final d) (arcs d ++ [a])) s (states f)).

(** All arcs of state [s] replaced (what a [MutableArcIterator] pass over
    the state does). *)
Definition SetArcs (f : VectorFst W) (s : nat) (l : list (Arc W)) : VectorFst W :=
  mkFst (Start f) (alter (fun d => mkState (final d) l) s (states f)).

Definition DeleteStates : VectorFst W := mkFst None [].

(** Modelled from the spec: [Properties(fst::kTopSorted, true)] of the FST
    toolkit: every arc leads to a state of a higher id. *)
Definition top_sorted_state (s : nat) (d : StateData W) : bool :=
  forallb (fun a => (s <? nextstate a)%nat) (arcs d).

Definition top_sorted (f : VectorFst W) : bool :=
  forallb (fun '(s, d) => top_sorted_state s d) (imap pair (states f)).

(** Every arc leads to a state of the FST. *)
Definition arcs_in_range (f : VectorFst W) : Prop :=
  ∀ s a, a ∈ Arcs f s → (nextstate a < NumStates f)%nat.

(** [reach k f s t]: [t] is reached from [s] along at most [k] arcs. *)
Fixpoint reach (k : nat) (f : VectorFst W) (s t : nat) : bool :=
  bool_decide (s = t) ||
  match k with
  | O => false
  | S k' => existsb (fun a => reach k' f (nextstate a) t) (Arcs f s)
  end.

Definition accessible (f : VectorFst W) (s : nat) : bool :=
  match Start f with
  | Some s0 => reach (NumStates f) f s0 s
  | None => false
  end.

Definition coaccessible (f : VectorFst W) (s : nat) : bool :=
  existsb (fun t => is_final f t && reach (NumStates f) f s t)
          (seq 0 (NumStates f)).

(** The states [Connect] keeps, in increasing order. *)
Definition connect_keep (f : VectorFst W) : list nat :=
  filter (fun s => accessible f s && coaccessible f s = true)
         (seq 0 (NumStates f)).

(** The new id of old state [s]: its position among the kept states. *)
Fixpoint index_of (s : nat) (l : list nat) : option nat :=
  match l with
  | [] => None
  | x :: l' => if decide (x = s) then Some O else S <$> index_of s l'
  end.

Definition renumber_arc (keep : list nat) (a : Arc W) : option (Arc W) :=
  t ← index_of (nextstate a) keep;
  Some (mkArc (ilabel a) (olabel a) (weight a) t).

Definition renumber_state (f : VectorFst W) (keep : list nat) (s : nat)
  : StateData W :=
  mkState (Final f s) (omap (renumber_arc keep) (Arcs f s)).

(** Modelled from the spec: [fst::Connect] of the FST toolkit: the states
    that are not both reachable from the start and able to reach a final
    state are deleted with the arcs to and from them, and the remaining
    states are renumbered in order. *)
Definition Connect (f : VectorFst W) : VectorFst W :=
  let keep := connect_keep f in
  mkFst (s0 ← Start f; index_of s0 keep) (renumber_state f keep <$> keep).

End Fst.

(** The state record of [s], for code that follows [nextstate] without a
    range check of its own. *)
Definition state_at {W : Type} (f : VectorFst W) (s : nat) : result (StateData W) :=
  vget (states f) s.

(** [*std::max_element(v.begin(), v.end())]. *)
Definition max_element (v : list Z) : result Z :=
  match v with
  | [] => Err OutOfBounds
  | x :: v' => Ok (foldl Z.max x v')
  end.

(** [v[t]] updated by [g] for an [int32] index [t]. *)
Definition vupdZ {A : Type} (v : list A) (t : Z) (g : A → A) : result (list A) :=
  if (t <? 0)%Z then Err OutOfBounds
  else x ← vget v (Z.to_nat t); vset v (Z.to_nat t) (g x).

(** The oracle of [RescoreLattice]. *)
Record DecodableInterface : Type := mkDecodable {
  IsLastFrame : Z → bool;
  LogLikelihood : Z → Z → xnum
}.

(** [struct LatticeArcRecord]; [operator<] compares [logprob]. *)
Module LatticeArcRecord.
Record t : Type := mk {
  logprob : xnum;
  state : nat;
  arc : nat
}.
Definition lt (a b : t) : bool := xltb (logprob a) (logprob b).
End LatticeArcRecord.

(* ================================================================== *)
(** ** The routines *)

Section Routines.

(** [fst::TopSort] of the FST toolkit: [None] when the FST has a cycle,
    otherwise the FST with its states renumbered. *)
Variable TopSort : ∀ W : Type, VectorFst W → option (VectorFst W).
Arguments TopSort {W} _.

(** [LogAdd] of base/kaldi-math.h. *)
Variable LogAdd : xnum → xnum → xnum.

(** *** State times *)

Definition lattice_times_arc (cur_time : Z) (times : list Z) (arc : LatticeArc)
  : result (list Z) :=
  nt ← vget times (nextstate arc);
  if bool_decide (ilabel arc ≠ 0%Z) then
    if bool_decide (nt = (-1)%Z) then vset times (nextstate arc) (cur_time + 1)%Z
    else _ ← kaldi_assert (bool_decide (nt = (cur_time + 1)%Z)); Ok times
  else
    if bool_decide (nt = (-1)%Z) then vset times (nextstate arc) cur_time
    else _ ← kaldi_assert (bool_decide (nt = cur_time)); Ok times.

Definition lattice_times_state (lat : Lattice) (times : list Z) (state : nat)
  : result (list Z) :=
  cur_time ← vget times state;
  foldM (lattice_times_arc cur_time) times (Arcs lat state).

Definition LatticeStateTimes (lat : Lattice) : result (Z * list Z) :=
  if negb (top_sorted lat) then Err KaldiErr else
  _ ← kaldi_assert (bool_decide (Start lat = Some 0%nat));
  let num_states := NumStates lat in
  times ← vset (replicate num_states (-1)%Z) 0 0%Z;
  times ← foldM (lattice_times_state lat) times (seq 0 num_states);
  m ← max_element times;
  Ok (m, times).

Definition clat_times_arc (cur_time : Z) (times : list Z) (arc : CompactLatticeArc)
  : result (list Z) :=
  let arc_len := Z.of_nat (length (String (weight arc))) in
  nt ← vget times (nextstate arc);
  if bool_decide (nt = (-1)%Z) then vset times (nextstate arc) (cur_time + arc_len)%Z
  else _ ← kaldi_assert (bool_decide (nt = (cur_time + arc_len)%Z)); Ok times.

Definition clat_utt_len (utt_len this_utt_len : Z) : Z :=
  if bool_decide (utt_len = (-1)%Z) then this_utt_len
  else if bool_decide (this_utt_len ≠ utt_len) then Z.max utt_len this_utt_len
  else utt_len.

Definition clat_times_state (lat : CompactLattice) (acc : list Z * Z) (state : nat)
  : result (list Z * Z) :=
  let '(times, utt_len) := acc in
  cur_time ← vget times state;
  times ← foldM (clat_times_arc cur_time) times (Arcs lat state);
  if is_final lat state then
    ts ← vget times state;
    let this_utt_len := (ts + Z.of_nat (length (String (Final lat state))))%Z in
    Ok (times, clat_utt_len utt_len this_utt_len)
  else Ok (times, utt_len).

Definition CompactLatticeStateTimes (lat : CompactLattice) : result (Z * list Z) :=
  if negb (top_sorted lat) then Err KaldiErr else
  _ ← kaldi_assert (bool_decide (Start lat = Some 0%nat));
  let num_states := NumStates lat in
  times ← vset (replicate num_states (-1)%Z) 0 0%Z;
  '(times, utt_len) ← foldM (clat_times_state lat) (times, (-1)%Z) (seq 0 num_states);
  if bool_decide (utt_len = (-1)%Z) then Ok (0%Z, times) else Ok (utt_len, times).

(** *** Depth statistics *)

Definition state_frames (clat : CompactLattice) (s : nat) : nat :=
  foldl (fun n arc => (n + length (String (weight arc)))%nat) 0%nat (Arcs clat s)
  + length (String (Final clat s)).

Definition num_arc_frames (clat : CompactLattice) : nat :=
  foldl (fun n s => (n + state_frames clat s)%nat) 0%nat (seq 0 (NumStates clat)).

(** [CompactLatticeDepth]; [num_frames] tells whether the pointer of that
    name is non-null, and the second component of the result is what is
    written through it. *)
Definition CompactLatticeDepth (clat : CompactLattice) (num_frames : bool)
  : result (xnum * option Z) :=
  if negb (top_sorted clat) then Err KaldiErr else
  match Start clat with
  | None =>
      if num_frames then Ok (of_Z 1, Some 0%Z) else Err OutOfBounds
  | Some _ =>
      '(t, _) ← CompactLatticeStateTimes clat;
      Ok ((of_nat (num_arc_frames clat) / of_Z t)%X,
          if num_frames then Some t else None)
  end.

(** [depth_per_frame[t]++] for [t] from [start_time] over [len] frames. *)
Definition count_frames (T : Z) (start_time : Z) (len : nat) (depth : list Z)
  : result (list Z) :=
  foldM (fun depth t =>
           _ ← kaldi_assert (t <? T)%Z;
           vupdZ depth t Z.succ)
        depth (seqZ start_time (Z.of_nat len)).

Definition depth_state (clat : CompactLattice) (T : Z) (state_times : list Z)
  (depth : list Z) (s : nat) : result (list Z) :=
  start_time ← vget state_times s;
  depth ← foldM (fun depth arc =>
                   count_frames T start_time (length (String (weight arc))) depth)
                depth (Arcs clat s);
  count_frames T start_time (length (String (Final clat s))) depth.

Definition CompactLatticeDepthPerFrame (clat : CompactLattice) : result (list Z) :=
  if negb (top_sorted clat) then Err KaldiErr else
  match Start clat with
  | None => Ok []
  | Some _ =>
      '(T, state_times) ← CompactLatticeStateTimes clat;
      if (T <=? 0)%Z then Ok []
      else foldM (depth_state clat T state_times)
                 (replicate (Z.to_nat T) 0%Z) (seq 0 (NumStates clat))
  end.

(** *** Word alignment *)

Fixpoint word_alignment_loop (fuel : nat) (clat : CompactLattice)
  (state : nat) (cur_time : Z) (words begin_times lengths : list Z)
  : result (bool * (list Z * list Z * list Z)) :=
  match fuel with
  | O => Err OutOfFuel
  | S fuel' =>
      d ← state_at clat state;
      let num_arcs := length (arcs d) in
      if weight_neb (final d) Zero then
        if bool_decide (num_arcs ≠ 0%nat) then Ok (false, (words, begin_times, lengths))
        else Ok (true, (words, begin_times, lengths))
      else
        match arcs d with
        | [arc] =>
            let word_id := ilabel arc in
            let length_ := Z.of_nat (length (String (weight arc))) in
            word_alignment_loop fuel' clat (nextstate arc) (cur_time + length_)%Z
              (words ++ [word_id]) (begin_times ++ [cur_time]) (lengths ++ [length_])
        | _ => Ok (false, (words, begin_times, lengths))
        end
  end.

(** [CompactLatticeToWordAlignment]: the result flag with [words],
    [begin_times] and [lengths].  The [while (1)] loop runs for at most
    [fuel] states. *)
Definition CompactLatticeToWordAlignment (fuel : nat) (clat : CompactLattice)
  : result (bool * (list Z * list Z * list Z)) :=
  match Start clat with
  | None => Ok (false, ([], [], []))
  | Some state => word_alignment_loop fuel clat state 0%Z [] [] []
  end.

(** *** Word insertion penalty *)

Definition wip_arc (word_ins_penalty : xnum) (arc : CompactLatticeArc)
  : CompactLatticeArc :=
  if bool_decide (ilabel arc ≠ 0%Z) then
    let weight_ := Weight_ (weight arc) in
    let weight_ := SetValue1 weight_ (Value1 weight_ + word_ins_penalty)%X in
    mkArc (ilabel arc) (olabel arc) (SetWeight (weight arc) weight_) (nextstate arc)
  else arc.

Definition AddWordInsPenToCompactLattice (word_ins_penalty : xnum)
  (clat : CompactLattice) : CompactLattice :=
  foldl (fun clat state =>
           SetArcs clat state (wip_arc word_ins_penalty <$> Arcs clat state))
        clat (seq 0 (NumStates clat)).

(** *** Rescoring *)

Definition rescore_arc (decodable : DecodableInterface) (t : Z) (arc : LatticeArc)
  : LatticeArc :=
  if bool_decide (ilabel arc ≠ 0%Z) then
    let trans_id := ilabel arc in
    let log_like := LogLikelihood decodable t trans_id in
    mkArc (ilabel arc) (olabel arc)
          (SetValue2 (weight arc) (- log_like + Value2 (weight arc))%X)
          (nextstate arc)
  else arc.

Definition rescore_state (decodable : DecodableInterface) (t : Z) (lat : Lattice)
  (state : nat) : Lattice :=
  SetArcs lat state (rescore_arc decodable t <$> Arcs lat state).

(** The loop over the frames [ts]; it stops with [false] when the oracle
    ends before the lattice does. *)
Fixpoint rescore_frames (decodable : DecodableInterface) (utt_len : Z)
  (time_to_state : list (list nat)) (ts : list Z) (lat : Lattice)
  : result (bool * Lattice) :=
  match ts with
  | [] => Ok (true, lat)
  | t :: ts' =>
      if (t <? utt_len - 1)%Z && IsLastFrame decodable t then Ok (false, lat)
      else
        bucket ← vget time_to_state (Z.to_nat t);
        rescore_frames decodable utt_len time_to_state ts'
          (foldl (rescore_state decodable t) lat bucket)
  end.

Definition time_to_state_step (utt_len : Z) (state_times : list Z)
  (time_to_state : list (list nat)) (state : nat) : result (list (list nat)) :=
  t ← vget state_times state;
  _ ← kaldi_assert (t <=? utt_len)%Z;
  if (0 <=? t)%Z && (t <? utt_len)%Z then vupdZ time_to_state t (fun b => b ++ [state])
  else Ok time_to_state.

Definition RescoreLattice (decodable : DecodableInterface) (lat : Lattice)
  : result (bool * Lattice) :=
  if bool_decide (NumStates lat = 0%nat) then Ok (false, lat) else
  match (if top_sorted lat then Some lat else TopSort lat) with
  | None => Ok (false, lat)
  | Some lat =>
      '(utt_len, state_times) ← LatticeStateTimes lat;
      let num_states := NumStates lat in
      _ ← kaldi_assert (bool_decide (num_states = length state_times));
      time_to_state ← foldM (time_to_state_step utt_len state_times)
                            (replicate (Z.to_nat utt_len) []) (seq 0 num_states);
      rescore_frames decodable utt_len time_to_state (seqZ 0 utt_len) lat
  end.

(** *** Beam pruning ([Lattice] or [CompactLattice]) *)

Section Templates.
Context {W : Type} `{Weight W}.

Definition sort_if_needed (lat : VectorFst W) : option (VectorFst W) :=
  if top_sorted lat then Some lat else TopSort lat.

Definition prune_forward_arc (num_states state : nat) (this_forward_cost : xnum)
  (forward_cost : list xnum) (arc : Arc W) : result (list xnum) :=
  let nextstate_ := nextstate arc in
  _ ← kaldi_assert ((state <? nextstate_)%nat && (nextstate_ <? num_states)%nat);
  let next_forward_cost := (this_forward_cost + ConvertToCost (weight arc))%X in
  fn ← vget forward_cost nextstate_;
  if xgtb fn next_forward_cost then vset forward_cost nextstate_ next_forward_cost
  else Ok forward_cost.

Definition prune_forward_state (lat : VectorFst W) (num_states : nat)
  (acc : list xnum * xnum) (state : nat) : result (list xnum * xnum) :=
  let '(forward_cost, best_final_cost) := acc in
  this_forward_cost ← vget forward_cost state;
  forward_cost ← foldM (prune_forward_arc num_states state this_forward_cost)
                       forward_cost (Arcs lat state);
  let final_weight := Final lat state in
  let this_final_cost := (this_forward_cost + ConvertToCost final_weight)%X in
  Ok (forward_cost,
      if xltb this_final_cost best_final_cost then this_final_cost
      else best_final_cost).

(** One arc of the backward pass: the running backward cost of the state
    and the arcs already passed, with the pruned ones redirected. *)
Definition prune_backward_arc (num_states bad_state state : nat)
  (cutoff this_forward_cost : xnum) (backward_cost : list xnum)
  (acc : xnum * list (Arc W)) (arc : Arc W) : result (xnum * list (Arc W)) :=
  let '(this_backward_cost, passed) := acc in
  let nextstate_ := nextstate arc in
  _ ← kaldi_assert ((state <? nextstate_)%nat && (nextstate_ <? num_states)%nat);
  bn ← vget backward_cost nextstate_;
  let arc_cost := ConvertToCost (weight arc) in
  let arc_backward_cost := (arc_cost + bn)%X in
  let this_fb_cost := (this_forward_cost + arc_backward_cost)%X in
  let this_backward_cost :=
    if xltb arc_backward_cost this_backward_cost then arc_backward_cost
    else this_backward_cost in
  let arc :=
    if xgtb this_fb_cost cutoff
    then mkArc (ilabel arc) (olabel arc) (weight arc) bad_state
    else arc in
  Ok (this_backward_cost, passed ++ [arc]).

(** One state of the backward pass.  [forward_cost] is the one vector that
    the source reads as [forward_cost] and writes as [backward_cost]. *)
Definition prune_backward_state (num_states bad_state : nat) (cutoff : xnum)
  (acc : VectorFst W * list xnum) (state : nat)
  : result (VectorFst W * list xnum) :=
  let '(lat, forward_cost) := acc in
  this_forward_cost ← vget forward_cost state;
  let this_backward_cost := ConvertToCost (Final lat state) in
  let lat :=
    if xgtb (this_backward_cost + this_forward_cost)%X cutoff
       && xneb this_backward_cost PInf
    then SetFinal lat state Zero else lat in
  '(this_backward_cost, new_arcs) ←
    foldM (prune_backward_arc num_states bad_state state cutoff
                              this_forward_cost forward_cost)
          (this_backward_cost, []) (Arcs lat state);
  backward_cost ← vset forward_cost state this_backward_cost;
  Ok (SetArcs lat state new_arcs, backward_cost).

(** The forward pass: the forward costs and [best_final_cost]. *)
Definition prune_forward (lat : VectorFst W) : result (list xnum * xnum) :=
  let num_states := NumStates lat in
  forward_cost ←
    match Start lat with
    | Some start => vset (replicate num_states PInf) start (of_Z 0)
    | None => Err OutOfBounds
    end;
  foldM (prune_forward_state lat num_states) (forward_cost, PInf)
        (seq 0 num_states).

(** The backward pass: the lattice with the pruned arcs redirected to
    [bad_state] and the pruned final weights deleted, before [Connect]. *)
Definition prune_backward (lat : VectorFst W) (num_states bad_state : nat)
  (cutoff : xnum) (forward_cost : list xnum) : result (VectorFst W * list xnum) :=
  foldM (prune_backward_state num_states bad_state cutoff)
        (lat, forward_cost) (rev (seq 0 num_states)).

Definition PruneLattice (beam : xnum) (lat : VectorFst W)
  : result (bool * VectorFst W) :=
  _ ← kaldi_assert (xgtb beam (of_Z 0));
  match sort_if_needed lat with
  | None => Ok (false, lat)
  | Some lat =>
      let num_states := NumStates lat in
      if bool_decide (num_states = 0%nat) then Ok (false, lat) else
      '(forward_cost, best_final_cost) ← prune_forward lat;
      let '(lat, bad_state) := AddState lat in
      let cutoff := (best_final_cost + beam)%X in
      '(lat, _) ← prune_backward lat num_states bad_state cutoff forward_cost;
      let lat := Connect lat in
      Ok ((0 <? NumStates lat)%nat, lat)
  end.

(** *** Alphas and betas *)

Definition kLogZeroDouble : xnum := NInf.

Definition LogAddOrMax (viterbi : bool) (a b : xnum) : xnum :=
  if viterbi then xmax a b else LogAdd a b.

Definition alpha_arc (viterbi : bool) (this_alpha : xnum) (alpha : list xnum)
  (arc : Arc W) : result (list xnum) :=
  let arc_like := (- ConvertToCost (weight arc))%X in
  an ← vget alpha (nextstate arc);
  vset alpha (nextstate arc) (LogAddOrMax viterbi an (this_alpha + arc_like)%X).

Definition alpha_state (lat : VectorFst W) (viterbi : bool)
  (acc : list xnum * xnum) (s : nat) : result (list xnum * xnum) :=
  let '(alpha, tot_forward_prob) := acc in
  this_alpha ← vget alpha s;
  alpha ← foldM (alpha_arc viterbi this_alpha) alpha (Arcs lat s);
  let f := Final lat s in
  if weight_neb f Zero then
    let final_like := (this_alpha - ConvertToCost f)%X in
    Ok (alpha, LogAddOrMax viterbi tot_forward_prob final_like)
  else Ok (alpha, tot_forward_prob).

Definition beta_arc (viterbi : bool) (beta : list xnum) (this_beta : xnum)
  (arc : Arc W) : result xnum :=
  let arc_like := (- ConvertToCost (weight arc))%X in
  bn ← vget beta (nextstate arc);
  let arc_beta := (bn + arc_like)%X in
  Ok (LogAddOrMax viterbi this_beta arc_beta).

Definition beta_state (lat : VectorFst W) (viterbi : bool) (beta : list xnum)
  (s : nat) : result (list xnum) :=
  let this_beta := (- ConvertToCost (Final lat s))%X in
  this_beta ← foldM (beta_arc viterbi beta) this_beta (Arcs lat s);
  vset beta s this_beta.

(** [ComputeLatticeAlphasAndBetas], called with empty [alpha] and [beta]:
    the returned value with the two vectors. *)
Definition ComputeLatticeAlphasAndBetas (lat : VectorFst W) (viterbi : bool)
  : result (xnum * list xnum * list xnum) :=
  let num_states := NumStates lat in
  _ ← kaldi_assert (top_sorted lat);
  _ ← kaldi_assert (bool_decide (Start lat = Some 0%nat));
  alpha ← vset (replicate num_states kLogZeroDouble) 0 (of_Z 0);
  '(alpha, tot_forward_prob) ←
    foldM (alpha_state lat viterbi) (alpha, kLogZeroDouble) (seq 0 num_states);
  beta ← foldM (beta_state lat viterbi) (replicate num_states kLogZeroDouble)
               (rev (seq 0 num_states));
  tot_backward_prob ← vget beta 0;
  Ok ((Fin (1 # 2) * (tot_backward_prob + tot_forward_prob))%X, alpha, beta).

End Templates.

(** *** Depth limiting *)

(** [std::nth_element(v.begin(), v.begin() + n, v.end())]: the vector after
    the call. *)
Variable nth_element : nat → list LatticeArcRecord.t → list LatticeArcRecord.t.

(** Conversion of an [int32] to [size_t]. *)
Definition to_size_t (z : Z) : Z := (z mod 2 ^ 64)%Z.

Definition TopSortCompactLatticeIfNeeded (clat : CompactLattice)
  : result CompactLattice :=
  if top_sorted clat then Ok clat
  else match TopSort clat with
       | Some clat => Ok clat
       | None => Err KaldiErr
       end.

Definition limit_depth_arc (T : Z) (best_prob : xnum) (alpha beta : list xnum)
  (state_times : list Z) (s : nat) (arc_records : list (list LatticeArcRecord.t))
  (pa : nat * CompactLatticeArc) : result (list (list LatticeArcRecord.t)) :=
  let '(position, arc) := pa in
  a_s ← vget alpha s;
  b_n ← vget beta (nextstate arc);
  let logprob := ((a_s + b_n - ConvertToCost (weight arc)) - best_prob)%X in
  let arc_record := LatticeArcRecord.mk logprob s position in
  _ ← kaldi_assert (xltb logprob (Fin (1 # 10)));
  let num_frames := length (String (weight arc)) in
  start_t ← vget state_times s;
  foldM (fun arc_records t =>
           _ ← kaldi_assert (t <? T)%Z;
           vupdZ arc_records t (fun l => l ++ [arc_record]))
        arc_records (seqZ start_t (Z.of_nat num_frames)).

Definition limit_depth_records (clat : CompactLattice) (T : Z) (best_prob : xnum)
  (alpha beta : list xnum) (state_times : list Z)
  : result (list (list LatticeArcRecord.t)) :=
  foldM (fun arc_records s =>
           foldM (limit_depth_arc T best_prob alpha beta state_times s)
                 arc_records (imap pair (Arcs clat s)))
        (replicate (Z.to_nat T) []) (seq 0 (NumStates clat)).

Definition limit_depth_kill (dead_state : nat) (clat : CompactLattice)
  (record : LatticeArcRecord.t) : result CompactLattice :=
  let s := LatticeArcRecord.state record in
  arc ← vget (Arcs clat s) (LatticeArcRecord.arc record);
  if bool_decide (nextstate arc ≠ dead_state) then
    let arc := mkArc (ilabel arc) (olabel arc) (weight arc) dead_state in
    Ok (SetArcs clat s (<[LatticeArcRecord.arc record := arc]> (Arcs clat s)))
  else Ok clat.

Definition limit_depth_frame (max_depth : Z) (dead_state : nat)
  (arc_records : list (list LatticeArcRecord.t)) (clat : CompactLattice) (t : nat)
  : result CompactLattice :=
  records ← vget arc_records t;
  let size := Z.of_nat (length records) in
  if (max_depth <? size)%Z then
    let cutoff := Z.to_nat (size - max_depth) in
    let records := nth_element cutoff records in
    foldM (fun clat index =>
             record ← vget records index;
             limit_depth_kill dead_state clat record)
          clat (seq 0 cutoff)
  else Ok clat.

(** The lattice with the arcs in excess redirected to [dead_state], before
    [Connect]. *)
Definition limit_depth_prune (max_depth_per_frame : Z) (clat : CompactLattice)
  : result CompactLattice :=
  '(T, state_times) ← CompactLatticeStateTimes clat;
  '(best_prob, alpha, beta) ← ComputeLatticeAlphasAndBetas clat true;
  arc_records ← limit_depth_records clat T best_prob alpha beta state_times;
  let '(clat, dead_state) := AddState clat in
  let max_depth := to_size_t max_depth_per_frame in
  foldM (limit_depth_frame max_depth dead_state arc_records) clat
        (seq 0 (Z.to_nat T)).

Definition CompactLatticeLimitDepth (max_depth_per_frame : Z)
  (clat : CompactLattice) : result CompactLattice :=
  match Start clat with
  | None => Ok clat
  | Some _ =>
      clat ← TopSortCompactLatticeIfNeeded clat;
      clat ← limit_depth_prune max_depth_per_frame clat;
      TopSortCompactLatticeIfNeeded (Connect clat)
  end.

(** *** Shortest path *)

Definition shortest_path_arc (s : nat) (my_cost : xnum)
  (best_cost_and_pred : list (xnum * option nat)) (arc : CompactLatticeArc)
  : result (list (xnum * option nat)) :=
  let arc_cost := ConvertToCost (weight arc) in
  let next_cost := (my_cost + arc_cost)%X in
  bn ← vget best_cost_and_pred (nextstate arc);
  if xltb next_cost bn.1 then vset best_cost_and_pred (nextstate arc) (next_cost, Some s)
  else Ok best_cost_and_pred.

Definition shortest_path_state (clat : CompactLattice) (superfinal : nat)
  (best_cost_and_pred : list (xnum * option nat)) (s : nat)
  : result (list (xnum * option nat)) :=
  b ← vget best_cost_and_pred s;
  let my_cost := b.1 in
  best_cost_and_pred ← foldM (shortest_path_arc s my_cost) best_cost_and_pred
                             (Arcs clat s);
  let final_cost := ConvertToCost (Final clat s) in
  let tot_final := (my_cost + final_cost)%X in
  bf ← vget best_cost_and_pred superfinal;
  if xltb tot_final bf.1 then vset best_cost_and_pred superfinal (tot_final, Some s)
  else Ok best_cost_and_pred.

Definition shortest_path_table (clat : CompactLattice)
  : result (list (xnum * option nat)) :=
  let n := NumStates clat in
  best ← vset (replicate (n + 1) (PInf, None)) 0 (of_Z 0, None);
  foldM (shortest_path_state clat n) best (seq 0 n).

(** The walk along the predecessors, [states] in the order of the
    [push_back]s; [None] when a predecessor is missing. *)
Fixpoint shortest_path_walk (fuel : nat) (best_cost_and_pred : list (xnum * option nat))
  (cur_state : nat) (states_ : list nat) : result (option (list nat)) :=
  if bool_decide (cur_state = 0%nat) then Ok (Some states_) else
  match fuel with
  | O => Err OutOfFuel
  | S fuel' =>
      b ← vget best_cost_and_pred cur_state;
      match b.2 with
      | None => Ok None
      | Some prev_state =>
          _ ← kaldi_assert (bool_decide (cur_state ≠ prev_state));
          shortest_path_walk fuel' best_cost_and_pred prev_state
                             (states_ ++ [prev_state])
      end
  end.

Definition best_arc_step (next : nat) (cur_arc : option CompactLatticeArc)
  (arc : CompactLatticeArc) : option CompactLatticeArc :=
  if bool_decide (nextstate arc = next) then
    match cur_arc with
    | None => Some arc
    | Some c =>
        if xltb (ConvertToCost (weight arc)) (ConvertToCost (weight c))
        then Some arc else cur_arc
    end
  else cur_arc.

Definition shortest_path_emit (clat : CompactLattice) (states_ : list nat)
  (shortest_path : CompactLattice) (s : nat) : result CompactLattice :=
  let shortest_path :=
    if bool_decide (s = 0%nat) then SetStart shortest_path s else shortest_path in
  if (s + 1 <? length states_)%nat then
    st ← vget states_ s;
    st1 ← vget states_ (s + 1);
    match foldl (best_arc_step st1) None (Arcs clat st) with
    | None => Err AssertFailed
    | Some cur_arc =>
        Ok (AddArc shortest_path s
              (mkArc (ilabel cur_arc) (olabel cur_arc) (weight cur_arc) (s + 1)))
    end
  else
    st ← vget states_ s;
    Ok (SetFinal shortest_path s (Final clat st)).

Definition shortest_path_build (clat : CompactLattice) (states_ : list nat)
  : result CompactLattice :=
  let shortest_path := foldl (fun f _ => (AddState f).1) DeleteStates states_ in
  foldM (shortest_path_emit clat states_) shortest_path (seq 0 (length states_)).

(** [CompactLatticeShortestPath]: the lattice written to [shortest_path].
    An input that is not sorted is replaced by its sorted copy.  The walk
    along the predecessors goes down in the state ids, so it takes at most
    [NumStates + 1] steps. *)
Definition CompactLatticeShortestPath (clat : CompactLattice)
  : result CompactLattice :=
  clat ← (if top_sorted clat then Ok clat
          else match TopSort clat with
               | Some c => Ok c
               | None => Err KaldiErr
               end);
  match Start clat with
  | None => Ok DeleteStates
  | Some start =>
      _ ← kaldi_assert (bool_decide (start = 0%nat));
      let superfinal := NumStates clat in
      best_cost_and_pred ← shortest_path_table clat;
      walked ← shortest_path_walk (S superfinal) best_cost_and_pred superfinal [];
      match walked with
      | None => Ok DeleteStates
      | Some states_ => shortest_path_build clat (rev states_)
      end
  end.

(** *** Composition with a deterministic on-demand FST *)

Record StdArc : Type := mkStdArc {
  std_ilabel : Z;
  std_olabel : Z;
  std_weight : xnum;
  std_nextstate : nat
}.

(** [fst::DeterministicOnDemandFst<fst::StdArc>]; [det_Final] is the value
    of the tropical final weight, plus infinity for a state that is not
    final. *)
Record DeterministicOnDemandFst : Type := mkDetFst {
  det_Start : nat;
  det_Final : nat → xnum;
  GetArc : nat → Z → option StdArc
}.

Definition StatePair : Type := nat * nat.

Definition compose_arc (det_fst : DeterministicOnDemandFst) (s : StatePair)
  (acc : gmap StatePair nat * list StatePair * CompactLattice)
  (arc1 : CompactLatticeArc)
  : result (gmap StatePair nat * list StatePair * CompactLattice) :=
  let '(state_map, state_queue, composed_clat) := acc in
  let s2 := s.2 in
  let next_state1 := nextstate arc1 in
  let matched : option (nat * option StdArc) :=
    if bool_decide (olabel arc1 = 0%Z) then Some (s2, None)
    else match GetArc det_fst s2 (olabel arc1) with
         | Some arc2 => Some (std_nextstate arc2, Some arc2)
         | None => None
         end in
  match matched with
  | None => Ok acc
  | Some (next_state2, arc2) =>
      let next_state_pair := (next_state1, next_state2) in
      let '(state_map, state_queue, composed_clat, next_state) :=
        match state_map !! next_state_pair with
        | None =>
            let '(composed_clat, next_state) := AddState composed_clat in
            (<[next_state_pair := next_state]> state_map,
             state_queue ++ [next_state_pair], composed_clat, next_state)
        | Some next_state => (state_map, state_queue, composed_clat, next_state)
        end in
      match state_map !! s with
      | None => Err OutOfBounds
      | Some src =>
          match arc2 with
          | None =>
              Ok (state_map, state_queue,
                  AddArc composed_clat src (mkArc 0 0 (weight arc1) next_state))
          | Some arc2 =>
              let composed_weight :=
                mkCompactLatticeWeight
                  (mkLatticeWeight
                     (Value1 (Weight_ (weight arc1)) + std_weight arc2)%X
                     (Value2 (Weight_ (weight arc1))))
                  (String (weight arc1)) in
              Ok (state_map, state_queue,
                  AddArc composed_clat src
                    (mkArc (ilabel arc1) (olabel arc1) composed_weight next_state))
          end
      end
  end.

(** The loop over the queue of state pairs, for at most [fuel] pairs. *)
Fixpoint compose_loop (fuel : nat) (clat : CompactLattice)
  (det_fst : DeterministicOnDemandFst) (state_map : gmap StatePair nat)
  (state_queue : list StatePair) (composed_clat : CompactLattice)
  : result CompactLattice :=
  match state_queue with
  | [] => Ok composed_clat
  | s :: state_queue =>
      match fuel with
      | O => Err OutOfFuel
      | S fuel' =>
          let '(s1, s2) := s in
          d1 ← state_at clat s1;
          let f1 := final d1 in
          let final_weight :=
            mkCompactLatticeWeight
              (mkLatticeWeight (Value1 (Weight_ f1) + det_Final det_fst s2)%X
                               (Value2 (Weight_ f1)))
              (String f1) in
          composed_clat ←
            (if weight_neb final_weight Zero then
               match state_map !! s with
               | None => Err AssertFailed
               | Some id => Ok (SetFinal composed_clat id final_weight)
               end
             else Ok composed_clat);
          '(state_map, state_queue, composed_clat) ←
            foldM (compose_arc det_fst s) (state_map, state_queue, composed_clat)
                  (arcs d1);
          compose_loop fuel' clat det_fst state_map state_queue composed_clat
      end
  end.

(** The composed lattice before [Connect]. *)
Definition compose_product (fuel : nat) (clat : CompactLattice)
  (det_fst : DeterministicOnDemandFst) : result CompactLattice :=
  let '(composed_clat, start_state) := AddState DeleteStates in
  match Start clat with
  | None => Err OutOfBounds
  | Some start1 =>
      let start_pair := (start1, det_Start det_fst) in
      let composed_clat := SetStart composed_clat start_state in
      compose_loop fuel clat det_fst {[ start_pair := start_state ]} [start_pair]
                   composed_clat
  end.

Definition ComposeCompactLatticeDeterministic (fuel : nat) (clat : CompactLattice)
  (det_fst : DeterministicOnDemandFst) : result CompactLattice :=
  composed_clat ← compose_product fuel clat det_fst;
  Ok (Connect composed_clat).

(** *** Longest sentence *)

(** The body of the arc loop of [LongestSentenceLength(const Lattice &)]:
    a word is an arc with [olabel != 0], and only a word arc is asserted to
    lead to a later state. *)
Definition longest_arc_lat (s : nat) (this_max_length : Z) (max_length : list Z)
  (arc : LatticeArc) : result (list Z) :=
  let arc_has_word := bool_decide (olabel arc ≠ 0%Z) in
  let nextstate_ := nextstate arc in
  _ ← kaldi_assert (nextstate_ <? length max_length)%nat;
  if arc_has_word then
    _ ← kaldi_assert (s <? nextstate_)%nat;
    mn ← vget max_length nextstate_;
    vset max_length nextstate_ (Z.max mn (this_max_length + 1))
  else
    mn ← vget max_length nextstate_;
    vset max_length nextstate_ (Z.max mn this_max_length).

(** The body of the arc loop of [LongestSentenceLength(const CompactLattice &)]:
    a word is an arc with [ilabel != 0], and every arc is asserted to lead
    to a later state. *)
Definition longest_arc_clat (s : nat) (this_max_length : Z) (max_length : list Z)
  (arc : CompactLatticeArc) : result (list Z) :=
  let arc_has_word := bool_decide (ilabel arc ≠ 0%Z) in
  let nextstate_ := nextstate arc in
  _ ← kaldi_assert (nextstate_ <? length max_length)%nat;
  _ ← kaldi_assert (s <? nextstate_)%nat;
  if arc_has_word then
    mn ← vget max_length nextstate_;
    vset max_length nextstate_ (Z.max mn (this_max_length + 1))
  else
    mn ← vget max_length nextstate_;
    vset max_length nextstate_ (Z.max mn this_max_length).

(** The loop over the states, which the two overloads share word for word:
    the arcs of the state, then its final weight. *)
Definition longest_state {W : Type} `{Weight W}
  (longest_arc : nat → Z → list Z → Arc W → result (list Z))
  (lat : VectorFst W) (acc : list Z * Z) (s : nat) : result (list Z * Z) :=
  let '(max_length, lattice_max_length) := acc in
  this_max_length ← vget max_length s;
  max_length ← foldM (longest_arc s this_max_length) max_length (Arcs lat s);
  if weight_neb (Final lat s) Zero then
    ms ← vget max_length s;
    Ok (max_length, Z.max lattice_max_length ms)
  else Ok (max_length, lattice_max_length).

Definition longest_sentence {W : Type} `{Weight W}
  (longest_arc : nat → Z → list Z → Arc W → result (list Z))
  (lat : VectorFst W) : result Z :=
  lat ← (if top_sorted lat then Ok lat
         else match TopSort lat with
              | Some c => Ok c
              | None => Err KaldiErr
              end);
  '(_, lattice_max_length) ←
    foldM (longest_state longest_arc lat)
          (replicate (NumStates lat) 0%Z, 0%Z) (seq 0 (NumStates lat));
  Ok lattice_max_length.

(** [LongestSentenceLength] for a [Lattice] and for a [CompactLattice].  An
    input that is not sorted is replaced by its sorted copy. *)
Definition LongestSentenceLength (lat : Lattice) : result Z :=
  longest_sentence longest_arc_lat lat.

Definition LongestSentenceLength_clat (clat : CompactLattice) : result Z :=
  longest_sentence longest_arc_clat clat.

(** [TopSortLatticeIfNeeded]. *)
Definition TopSortLatticeIfNeeded (lat : Lattice) : result Lattice :=
  if top_sorted lat then Ok lat
  else match TopSort lat with
       | Some lat => Ok lat
       | None => Err KaldiErr
       end.

End Routines.

(* ================================================================== *)
(** ** Inputs used by the examples *)

Module Examples.

(** A stand-in for [fst::TopSort] where the input is sorted already and the
    routine is never called. *)
Definition TopSort_unused (W : Type) (f : VectorFst W) : option (VectorFst W) := None.

(** A stand-in for [LogAdd], which the Viterbi passes do not call. *)
Definition LogAdd_unused (a b : xnum) : xnum := NaN.

(** An implementation of [std::nth_element]: a full sort by insertion. *)
Fixpoint insert_record (x : LatticeArcRecord.t) (l : list LatticeArcRecord.t)
  : list LatticeArcRecord.t :=
  match l with
  | [] => [x]
  | y :: l' => if LatticeArcRecord.lt y x then y :: insert_record x l' else x :: l
  end.

Definition nth_element_sort (n : nat) (l : list LatticeArcRecord.t)
  : list LatticeArcRecord.t :=
  foldr insert_record [] l.

Definition lw (a b : Q) : LatticeWeight := mkLatticeWeight (Fin a) (Fin b).
Definition clw (a b : Q) (s : list Z) : CompactLatticeWeight :=
  mkCompactLatticeWeight (lw a b) s.
Definition lzero : LatticeWeight := Zero.
Definition czero : CompactLatticeWeight := Zero.

(** Two paths [0 -> 1 -> 3] (cost 0.2) and [0 -> 2 -> 3] (cost 10). *)
Definition two_paths : Lattice := mkFst (Some 0%nat)
  [ mkState lzero [mkArc 1 1 (lw 0.1 0) 1%nat; mkArc 2 2 (lw 5 0) 2%nat];
    mkState lzero [mkArc 1 1 (lw 0.1 0) 3%nat];
    mkState lzero [mkArc 1 1 (lw 5 0) 3%nat];
    mkState (lw 0 0) [] ].

(** One arc [0 -> 1] of cost 1.5, state 1 final. *)
Definition one_arc : Lattice := mkFst (Some 0%nat)
  [ mkState lzero [mkArc 1 1 (lw 1 0.5) 1%nat];
    mkState (lw 0 0) [] ].

(** Two parallel arcs [0 -> 1] over one frame. *)
Definition parallel_arcs : CompactLattice := mkFst (Some 0%nat)
  [ mkState czero [mkArc 1 1 (clw 2 0 [7%Z]) 1%nat; mkArc 1 1 (clw 1 0 [7%Z]) 1%nat];
    mkState (clw 0 0 []) [] ].

(** One arc over frame 0, and a final weight on the start state whose
    string covers frame 0 as well. *)
Definition final_string_clat : CompactLattice := mkFst (Some 0%nat)
  [ mkState (clw 0 0 [9%Z]) [mkArc 1 1 (clw 1 0 [7%Z]) 1%nat];
    mkState (clw 0 0 []) [] ].

(** A word arc [0 -> 1], then two arcs out of the non-final state 1. *)
Definition nonlinear_clat : CompactLattice := mkFst (Some 0%nat)
  [ mkState czero [mkArc 5 5 (clw 1 0 [7%Z; 7%Z]) 1%nat];
    mkState czero [mkArc 6 6 (clw 1 0 [7%Z]) 2%nat; mkArc 8 8 (clw 1 0 [7%Z]) 2%nat];
    mkState (clw 0 0 []) [] ].

(** The linear lattice of the first scenario of the specification. *)
Definition linear_clat : CompactLattice := mkFst (Some 0%nat)
  [ mkState czero [mkArc 5 5 (clw 1 0.5 [1%Z; 1%Z; 1%Z]) 1%nat];
    mkState czero [mkArc 6 6 (clw 2 0 [2%Z; 2%Z]) 2%nat];
    mkState (clw 0 0 []) [] ].

(** A start state with one arc and no final state. *)
Definition no_final_clat : CompactLattice := mkFst (Some 0%nat)
  [ mkState czero [mkArc 5 5 (clw 1 0 [7%Z; 7%Z]) 1%nat];
    mkState czero [] ].

(** A single state, start and final, with no arcs. *)
Definition one_state_clat : CompactLattice := mkFst (Some 0%nat)
  [ mkState (clw 0 0 []) [] ].

(** A deterministic FST with one state that is not final. *)
Definition no_final_det : DeterministicOnDemandFst :=
  mkDetFst 0 (fun _ => PInf) (fun _ _ => None).

(** One word arc [0 -> 1] with label 5, state 1 final. *)
Definition word_clat : CompactLattice := mkFst (Some 0%nat)
  [ mkState czero [mkArc 5 5 (clw 1 0 [7%Z]) 1%nat];
    mkState (clw 0 0 []) [] ].

(** A deterministic FST that reads label 5 from state 0 to state 1 at cost
    3 and has no final state: it accepts nothing. *)
Definition reject_all_det : DeterministicOnDemandFst :=
  mkDetFst 0 (fun _ => PInf)
           (fun s l => if bool_decide (s = 0%nat ∧ l = 5%Z)
                       then Some (mkStdArc 5 5 (Fin 3) 1) else None).

(** The better of the two arcs of [parallel_arcs]. *)
Definition best_arc_clat : CompactLattice := mkFst (Some 0%nat)
  [ mkState czero [mkArc 1 1 (clw 1 0 [7%Z]) 1%nat];
    mkState (clw 0 0 []) [] ].

(** An oracle that never ends, with log-likelihood [-(t + label)]. *)
Definition oracle : DecodableInterface :=
  mkDecodable (fun _ => false) (fun t l => of_Z (- (t + l))).

(** An oracle whose features end with frame 0. *)
Definition short_oracle : DecodableInterface :=
  mkDecodable (fun t => bool_decide (t = 0%Z)) (fun t l => of_Z (- (t + l))).

End Examples.

(* ================================================================== *)
(** ** Vocabulary of the properties *)

Section Vocabulary.
Context {W : Type} `{Weight W}.

(** The arcs of the states below [k] replaced by [g]. *)
Definition map_arcs_below (g : nat → list (Arc W) → list (Arc W)) (k : nat)
  (sts : list (StateData W)) : list (StateData W) :=
  imap (fun i d => if decide (i < k)%nat then mkState (final d) (g i (arcs d)) else d) sts.

End Vocabulary.

(** What [AddWordInsPenToCompactLattice] does to one state. *)
Definition wip_state (p : xnum) (d : StateData CompactLatticeWeight)
  : StateData CompactLatticeWeight :=
  mkState (final d) (wip_arc p <$> arcs d).

(** The walk of [CompactLatticeToWordAlignment]: from state [s] at time [t]
    through non-final states with exactly one arc, to state [s'] at time
    [t'], with the words, begin times and lengths it emits. *)
Inductive linear_walk (clat : CompactLattice)
  : nat → Z → nat → Z → list Z → list Z → list Z → Prop :=
| linear_walk_done s t : linear_walk clat s t s t [] [] []
| linear_walk_step s t d arc s' t' ws bs ls :
    states clat !! s = Some d →
    weight_neb (final d) Zero = false →
    arcs d = [arc] →
    linear_walk clat (nextstate arc)
                (t + Z.of_nat (length (String (weight arc))))%Z s' t' ws bs ls →
    linear_walk clat s t s' t' (ilabel arc :: ws) (t :: bs)
                (Z.of_nat (length (String (weight arc))) :: ls).

(** A final state without arcs: the end of a linear lattice. *)
Definition linear_end (clat : CompactLattice) (s : nat) : Prop :=
  ∃ d, states clat !! s = Some d ∧ weight_neb (final d) Zero = true ∧ arcs d = [].

(** A state that breaks linearity: final with arcs, or not final with a
    number of arcs other than one. *)
Definition nonlinear_at (clat : CompactLattice) (s : nat) : Prop :=
  ∃ d, states clat !! s = Some d ∧
       ((weight_neb (final d) Zero = true ∧ arcs d ≠ [])
        ∨ (weight_neb (final d) Zero = false ∧ length (arcs d) ≠ 1%nat)).

(** The arcs of all states, and the two sums of [CompactLatticeDepth]: the
    frame-string lengths over all arcs, and the lengths of the final-weight
    strings over all states. *)
Definition all_arcs {W : Type} (f : VectorFst W) : list (Arc W) :=
  concat (arcs <$> states f).

Definition arc_frames_sum (clat : CompactLattice) : nat :=
  sum_list_with (fun a => length (String (weight a))) (all_arcs clat).

Definition final_frames_sum (clat : CompactLattice) : nat :=
  sum_list_with (fun d => length (String (final d))) (states clat).

(** The arcs of the states listed in [l] replaced by [g]. *)
Definition map_arcs_in {W : Type} (g : nat → list (Arc W) → list (Arc W))
  (l : list nat) (sts : list (StateData W)) : list (StateData W) :=
  imap (fun i d => if bool_decide (i ∈ l) then mkState (final d) (g i (arcs d)) else d) sts.

(** What [LatticeStateTimes] establishes: a time is [-1] or more, and an
    arc with a non-epsilon input label advances the time by one. *)
Definition lattice_times_ok (lat : Lattice) (k : nat) (times : list Z) : Prop :=
  length times = NumStates lat
  ∧ (∀ i t, times !! i = Some t → (-1 ≤ t)%Z)
  ∧ (∀ s a, (s < k)%nat → a ∈ Arcs lat s → ilabel a ≠ 0%Z →
       ∃ ts, times !! s = Some ts ∧ times !! nextstate a = Some (ts + 1)%Z).

(** The states of [lat] after the frames below [k] have been rescored:
    a state whose time [t] satisfies [0 <= t < k] has its arcs rescored
    at [t]. *)
Definition rescored_below (decodable : DecodableInterface) (times : list Z)
  (k : Z) (sts : list (StateData LatticeWeight)) : list (StateData LatticeWeight) :=
  imap (fun s d =>
          match times !! s with
          | Some t =>
              if bool_decide (0 ≤ t < k)%Z
              then mkState (final d) (rescore_arc decodable t <$> arcs d)
              else d
          | None => d
          end) sts.

(** The states at time [t], in increasing order. *)
Definition states_at_time (times : list Z) (n : nat) (t : Z) : list nat :=
  filter (fun s => times !! s = Some t) (seq 0 n).

(** Paths: [path f s p t] when the arcs [p] lead from state [s] to state
    [t] in [f]. *)
Inductive path {W : Type} (f : VectorFst W) : nat → list (Arc W) → nat → Prop :=
| path_nil s : path f s [] s
| path_cons s a p t :
    a ∈ Arcs f s → path f (nextstate a) p t → path f s (a :: p) t.

(** The cost of an arc and of a sequence of arcs. *)
Definition arc_cost {W : Type} `{Weight W} (a : Arc W) : xnum :=
  ConvertToCost (weight a).

Definition path_cost {W : Type} `{Weight W} (p : list (Arc W)) : xnum :=
  foldr (fun a c => (arc_cost a + c)%X) (of_Z 0) p.

Definition final_cost {W : Type} `{Weight W} (f : VectorFst W) (s : nat) : xnum :=
  ConvertToCost (Final f s).

(** The costs of all weights are costs in the sense of [Member()]: finite
    or plus infinity. *)
Definition costs_ok {W : Type} `{Weight W} (f : VectorFst W) : Prop :=
  ∀ s, is_cost (final_cost f s) ∧ ∀ a, a ∈ Arcs f s → is_cost (arc_cost a).

(** The Viterbi (min-plus) quantities of a lattice.  [v] is the forward
    cost of [s]: the least cost of a path from the start state to [s], plus
    infinity when there is none. *)
Definition is_forward_cost {W : Type} `{Weight W} (f : VectorFst W) (s : nat)
  (v : xnum) : Prop :=
  is_cost v
  ∧ (∀ s0 p, Start f = Some s0 → path f s0 p s → (v <= path_cost p)%X)
  ∧ (v = PInf ∨ ∃ s0 p, Start f = Some s0 ∧ path f s0 p s ∧ v = path_cost p).

(** [v] is the backward cost of [s]: the least cost of a path from [s] to a
    state plus the final cost of that state. *)
Definition is_backward_cost {W : Type} `{Weight W} (f : VectorFst W) (s : nat)
  (v : xnum) : Prop :=
  is_cost v
  ∧ (∀ p t, path f s p t → (v <= path_cost p + final_cost f t)%X)
  ∧ (v = PInf ∨ ∃ p t, path f s p t ∧ v = (path_cost p + final_cost f t)%X).

(** [v] is the best final cost: the least cost of a path from the start
    state to a state plus the final cost of that state. *)
Definition is_best_final_cost {W : Type} `{Weight W} (f : VectorFst W)
  (v : xnum) : Prop :=
  is_cost v
  ∧ (∀ s0 p t, Start f = Some s0 → path f s0 p t → (t < NumStates f)%nat →
       (v <= path_cost p + final_cost f t)%X)
  ∧ (v = PInf ∨ ∃ s0 p t, Start f = Some s0 ∧ path f s0 p t
                          ∧ v = (path_cost p + final_cost f t)%X).

(** What the lattice routines rely on about a weight type: the zero weight
    equals itself and costs plus infinity, and a weight of another cost is
    not the zero weight. *)
Class WeightLaws (W : Type) `{Weight W} : Prop := {
  weight_eqb_Zero : weight_eqb (Zero : W) Zero = true;
  ConvertToCost_Zero : ConvertToCost (Zero : W) = PInf;
  weight_eqb_Zero_cost (w : W) : weight_eqb w Zero = true → ConvertToCost w = PInf
}.

(** The arc [a'] of the connected lattice comes from the arc [a]: the same
    labels and weight, and the next state renumbered. *)
Definition renumbered {W : Type} (keep : list nat) (a a' : Arc W) : Prop :=
  ilabel a' = ilabel a ∧ olabel a' = olabel a ∧ weight a' = weight a
  ∧ keep !! nextstate a' = Some (nextstate a).

(** The invariant of the forward pass of [PruneLattice] once the states
    below [k] are done: the forward costs are costs, the start state costs
    at most 0, every arc out of a finished state is relaxed, and every
    finite entry is the cost of a path from the start state. *)
Definition forward_inv {W : Type} `{Weight W} (f : VectorFst W) (s0 k : nat)
  (fc : list xnum) : Prop :=
  length fc = NumStates f
  ∧ (∀ i v, fc !! i = Some v → is_cost v)
  ∧ (∀ v, fc !! s0 = Some v → (v <= of_Z 0)%X)
  ∧ (∀ s a vs vn, (s < k)%nat → a ∈ Arcs f s → fc !! s = Some vs →
       fc !! nextstate a = Some vn → (vn <= vs + arc_cost a)%X)
  ∧ (∀ i v, fc !! i = Some v → v = PInf ∨ ∃ p, path f s0 p i ∧ v = path_cost p).

Definition best_final_inv {W : Type} `{Weight W} (f : VectorFst W) (s0 k : nat)
  (fc : list xnum) (bfc : xnum) : Prop :=
  is_cost bfc
  ∧ (∀ s v, (s < k)%nat → fc !! s = Some v → (bfc <= v + final_cost f s)%X)
  ∧ (bfc = PInf ∨ ∃ p t, path f s0 p t ∧ bfc = (path_cost p + final_cost f t)%X).

(** The backward cost of a state from those of its successors: the least
    of the final cost and of [arc cost + backward cost of the next state]. *)
Definition backward_relax {W : Type} `{Weight W} (bw : list xnum) (b : xnum)
  (a : Arc W) : xnum :=
  let ab := (arc_cost a + default PInf (bw !! nextstate a))%X in
  if xltb ab b then ab else b.

(** The pruning decision for an arc of state [s], and for its final
    weight: what the backward pass leaves of them. *)
Definition prune_arc {W : Type} `{Weight W} (bad_state : nat) (cutoff fw : xnum)
  (bw : list xnum) (a : Arc W) : Arc W :=
  if xgtb (fw + (arc_cost a + default PInf (bw !! nextstate a)))%X cutoff
  then mkArc (ilabel a) (olabel a) (weight a) bad_state else a.

Definition prune_final {W : Type} `{Weight W} (cutoff fw : xnum) (w : W) : W :=
  if xgtb (ConvertToCost w + fw)%X cutoff && xneb (ConvertToCost w) PInf
  then Zero else w.

Definition prune_state {W : Type} `{Weight W} (bad_state : nat) (cutoff : xnum)
  (fw bw : list xnum) (s : nat) (d : StateData W) : StateData W :=
  let fws := default PInf (fw !! s) in
  mkState (prune_final cutoff fws (final d))
          (prune_arc bad_state cutoff fws bw <$> arcs d).

(** The lattice after the backward pass, before [Connect]: the states from
    [k] on pruned, and the state [bad_state] added at the end. *)
Definition pruned_from {W : Type} `{Weight W} (f : VectorFst W) (cutoff : xnum)
  (fw bw : list xnum) (k : nat) : VectorFst W :=
  mkFst (Start f)
        (imap (fun s d => if decide (k ≤ s)%nat
                          then prune_state (NumStates f) cutoff fw bw s d else d)
              (states f)
         ++ [mkState Zero []]).

(** Checkers for the two conditions on a lattice, for concrete inputs. *)
Definition arcs_in_rangeb {W : Type} (f : VectorFst W) : bool :=
  forallb (fun d => forallb (fun a => (nextstate a <? length (states f))%nat) (arcs d))
          (states f).

Definition is_costb (a : xnum) : bool :=
  match a with Fin _ | PInf => true | _ => false end.

Definition costs_okb {W : Type} `{Weight W} (f : VectorFst W) : bool :=
  forallb (fun d => is_costb (ConvertToCost (final d))
                    && forallb (fun a => is_costb (arc_cost a)) (arcs d))
          (states f).

(** The invariant of the table of [CompactLatticeShortestPath]: the arcs
    and final costs of the states below [k] are relaxed, and every
    predecessor is a state below [m].  [n] is the number of states, entry
    [n] is the super-final state. *)
Definition table_inv (clat : CompactLattice) (k m : nat)
  (best : list (xnum * option nat)) : Prop :=
  let n := NumStates clat in
  length best = (n + 1)%nat
  ∧ (∀ i c pr, best !! i = Some (c, pr) → is_cost c)
  ∧ best !! 0%nat = Some (of_Z 0, None)
  ∧ (∀ s a cs prs cn prn, (s < k)%nat → a ∈ Arcs clat s →
       best !! s = Some (cs, prs) → best !! nextstate a = Some (cn, prn) →
       (cn <= cs + arc_cost a)%X)
  ∧ (∀ s cs prs cf prf, (s < k)%nat →
       best !! s = Some (cs, prs) → best !! n = Some (cf, prf) →
       (cf <= cs + final_cost clat s)%X)
  ∧ (∀ i c u, best !! i = Some (c, Some u) →
       (u < m)%nat ∧ (u < i)%nat
       ∧ ∃ cu pru, best !! u = Some (cu, pru)
           ∧ (((i < n)%nat ∧ ∃ a, a ∈ Arcs clat u ∧ nextstate a = i
                                 ∧ c = (cu + arc_cost a)%X)
              ∨ (i = n ∧ c = (cu + final_cost clat u)%X)))
  ∧ (∀ i c, best !! i = Some (c, None) → i = 0%nat ∨ c = PInf).

(** The states walked along the predecessors, in increasing order:
    [pred_path best sts cur] when [sts ++ [cur]] starts at state 0 and each
    state is the predecessor of the next. *)
Inductive pred_path (best : list (xnum * option nat)) : list nat → nat → Prop :=
| pred_path_start : pred_path best [] 0
| pred_path_step sts u v c :
    pred_path best sts u → v ≠ 0%nat → best !! v = Some (c, Some u) →
    pred_path best (sts ++ [u]) v.

(** The arc that [CompactLatticeShortestPath] takes from [u] to [v]. *)
Definition chosen_arc (clat : CompactLattice) (u v : nat) : option CompactLatticeArc :=
  foldl (best_arc_step v) None (Arcs clat u).

(** The arcs of a path renumbered from state [i] on: the arcs of
    [linear_lattice]. *)
Definition linear_arcs {W : Type} (i : nat) (p : list (Arc W)) : list (Arc W) :=
  imap (fun j a => mkArc (ilabel a) (olabel a) (weight a) (S (i + j))) p.

(** A lattice that is one path: state [i] has the single arc [i -> i + 1]
    with the labels and weight of the [i]-th arc, and the last state has
    the final weight [fw]. *)
Definition linear_lattice {W : Type} `{Weight W} (p : list (Arc W)) (fw : W)
  : VectorFst W :=
  mkFst (Some 0%nat)
        (imap (fun i a => mkState Zero [mkArc (ilabel a) (olabel a) (weight a) (S i)]) p
         ++ [mkState fw []]).

(** *** Depth per frame *)

(** Frame [t] is one of the [len] frames that start at time [st]. *)
Definition covers (st : Z) (len : nat) (t : nat) : bool :=
  (st <=? Z.of_nat t)%Z && (Z.of_nat t <? st + Z.of_nat len)%Z.

(** The entry of [s] in a vector of state times; [-1] outside of it. *)
Definition time_of (times : list Z) (s : nat) : Z := default (-1)%Z (times !! s).

(** The state times that [CompactLatticeStateTimes] computes. *)
Definition state_times_of (clat : CompactLattice) : list Z :=
  match CompactLatticeStateTimes clat with
  | Ok (_, times) => times
  | Err _ => []
  end.

Definition arc_frames (a : CompactLatticeArc) : nat := length (String (weight a)).

(** The number of arcs of state [s] whose frame strings cover frame [t],
    and whether the string of its final weight does. *)
Definition state_arc_depth (clat : CompactLattice) (times : list Z) (t s : nat) : nat :=
  length (filter (fun a => covers (time_of times s) (arc_frames a) t = true)
                 (Arcs clat s)).

Definition state_final_depth (clat : CompactLattice) (times : list Z) (t s : nat)
  : nat :=
  if covers (time_of times s) (length (String (Final clat s))) t then 1%nat else 0%nat.

(** The number of arcs, and of final weights, whose strings cover frame [t]. *)
Definition arc_depth (clat : CompactLattice) (times : list Z) (t : nat) : nat :=
  sum_list (state_arc_depth clat times t <$> seq 0 (NumStates clat)).

Definition final_depth (clat : CompactLattice) (times : list Z) (t : nat) : nat :=
  sum_list (state_final_depth clat times t <$> seq 0 (NumStates clat)).

(** *** Depth limiting *)

(** Frame [t] has a record of the arc at position [pos] of state [s]. *)
Definition has_record (records : list (list LatticeArcRecord.t)) (t s pos : nat)
  : Prop :=
  ∃ l r, records !! t = Some l ∧ r ∈ l
         ∧ LatticeArcRecord.state r = s ∧ LatticeArcRecord.arc r = pos.

Definition records_grow (r1 r2 : list (list LatticeArcRecord.t)) : Prop :=
  length r2 = length r1 ∧ ∀ t s pos, has_record r1 t s pos → has_record r2 t s pos.

(** Arc [a'] is arc [a], or [a] redirected to the state [dead]. *)
Definition arc_killed (dead : nat) (a a' : CompactLatticeArc) : Prop :=
  ilabel a' = ilabel a ∧ olabel a' = olabel a ∧ weight a' = weight a
  ∧ (nextstate a' = nextstate a ∨ nextstate a' = dead).

(** Lattice [l2] is [l1] with some arcs redirected to [dead]. *)
Definition killed_from (dead : nat) (l1 l2 : CompactLattice) : Prop :=
  Start l2 = Start l1 ∧ NumStates l2 = NumStates l1
  ∧ ∀ s, Final l2 s = Final l1 s
         ∧ length (Arcs l2 s) = length (Arcs l1 s)
         ∧ ∀ pos a', Arcs l2 s !! pos = Some a' →
                     ∃ a, Arcs l1 s !! pos = Some a ∧ arc_killed dead a a'.

(** At most [D] of the arcs that cover frame [t] are not redirected to
    [dead]: their positions are among those of [K]. *)
Definition frame_capped (dead : nat) (times : list Z) (D : Z) (t : nat)
  (clat : CompactLattice) : Prop :=
  ∃ K : list (nat * nat),
    (Z.of_nat (length K) ≤ D)%Z
    ∧ ∀ s pos a, Arcs clat s !! pos = Some a →
                 covers (time_of times s) (arc_frames a) t = true →
                 nextstate a ≠ dead → (s, pos) ∈ K.

(** The positions of the arcs of state [s] that cover frame [t] and do not
    lead to [dead]. *)
Definition live_arcs (dead : nat) (times : list Z) (t : nat) (clat : CompactLattice)
  (s : nat) : list (nat * nat) :=
  (fun pa : nat * CompactLatticeArc => (s, pa.1))
    <$> filter (fun pa : nat * CompactLatticeArc =>
                  covers (time_of times s) (arc_frames pa.2) t = true
                  ∧ nextstate pa.2 ≠ dead)
               (imap pair (Arcs clat s)).

(** The frames of the arcs of a path. *)
Definition path_frames (p : list CompactLatticeArc) : Z :=
  foldr (fun a n => (Z.of_nat (arc_frames a) + n)%Z) 0%Z p.

(** Times that are set stay, and so do the times of the states up to [k]. *)
Definition times_grow (k : nat) (t1 t2 : list Z) : Prop :=
  length t2 = length t1
  ∧ (∀ i, (i ≤ k)%nat → t2 !! i = t1 !! i)
  ∧ ∀ i v, t1 !! i = Some v → (0 ≤ v)%Z → t2 !! i = Some v.

(** The state times after the states below [k] have been passed: the start
    state has time 0, and an arc from a state with a time leads to a state
    whose time is later by the frames of the arc. *)
Definition clat_times_inv (lat : CompactLattice) (k : nat) (times : list Z) : Prop :=
  length times = NumStates lat
  ∧ times !! 0%nat = Some 0%Z
  ∧ ∀ s a c, (s < k)%nat → a ∈ Arcs lat s → times !! s = Some c → (0 ≤ c)%Z →
             times !! nextstate a = Some (c + Z.of_nat (arc_frames a))%Z.

(** *** State times along paths *)

(** The time an arc of a [Lattice] takes: one frame for an input label,
    none for an epsilon; and the time of a sequence of arcs. *)
Definition lat_arc_step (a : LatticeArc) : Z :=
  if bool_decide (ilabel a ≠ 0%Z) then 1%Z else 0%Z.

Definition lat_path_steps (p : list LatticeArc) : Z :=
  foldr (fun a n => (lat_arc_step a + n)%Z) 0%Z p.

(** The state times of a [Lattice] after the states below [k] have been
    passed. *)
Definition lattice_times_inv (lat : Lattice) (k : nat) (times : list Z) : Prop :=
  length times = NumStates lat
  ∧ times !! 0%nat = Some 0%Z
  ∧ ∀ s a c, (s < k)%nat → a ∈ Arcs lat s → times !! s = Some c → (0 ≤ c)%Z →
             times !! nextstate a = Some (c + lat_arc_step a)%Z.

(** What [CompactLatticeStateTimes] returns for the value [utt_len] of its
    loop. *)
Definition utt_len_result (utt_len : Z) : Z :=
  if bool_decide (utt_len = (-1)%Z) then 0%Z else utt_len.

(** The utterance length after the states below [k]: it is at least the
    end time of every final state passed, and it is the end time of one of
    them unless it is still [-1]. *)
Definition utt_len_inv (lat : CompactLattice) (k : nat) (times : list Z)
  (utt_len : Z) : Prop :=
  (∀ i v, times !! i = Some v → (-1 ≤ v)%Z)
  ∧ (-1 ≤ utt_len)%Z
  ∧ (∀ s ts, (s < k)%nat → is_final lat s = true → times !! s = Some ts →
       (ts + Z.of_nat (length (String (Final lat s))) ≤ utt_len_result utt_len)%Z)
  ∧ (utt_len = (-1)%Z
     ∨ ∃ s ts, (s < k)%nat ∧ is_final lat s = true ∧ times !! s = Some ts
               ∧ utt_len = (ts + Z.of_nat (length (String (Final lat s))))%Z).

(** The sum of a vector of integers. *)
Definition sumZ (l : list Z) : Z := foldr Z.add 0%Z l.

(** *** Longest sentence *)

(** The number of word arcs among the arcs [p]; a word arc of a [Lattice]
    has an output label, one of a [CompactLattice] an input label. *)
Definition words_on {W : Type} (has_word : Arc W → bool) (p : list (Arc W)) : Z :=
  foldr (fun a n => ((if has_word a then 1 else 0) + n)%Z) 0%Z p.

Definition lat_has_word (a : LatticeArc) : bool := bool_decide (olabel a ≠ 0%Z).
Definition clat_has_word (a : CompactLatticeArc) : bool := bool_decide (ilabel a ≠ 0%Z).

(** The vector [max_length] from one point of the loop to a later one: the
    entries up to [k] stay, and no entry decreases. *)
Definition longest_grow (k : nat) (m1 m2 : list Z) : Prop :=
  length m2 = length m1
  ∧ (∀ i, (i ≤ k)%nat → m2 !! i = m1 !! i)
  ∧ ∀ i v, m1 !! i = Some v → ∃ v', m2 !! i = Some v' ∧ (v ≤ v')%Z.

(** Every entry of [max_length] is the number of words of a path that ends
    in its state. *)
Definition longest_attained {W : Type} (has_word : Arc W → bool) (lat : VectorFst W)
  (m : list Z) : Prop :=
  ∀ i v, m !! i = Some v → ∃ s p, path lat s p i ∧ v = words_on has_word p.

(** [max_length] and [lattice_max_length] after the states below [k]. *)
Definition longest_inv {W : Type} `{Weight W} (has_word : Arc W → bool)
  (lat : VectorFst W) (k : nat) (acc : list Z * Z) : Prop :=
  length acc.1 = NumStates lat
  ∧ longest_attained has_word lat acc.1
  ∧ (∀ s a vs vn, (s < k)%nat → a ∈ Arcs lat s →
       acc.1 !! s = Some vs → acc.1 !! nextstate a = Some vn →
       (vs + (if has_word a then 1 else 0) ≤ vn)%Z)
  ∧ (∀ s v, (s < k)%nat → is_final lat s = true → acc.1 !! s = Some v → (v ≤ acc.2)%Z)
  ∧ (acc.2 = 0%Z
     ∨ ∃ s v, (s < k)%nat ∧ is_final lat s = true ∧ acc.1 !! s = Some v ∧ acc.2 = v).

(** The begin times of consecutive pieces of the lengths [ls], the first at
    time [t]. *)
Fixpoint begin_times_from (t : Z) (ls : list Z) : list Z :=
  match ls with
  | [] => []
  | l :: ls' => t :: begin_times_from (t + l)%Z ls'
  end.

(** *** Composition *)

(** The arc [a'] is what [ComposeCompactLatticeDeterministic] makes of an
    arc of [clat]: an arc without output label is copied with both labels
    0 and its weight; an arc with an output label keeps its labels, its
    frame string and the second weight component, and the weight of the
    matching arc of the deterministic FST is added to the first. *)
Definition composed_arc_of (clat : CompactLattice) (det_fst : DeterministicOnDemandFst)
  (a' : CompactLatticeArc) : Prop :=
  ∃ s1 arc1, arc1 ∈ Arcs clat s1
    ∧ ((olabel arc1 = 0%Z ∧ ilabel a' = 0%Z ∧ olabel a' = 0%Z
        ∧ weight a' = weight arc1)
       ∨ (olabel arc1 ≠ 0%Z ∧ ilabel a' = ilabel arc1 ∧ olabel a' = olabel arc1
          ∧ String (weight a') = String (weight arc1)
          ∧ Value2 (Weight_ (weight a')) = Value2 (Weight_ (weight arc1))
          ∧ ∃ s2 arc2, GetArc det_fst s2 (olabel arc1) = Some arc2
              ∧ Value1 (Weight_ (weight a'))
                = (Value1 (Weight_ (weight arc1)) + std_weight arc2)%X)).

(* ================================================================== *)
(** ** Arithmetic of extended numbers *)

Lemma Qltb_spec (x y : Q) : reflect (x < y)%Q (Qltb x y).
Proof.
  unfold Qltb, Qlt. destruct (Qnum x * QDen y <? Qnum y * QDen x)%Z eqn:E;
    constructor; lia.
Qed.

Lemma Qle_bool_spec (x y : Q) : reflect (x <= y)%Q (Qle_bool x y).
Proof.
  destruct (Qle_bool x y) eqn:E; constructor.
  - by apply Qle_bool_iff.
  - intros Hle. apply Qle_bool_iff in Hle. congruence.
Qed.

Lemma Qeq_bool_spec (x y : Q) : reflect (x == y)%Q (Qeq_bool x y).
Proof.
  destruct (Qeq_bool x y) eqn:E; constructor.
  - by apply Qeq_bool_iff.
  - intros Heq. apply Qeq_bool_iff in Heq. congruence.
Qed.

Ltac q_reflect :=
  repeat match goal with
  | H : context [Qltb ?a ?b] |- _ => destruct (Qltb_spec a b)
  | |- context [Qltb ?a ?b] => destruct (Qltb_spec a b)
  | H : context [Qle_bool ?a ?b] |- _ => destruct (Qle_bool_spec a b)
  | |- context [Qle_bool ?a ?b] => destruct (Qle_bool_spec a b)
  | H : context [Qeq_bool ?a ?b] |- _ => destruct (Qeq_bool_spec a b)
  | |- context [Qeq_bool ?a ?b] => destruct (Qeq_bool_spec a b)
  end.

(** Case analysis on every extended number in sight, then linear
    arithmetic on the rationals. *)
Ltac xnum_solve :=
  intros;
  repeat match goal with x : xnum |- _ => destruct x end;
  unfold xle, xlt, xeq, xgtb, xneb, xmax, xmin, xsub, is_cost, is_finite,
    of_Z, inject_Z in *;
  simpl in *;
  try done;
  q_reflect; simpl in *; try done;
  repeat match goal with
  | H : ¬ (_ <= _)%Q |- _ => apply Qnot_le_lt in H
  | H : ¬ (_ < _)%Q |- _ => apply Qnot_lt_le in H
  end;
  try lra; try (exfalso; lra).

Lemma Qplus_assoc_L (x y z : Q) : (x + (y + z) = (x + y) + z)%Q.
Proof.
  destruct x as [a b], y as [c d], z as [e f]. unfold Qplus; simpl.
  f_equal; [|lia]. rewrite !Pos2Z.inj_mul. ring.
Qed.

Lemma Qplus_comm_L (x y : Q) : (x + y = y + x)%Q.
Proof.
  destruct x as [a b], y as [c d]. unfold Qplus; simpl.
  f_equal; [ring|lia].
Qed.

Lemma xadd_assoc (a b c : xnum) : (a + (b + c) = (a + b) + c)%X.
Proof.
  destruct a, b, c; simpl; try done. by rewrite Qplus_assoc_L.
Qed.

Lemma xadd_comm (a b : xnum) : (a + b = b + a)%X.
Proof.
  destruct a, b; simpl; try done. by rewrite Qplus_comm_L.
Qed.

Lemma xle_refl a : is_cost a → (a <= a)%X.
Proof. xnum_solve. Qed.

Lemma xle_trans a b c : (a <= b)%X → (b <= c)%X → (a <= c)%X.
Proof. xnum_solve. Qed.

Lemma xeq_le a b : (a == b)%X → (a <= b)%X.
Proof. xnum_solve. Qed.

Lemma xeq_sym a b : (a == b)%X → (b == a)%X.
Proof. xnum_solve. Qed.

Lemma xeq_trans a b c : (a == b)%X → (b == c)%X → (a == c)%X.
Proof. xnum_solve. Qed.

Lemma xeq_refl a : is_cost a → (a == a)%X.
Proof. xnum_solve. Qed.

Lemma xle_antisym a b : (a <= b)%X → (b <= a)%X → (a == b)%X.
Proof. xnum_solve. Qed.

Lemma xltb_false_le a b : is_cost a → is_cost b → xltb a b = false → (b <= a)%X.
Proof. xnum_solve. Qed.

Lemma xltb_true_le a b : xltb a b = true → (a <= b)%X.
Proof. xnum_solve. Qed.

Lemma xadd_le_mono a b c d :
  is_cost a → is_cost c → (a <= b)%X → (c <= d)%X → (a + c <= b + d)%X.
Proof. xnum_solve. Qed.

Lemma xadd_is_cost a b : is_cost a → is_cost b → is_cost (a + b)%X.
Proof. xnum_solve. Qed.

Lemma xle_is_cost_l a b : (a <= b)%X → is_cost b → a ≠ NInf → is_cost a.
Proof. xnum_solve. Qed.

Lemma xle_PInf a : is_cost a → (a <= PInf)%X.
Proof. xnum_solve. Qed.

Lemma xadd_0_l a : is_cost a → (of_Z 0 + a == a)%X.
Proof. xnum_solve. Qed.

(* ================================================================== *)
(** ** Loops *)

Lemma bind_Ok {A B : Type} (m : result A) (f : A → result B) (b : B) :
  m ≫= f = Ok b → ∃ a, m = Ok a ∧ f a = Ok b.
Proof. destruct m as [a|e]; simpl; [by exists a|done]. Qed.

Lemma kaldi_assert_Ok (b : bool) (u : unit) : kaldi_assert b = Ok u → b = true.
Proof. by destruct b. Qed.

Lemma vget_Ok {A : Type} (v : list A) (i : nat) (x : A) :
  vget v i = Ok x ↔ v !! i = Some x.
Proof. unfold vget. destruct (v !! i); split; congruence. Qed.

Lemma vset_Ok {A : Type} (v : list A) (i : nat) (x : A) (v' : list A) :
  vset v i x = Ok v' ↔ (i < length v)%nat ∧ v' = <[i := x]> v.
Proof. unfold vset. case_decide; split; try intros [? ?]; try done; naive_solver. Qed.

(** Inversion of the successful steps of a computation. *)
Ltac subst_var H :=
  match type of H with
  | ?a = ?b => first [is_var b; subst b | is_var a; subst a | idtac]
  end.

Ltac inv_ok :=
  repeat match goal with
  | H : Ok _ = Ok _ |- _ => injection H as H; subst_var H
  | H : Err _ = Ok _ |- _ => discriminate H
  | H : (_, _) = (_, _) |- _ =>
      let H1 := fresh H in
      let H2 := fresh H in
      injection H as H1 H2; subst_var H1; subst_var H2
  | H : kaldi_assert _ = Ok _ |- _ => apply kaldi_assert_Ok in H
  | H : vget _ _ = Ok _ |- _ => apply vget_Ok in H
  | H : vset _ _ _ = Ok _ |- _ => apply vset_Ok in H as [? H]
  | H : _ ≫= _ = Ok _ |- _ =>
      let a := fresh "r" in
      let E := fresh "E" in
      apply bind_Ok in H as (a & E & H)
  | H : (let '(_, _) := ?p in _) = Ok _ |- _ => destruct p
  end.

Lemma foldM_app {A B : Type} (f : B → A → result B) (b : B) (l1 l2 : list A) :
  foldM f b (l1 ++ l2) = foldM f b l1 ≫= λ b', foldM f b' l2.
Proof.
  revert b. induction l1 as [|x l1 IH]; intros b; simpl; [done|].
  destruct (f b x); simpl; [apply IH|done].
Qed.

(** A loop invariant over the items passed so far. *)
Lemma foldM_inv {A B : Type} (P : list A → B → Prop) (f : B → A → result B)
  (l : list A) (b r : B) :
  P [] b →
  (∀ pre x post b1 b2, l = pre ++ x :: post → P pre b1 → f b1 x = Ok b2 →
                       P (pre ++ [x]) b2) →
  foldM f b l = Ok r → P l r.
Proof.
  intros H0 Hstep.
  assert (G : ∀ post pre b1, l = pre ++ post → P pre b1 →
                             foldM f b1 post = Ok r → P l r).
  { induction post as [|x post IH]; intros pre b1 El Hp Hf; simpl in Hf.
    - inv_ok. by rewrite El, app_nil_r.
    - inv_ok. eapply (IH (pre ++ [x])); [by rewrite <- app_assoc|eauto|done]. }
  intros Hf. by eapply (G l []).
Qed.

(** A loop all of whose steps return does so as well. *)
Lemma foldM_total {A B : Type} (P : list A → B → Prop) (f : B → A → result B)
  (l : list A) (b : B) :
  P [] b →
  (∀ pre x post b1, l = pre ++ x :: post → P pre b1 →
                    ∃ b2, f b1 x = Ok b2 ∧ P (pre ++ [x]) b2) →
  ∃ r, foldM f b l = Ok r ∧ P l r.
Proof.
  intros H0 Hstep.
  assert (G : ∀ post pre b1, l = pre ++ post → P pre b1 →
                             ∃ r, foldM f b1 post = Ok r ∧ P l r).
  { induction post as [|x post IH]; intros pre b1 El Hp; simpl.
    - exists b1. by rewrite El, app_nil_r.
    - destruct (Hstep pre x post b1 El Hp) as (b2 & -> & Hp2). simpl.
      apply (IH (pre ++ [x])); [by rewrite <- app_assoc|done]. }
  by apply (G l []).
Qed.

Section FstFacts.
Context {W : Type} `{Weight W}.

Lemma Arcs_lookup (f : VectorFst W) (s : nat) (d : StateData W) :
  states f !! s = Some d → Arcs f s = arcs d.
Proof. unfold Arcs. by intros ->. Qed.

Lemma Final_lookup (f : VectorFst W) (s : nat) (d : StateData W) :
  states f !! s = Some d → Final f s = final d.
Proof. unfold Final. by intros ->. Qed.

Lemma foldl_SetArcs (g : nat → list (Arc W) → list (Arc W)) (f : VectorFst W) (k : nat) :
  foldl (fun f s => SetArcs f s (g s (Arcs f s))) f (seq 0 k)
  = mkFst (Start f) (map_arcs_below g k (states f)).
Proof.
  induction k as [|k IH].
  - simpl. destruct f as [st sts]. f_equal. unfold map_arcs_below. simpl.
    apply list_eq. intros i. rewrite list_lookup_imap.
    by destruct (sts !! i).
  - rewrite seq_S, foldl_app, IH. simpl. unfold SetArcs. simpl. f_equal.
    apply list_eq. intros i. unfold map_arcs_below, Arcs. simpl.
    rewrite list_lookup_alter, !list_lookup_imap.
    destruct (states f !! i) eqn:E; simpl;
      repeat case_decide; simplify_eq; try lia; try done.
    all: by rewrite E.
Qed.

Lemma map_arcs_below_all (g : nat → list (Arc W) → list (Arc W))
  (sts : list (StateData W)) :
  map_arcs_below g (length sts) sts = imap (fun i d => mkState (final d) (g i (arcs d))) sts.
Proof.
  apply list_eq. intros i. unfold map_arcs_below. rewrite !list_lookup_imap.
  destruct (sts !! i) eqn:E; simpl; [|done].
  apply lookup_lt_Some in E. by case_decide; [|lia].
Qed.

End FstFacts.

(* ================================================================== *)
(** ** Word insertion penalty *)

Lemma AddWordInsPen_states (p : xnum) (clat : CompactLattice) :
  AddWordInsPenToCompactLattice p clat
  = mkFst (Start clat) (wip_state p <$> states clat).
Proof.
  unfold AddWordInsPenToCompactLattice, NumStates.
  rewrite (foldl_SetArcs (fun _ l => wip_arc p <$> l)), map_arcs_below_all.
  f_equal. apply list_eq. intros i. by rewrite list_lookup_imap, list_lookup_fmap.
Qed.

Lemma wip_arc_twice (p q : xnum) (a : CompactLatticeArc) :
  wip_arc q (wip_arc p a) = wip_arc (p + q)%X a.
Proof.
  unfold wip_arc. destruct a as [il ol w nx]; simpl.
  destruct (decide (il = 0%Z)) as [->|Hne].
  - reflexivity.
  - rewrite (bool_decide_true (il ≠ 0%Z)) by done. simpl.
    rewrite (bool_decide_true (il ≠ 0%Z)) by done.
    unfold SetWeight, SetValue1; simpl. by rewrite xadd_assoc.
Qed.

(** What one application does to an arc. *)
Lemma wip_arc_frame (p : xnum) (a : CompactLatticeArc) :
  ilabel (wip_arc p a) = ilabel a ∧ olabel (wip_arc p a) = olabel a
  ∧ nextstate (wip_arc p a) = nextstate a
  ∧ String (weight (wip_arc p a)) = String (weight a)
  ∧ Value2 (Weight_ (weight (wip_arc p a))) = Value2 (Weight_ (weight a))
  ∧ Value1 (Weight_ (weight (wip_arc p a)))
    = (if bool_decide (ilabel a = 0%Z) then Value1 (Weight_ (weight a))
       else Value1 (Weight_ (weight a)) + p)%X
  ∧ (ilabel a = 0%Z → wip_arc p a = a).
Proof.
  unfold wip_arc. destruct a as [il ol w nx]; simpl.
  destruct (decide (il = 0%Z)) as [->|Hne].
  - rewrite bool_decide_false by tauto. by rewrite bool_decide_true.
  - rewrite bool_decide_true by done. by rewrite bool_decide_false.
Qed.


(* ================================================================== *)
(** ** Word alignment *)

Lemma linear_walk_lengths clat s t s' t' ws bs ls :
  linear_walk clat s t s' t' ws bs ls →
  length ws = length bs ∧ length bs = length ls.
Proof. induction 1; simpl; [done|]. destruct IHlinear_walk. by split; f_equal. Qed.

Lemma word_alignment_loop_S fuel clat state cur_time words begin_times lengths :
  word_alignment_loop (S fuel) clat state cur_time words begin_times lengths
  = (d ← state_at clat state;
     let num_arcs := length (arcs d) in
     if weight_neb (final d) Zero then
       if bool_decide (num_arcs ≠ 0%nat) then Ok (false, (words, begin_times, lengths))
       else Ok (true, (words, begin_times, lengths))
     else
       match arcs d with
       | [arc] =>
           let word_id := ilabel arc in
           let length_ := Z.of_nat (length (String (weight arc))) in
           word_alignment_loop fuel clat (nextstate arc) (cur_time + length_)%Z
             (words ++ [word_id]) (begin_times ++ [cur_time]) (lengths ++ [length_])
       | _ => Ok (false, (words, begin_times, lengths))
       end).
Proof. reflexivity. Qed.

Lemma word_alignment_loop_walk fuel clat s t ws0 bs0 ls0 b ws bs ls :
  word_alignment_loop fuel clat s t ws0 bs0 ls0 = Ok (b, (ws, bs, ls)) →
  ∃ ws1 bs1 ls1 s' t',
    ws = ws0 ++ ws1 ∧ bs = bs0 ++ bs1 ∧ ls = ls0 ++ ls1
    ∧ linear_walk clat s t s' t' ws1 bs1 ls1
    ∧ (if b then linear_end clat s' else nonlinear_at clat s').
Proof.
  revert s t ws0 bs0 ls0.
  induction fuel as [|fuel IH]; intros s t ws0 bs0 ls0 Hl; [done|].
  rewrite word_alignment_loop_S in Hl.
  unfold state_at in Hl. inv_ok. rename r into d. cbv zeta in Hl.
  destruct (weight_neb (final d) Zero) eqn:Hfin.
  - case_bool_decide as Hn; inv_ok; simplify_eq.
    + exists [], [], [], s, t. rewrite !app_nil_r.
      repeat split; [constructor|]. exists d. repeat split; [done|].
      left. split; [done|]. by destruct (arcs d).
    + exists [], [], [], s, t. rewrite !app_nil_r.
      repeat split; [constructor|]. exists d. repeat split; [done..|].
      destruct (arcs d); [done|]. simpl in Hn. lia.
  - destruct (arcs d) as [|arc [|arc' rest]] eqn:Harcs.
    + inv_ok; simplify_eq. exists [], [], [], s, t. rewrite !app_nil_r.
      repeat split; [constructor|]. exists d. split; [done|]. right.
      rewrite Harcs. by split.
    + apply IH in Hl as (ws1 & bs1 & ls1 & s' & t' & -> & -> & -> & Hw & Hend).
      eexists (_ :: ws1), (_ :: bs1), (_ :: ls1), s', t'.
      rewrite <- !app_assoc. simpl. repeat split; [|done].
      by eapply linear_walk_step.
    + inv_ok; simplify_eq. exists [], [], [], s, t. rewrite !app_nil_r.
      repeat split; [constructor|]. exists d. split; [done|]. right.
      rewrite Harcs. by split.
Qed.

(** C7, as the code has it.  On every return the three output arrays have
    equal length.  With no start state they are empty.  Otherwise they hold
    one entry per arc walked from the start state: when the result is
    [false] the walk ends in the state that breaks linearity, and the
    entries of the arcs before that state stay in the arrays. *)
Theorem word_alignment_outputs (fuel : nat) (clat : CompactLattice)
  (b : bool) (ws bs ls : list Z) :
  CompactLatticeToWordAlignment fuel clat = Ok (b, (ws, bs, ls)) →
  length ws = length bs ∧ length bs = length ls
  ∧ ((Start clat = None ∧ b = false ∧ ws = [] ∧ bs = [] ∧ ls = [])
     ∨ ∃ s0 s t, Start clat = Some s0
         ∧ linear_walk clat s0 0%Z s t ws bs ls
         ∧ (if b then linear_end clat s else nonlinear_at clat s)).
Proof.
  unfold CompactLatticeToWordAlignment. destruct (Start clat) as [s0|] eqn:Hs.
  - intros Hl.
    apply word_alignment_loop_walk in Hl
      as (ws1 & bs1 & ls1 & s' & t' & -> & -> & -> & Hw & Hend).
    simpl. destruct (linear_walk_lengths _ _ _ _ _ _ _ _ Hw) as [E1 E2].
    split; [done|]. split; [done|]. right. by exists s0, s', t'.
  - intros Hl. inv_ok. simplify_eq. split; [done|]. split; [done|]. by left.
Qed.

Lemma word_alignment_outputs_witness :
  CompactLatticeToWordAlignment 5 Examples.linear_clat
  = Ok (true, ([5; 6], [0; 3], [3; 2]))%Z
  ∧ (length [5; 6]%Z = length [0; 3]%Z ∧ length [0; 3]%Z = length [3; 2]%Z
     ∧ ((Start Examples.linear_clat = None ∧ true = false
         ∧ [5; 6]%Z = [] ∧ [0; 3]%Z = [] ∧ [3; 2]%Z = [])
        ∨ ∃ s0 s t, Start Examples.linear_clat = Some s0
            ∧ linear_walk Examples.linear_clat s0 0%Z s t [5; 6]%Z [0; 3]%Z [3; 2]%Z
            ∧ linear_end Examples.linear_clat s)).
Proof.
  split; [reflexivity|].
  apply (word_alignment_outputs 5 Examples.linear_clat true). reflexivity.
Defined.

(** C7 fails as stated: the lattice is not linear at state 1, the result is
    [false], and the entry of the arc [0 -> 1] is left in the arrays. *)
Lemma word_alignment_not_cleared :
  CompactLatticeToWordAlignment 5 Examples.nonlinear_clat
  = Ok (false, ([5], [0], [2]))%Z
  ∧ nonlinear_at Examples.nonlinear_clat 1
  ∧ [5%Z] ≠ ([] : list Z).
Proof.
  split; [reflexivity|]. split; [|done].
  eexists. split; [reflexivity|]. right. by split.
Qed.

(* ================================================================== *)
(** ** Mean depth *)

Lemma foldl_add_sum {A : Type} (g : A → nat) (l : list A) (n : nat) :
  foldl (fun n x => (n + g x)%nat) n l = (n + sum_list_with g l)%nat.
Proof.
  revert n. induction l as [|x l IH]; intros n; simpl; [lia|]. rewrite IH. lia.
Qed.

Lemma sum_seq_lookup {A : Type} (g : option A → nat) (l : list A) :
  sum_list_with (fun s => g (l !! s)) (seq 0 (length l))
  = sum_list_with (fun x => g (Some x)) l.
Proof.
  induction l as [|x l IH] using rev_ind; [done|].
  rewrite length_app, Nat.add_1_r, seq_S, !sum_list_with_app. simpl.
  rewrite lookup_app_r, Nat.sub_diag by done. simpl. f_equal.
  rewrite <- IH. clear IH.
  assert (G : ∀ k, (k ≤ length l)%nat →
            sum_list_with (fun s => g ((l ++ [x]) !! s)) (seq 0 k)
            = sum_list_with (fun s => g (l !! s)) (seq 0 k)).
  { induction k as [|k IHk]; intros Hk; [done|].
    rewrite seq_S, !sum_list_with_app, IHk by lia. simpl.
    by rewrite lookup_app_l by lia. }
  by apply G.
Qed.

Lemma num_arc_frames_sums (clat : CompactLattice) :
  num_arc_frames clat = (arc_frames_sum clat + final_frames_sum clat)%nat.
Proof.
  unfold num_arc_frames, NumStates. rewrite foldl_add_sum. simpl.
  unfold state_frames, Arcs, Final.
  rewrite (sum_seq_lookup
             (fun o => (foldl (fun n arc => (n + length (String (weight arc)))%nat) 0%nat
                              (match o with Some d => arcs d | None => [] end)
                        + length (String (match o with Some d => final d | None => Zero end)))%nat)).
  unfold arc_frames_sum, final_frames_sum, all_arcs.
  induction (states clat) as [|d l IH]; simpl; [done|].
  rewrite sum_list_with_app, foldl_add_sum, IH. simpl. unfold fmap. lia.
Qed.

Lemma xdiv_by_zero (n : nat) :
  (of_nat n / of_Z 0)%X = if decide (n = 0%nat) then NaN else PInf.
Proof.
  unfold of_nat, of_Z, xdiv. simpl. unfold Qcompare. simpl.
  rewrite Z.mul_1_r. case_decide as Hn.
  - by subst.
  - destruct (Z.of_nat n) eqn:E; [lia|done|lia].
Qed.

(** C9.  On a sorted lattice with no start state [CompactLatticeDepth]
    returns 1.0 and writes 0 to [num_frames].  With a start state, and [T]
    the utterance length that [CompactLatticeStateTimes] returns, it
    returns the sum over all arcs of the length of the arc's string plus
    the sum over all states of the length of the final weight's string,
    divided by [T], and writes [T] to [num_frames] when that pointer is
    given. *)
Theorem compact_lattice_depth_value (clat : CompactLattice) (num_frames : bool) :
  top_sorted clat = true →
  (Start clat = None → CompactLatticeDepth clat true = Ok (of_Z 1, Some 0%Z))
  ∧ (∀ T times, Start clat ≠ None →
       CompactLatticeStateTimes clat = Ok (T, times) →
       CompactLatticeDepth clat num_frames
       = Ok ((of_nat (arc_frames_sum clat + final_frames_sum clat) / of_Z T)%X,
             if num_frames then Some T else None)).
Proof.
  intros Hts. unfold CompactLatticeDepth. rewrite Hts. simpl. split.
  - by intros ->.
  - intros T times Hs Ht. destruct (Start clat); [|done].
    rewrite Ht. simpl. by rewrite num_arc_frames_sums.
Qed.

Lemma compact_lattice_depth_value_witness :
  CompactLatticeDepth Examples.parallel_arcs true
  = Ok ((of_nat (arc_frames_sum Examples.parallel_arcs
                 + final_frames_sum Examples.parallel_arcs) / of_Z 1)%X, Some 1%Z).
Proof.
  apply (compact_lattice_depth_value Examples.parallel_arcs true eq_refl) with
    (times := [0; 1]%Z); [done|reflexivity].
Defined.

(* ================================================================== *)
(** ** Utterance length of a lattice without final state *)

Lemma clat_times_no_final (clat : CompactLattice) (T : Z) (times : list Z) :
  (∀ s, is_final clat s = false) →
  CompactLatticeStateTimes clat = Ok (T, times) → T = 0%Z.
Proof.
  intros Hnf. unfold CompactLatticeStateTimes.
  destruct (negb (top_sorted clat)); [done|]. intros Ht. inv_ok.
  rename z into utt_len.
  assert (utt_len = (-1)%Z) as ->.
  { eapply (foldM_inv (fun _ acc => acc.2 = (-1)%Z)) in E1; [done|done|].
    intros pre x post [t1 u1] [t2 u2] _ Hu Hstep. simpl in *. subst u1.
    unfold clat_times_state in Hstep. rewrite Hnf in Hstep. by inv_ok. }
  rewrite bool_decide_true in Ht by done. by inv_ok.
Qed.

(** C10.  The division of [CompactLatticeDepth] has no guard for a zero
    utterance length.  For a lattice with a start state and no final state
    [CompactLatticeStateTimes] returns 0, and [CompactLatticeDepth] does not
    return the 1.0 of the empty lattice: it returns the number of arc frames
    divided by zero, which is plus infinity, or NaN when there is no arc
    frame. *)
Theorem compact_lattice_depth_zero_division (clat : CompactLattice)
  (num_frames : bool) (T : Z) (times : list Z) :
  Start clat ≠ None →
  (∀ s, is_final clat s = false) →
  CompactLatticeStateTimes clat = Ok (T, times) →
  T = 0%Z
  ∧ CompactLatticeDepth clat num_frames
    = Ok ((of_nat (num_arc_frames clat) / of_Z 0)%X,
          if num_frames then Some 0%Z else None)
  ∧ (of_nat (num_arc_frames clat) / of_Z 0)%X
    = (if decide (num_arc_frames clat = 0%nat) then NaN else PInf).
Proof.
  intros Hs Hnf Ht.
  assert (T = 0%Z) as -> by (by eapply clat_times_no_final).
  split; [done|]. split; [|apply xdiv_by_zero].
  unfold CompactLatticeDepth.
  assert (top_sorted clat = true) as ->.
  { unfold CompactLatticeStateTimes in Ht. by destruct (top_sorted clat). }
  simpl. destruct (Start clat); [|done]. by rewrite Ht.
Qed.

Lemma compact_lattice_depth_zero_division_witness :
  Start Examples.no_final_clat ≠ None
  ∧ CompactLatticeDepth Examples.no_final_clat true
    = Ok ((of_nat 2 / of_Z 0)%X, Some 0%Z)
  ∧ (of_nat 2 / of_Z 0)%X = PInf.
Proof.
  split; [done|].
  apply (compact_lattice_depth_zero_division Examples.no_final_clat true 0%Z [0; 2]%Z);
    [done| |reflexivity].
  intros [|[|s]]; reflexivity.
Defined.

(* ================================================================== *)
(** ** Sorted lattices and in-place updates *)

Section SortedFacts.
Context {W : Type} `{Weight W}.

Lemma top_sorted_arcs (f : VectorFst W) (s : nat) (a : Arc W) :
  top_sorted f = true → a ∈ Arcs f s → (s < nextstate a)%nat.
Proof.
  unfold top_sorted, Arcs. intros Hts Ha.
  destruct (states f !! s) as [d|] eqn:Hd; [|by apply elem_of_nil in Ha].
  rewrite forallb_forall in Hts.
  specialize (Hts (s, d)). simpl in Hts.
  assert (Hin : In (s, d) (imap pair (states f))).
  { apply list_elem_of_In, list_elem_of_lookup. exists s.
    by rewrite list_lookup_imap, Hd. }
  apply Hts in Hin. unfold top_sorted_state in Hin.
  rewrite forallb_forall in Hin. apply list_elem_of_In in Ha.
  apply Hin in Ha. by apply Nat.ltb_lt.
Qed.

Lemma top_sorted_intro (f : VectorFst W) :
  (∀ s a, a ∈ Arcs f s → (s < nextstate a)%nat) → top_sorted f = true.
Proof.
  intros Hs. unfold top_sorted. apply forallb_forall. intros [s d] Hin.
  apply list_elem_of_In, list_elem_of_lookup in Hin as [i Hi].
  rewrite list_lookup_imap in Hi.
  destruct (states f !! i) as [d'|] eqn:Hd; simpl in Hi; [|done].
  simplify_eq. unfold top_sorted_state. apply forallb_forall. intros a Ha.
  apply Nat.ltb_lt, Hs. unfold Arcs. rewrite Hd. by apply list_elem_of_In.
Qed.

Lemma SetArcs_Start (f : VectorFst W) s l : Start (SetArcs f s l) = Start f.
Proof. done. Qed.

Lemma foldl_SetArcs_in (g : nat → list (Arc W) → list (Arc W)) (l : list nat)
  (f : VectorFst W) :
  NoDup l →
  foldl (fun f s => SetArcs f s (g s (Arcs f s))) f l
  = mkFst (Start f) (map_arcs_in g l (states f)).
Proof.
  intros Hnd. revert f. induction Hnd as [|s l Hs Hnd IH]; intros f; simpl.
  - destruct f as [st sts]. simpl. f_equal. unfold map_arcs_in.
    apply list_eq. intros i. rewrite list_lookup_imap.
    by destruct (sts !! i).
  - rewrite IH. simpl. f_equal. unfold map_arcs_in, Arcs.
    apply list_eq. intros i. rewrite !list_lookup_imap, list_lookup_alter.
    case_decide as Hi.
    + subst i. destruct (states f !! s) as [d|] eqn:Hd; simpl; [|done].
      rewrite (bool_decide_false (s ∈ l)) by done.
      by rewrite bool_decide_true by apply list_elem_of_here.
    + destruct (states f !! i) as [d|] eqn:Hd; simpl; [|done].
      destruct (decide (i ∈ l)) as [Hil|Hil].
      * rewrite !bool_decide_true; [done| |done]. by apply list_elem_of_further.
      * rewrite !bool_decide_false; [done| |done].
        intros Hx. apply elem_of_cons in Hx as [?|?]; [congruence|done].
Qed.

End SortedFacts.

(* ================================================================== *)
(** ** State times of a lattice *)

Lemma seq_split_length (n : nat) (pre post : list nat) (x : nat) :
  seq 0 n = pre ++ x :: post → x = length pre.
Proof.
  intros E. assert (Hx : seq 0 n !! length pre = Some x).
  { rewrite E. by rewrite lookup_app_r, Nat.sub_diag by done. }
  apply lookup_seq in Hx as [? ?]. lia.
Qed.

Lemma seq_split_lt (n : nat) (pre post : list nat) (x : nat) :
  seq 0 n = pre ++ x :: post → (x < n)%nat.
Proof.
  intros E. assert (Hx : seq 0 n !! length pre = Some x).
  { rewrite E. by rewrite lookup_app_r, Nat.sub_diag by done. }
  apply lookup_seq in Hx as [? ?]. lia.
Qed.

Lemma foldl_max_ge (v : list Z) (x : Z) :
  (x ≤ foldl Z.max x v)%Z ∧ ∀ i t, v !! i = Some t → (t ≤ foldl Z.max x v)%Z.
Proof.
  revert x. induction v as [|y v IH]; intros x; simpl.
  - split; [lia|]. intros i t Hi. by rewrite lookup_nil in Hi.
  - destruct (IH (Z.max x y)) as [H1 H2]. split; [lia|].
    intros [|i] t Hi; simpl in Hi.
    + simplify_eq. lia.
    + by eapply H2.
Qed.

Lemma max_element_ge (v : list Z) (m : Z) :
  max_element v = Ok m → ∀ i t, v !! i = Some t → (t ≤ m)%Z.
Proof.
  destruct v as [|x v]; simpl; [done|]. intros Hm. inv_ok.
  destruct (foldl_max_ge v x) as [H1 H2].
  intros [|i] t Hi; simpl in Hi; [by simplify_eq|by eapply H2].
Qed.

Lemma max_element_in (v : list Z) (m : Z) :
  max_element v = Ok m → ∃ i, v !! i = Some m.
Proof.
  destruct v as [|x v]; simpl; [done|]. intros Hm. inv_ok.
  assert (G : ∀ v x, foldl Z.max x v = x ∨ ∃ i, v !! i = Some (foldl Z.max x v)).
  { clear. induction v as [|y v IH]; intros x; simpl; [by left|].
    destruct (IH (Z.max x y)) as [E|[i Hi]].
    - rewrite E. destruct (Z.max_spec x y) as [[? ->]|[? ->]]; [right|by left].
      by exists 0%nat.
    - right. by exists (S i). }
  destruct (G v x) as [->|[i Hi]]; [by exists 0%nat|by exists (S i)].
Qed.

(** One arc of [LatticeStateTimes] leaves the times alone, or gives a time
    to a next state that had none. *)
Lemma lattice_times_arc_cases (cur : Z) (times times' : list Z) (arc : LatticeArc) :
  lattice_times_arc cur times arc = Ok times' →
  let step := (if bool_decide (ilabel arc ≠ 0%Z) then 1 else 0)%Z in
  (times' = times ∧ times !! nextstate arc = Some (cur + step)%Z)
  ∨ (times !! nextstate arc = Some (-1)%Z
     ∧ times' = <[nextstate arc := (cur + step)%Z]> times).
Proof.
  unfold lattice_times_arc. intros Hs. inv_ok. rename r into nt.
  destruct (bool_decide (ilabel arc ≠ 0%Z)); simpl;
    case_bool_decide as Hnt; inv_ok.
  - right. by subst.
  - left. apply bool_decide_eq_true in E0. by subst.
  - right. subst. by rewrite Z.add_0_r.
  - left. apply bool_decide_eq_true in E0. subst. by rewrite Z.add_0_r.
Qed.

Lemma lattice_times_state_ok (lat : Lattice) (k : nat) (times times' : list Z) :
  top_sorted lat = true →
  lattice_times_ok lat k times →
  lattice_times_state lat times k = Ok times' →
  lattice_times_ok lat (S k) times'.
Proof.
  intros Hts (Hlen & Hge & Harc) Hst. unfold lattice_times_state in Hst.
  inv_ok. rename r into cur.
  pose (P := fun (pre : list LatticeArc) (t : list Z) =>
    length t = NumStates lat
    ∧ (∀ i v, t !! i = Some v → (-1 ≤ v)%Z)
    ∧ (∀ s a, (s < k)%nat → a ∈ Arcs lat s → ilabel a ≠ 0%Z →
         ∃ ts, t !! s = Some ts ∧ t !! nextstate a = Some (ts + 1)%Z)
    ∧ t !! k = Some cur
    ∧ (∀ a, a ∈ pre → ilabel a ≠ 0%Z → t !! nextstate a = Some (cur + 1)%Z)).
  assert (HP : P (Arcs lat k) times').
  { eapply (foldM_inv P); [| |exact Hst].
    - repeat split; try done. intros a Ha. by apply elem_of_nil in Ha.
    - intros pre x post t1 t2 El (Hl1 & Hg1 & Ha1 & Hk1 & Hp1) Hstep.
      assert (Hx : x ∈ Arcs lat k).
      { rewrite El. apply elem_of_app. right. apply list_elem_of_here. }
      pose proof (top_sorted_arcs lat k x Hts Hx) as Hlt.
      assert (Hcur : (-1 ≤ cur)%Z) by (by eapply Hg1).
      apply lattice_times_arc_cases in Hstep as [[-> Hnx]|[Hold ->]].
      + repeat split; try done. intros a Ha Hil.
        apply elem_of_app in Ha as [Ha|Ha]; [by apply Hp1|].
        apply list_elem_of_singleton in Ha. subst a.
        rewrite Hnx. by rewrite bool_decide_true.
      + repeat split.
        * by rewrite length_insert.
        * intros i v. rewrite list_lookup_insert.
          case_decide as Hi; [|by apply Hg1].
          intros ?. simplify_eq. case_bool_decide; lia.
        * intros s a Hs Ha Hil. destruct (Ha1 s a Hs Ha Hil) as (ts & Hts1 & Hts2).
          exists ts. rewrite !list_lookup_insert_ne; [done| |lia].
          intros E'. pose proof (Hg1 _ _ Hts1). rewrite <- E' in Hts2.
          simplify_eq. lia.
        * rewrite list_lookup_insert_ne; [done|lia].
        * intros a Ha Hil. apply elem_of_app in Ha as [Ha|Ha].
          -- rewrite list_lookup_insert_ne; [by apply Hp1|].
             intros E'. pose proof (Hp1 a Ha Hil) as Hpa.
             rewrite <- E' in Hpa. simplify_eq. lia.
          -- apply list_elem_of_singleton in Ha. subst a.
             rewrite list_lookup_insert_eq; [|by eapply lookup_lt_Some].
             by rewrite bool_decide_true. }
  destruct HP as (Hl' & Hg' & Ha' & Hk' & Hp').
  repeat split; [done|done|].
  intros s a Hs Ha Hil. destruct (decide (s = k)) as [->|Hne].
  - exists cur. split; [done|]. by apply Hp'.
  - apply Ha'; [lia|done|done].
Qed.

Lemma lattice_state_times_ok (lat : Lattice) (utt_len : Z) (times : list Z) :
  LatticeStateTimes lat = Ok (utt_len, times) →
  top_sorted lat = true
  ∧ Start lat = Some 0%nat
  ∧ lattice_times_ok lat (NumStates lat) times
  ∧ (∀ i t, times !! i = Some t → (t ≤ utt_len)%Z)
  ∧ (0 ≤ utt_len)%Z
  ∧ (0 < NumStates lat)%nat.
Proof.
  unfold LatticeStateTimes. destruct (top_sorted lat) eqn:Hts; [|done].
  simpl. intros Hl. inv_ok. subst r0 r1. rename r2 into utt_len, E2 into Hl.
  apply bool_decide_eq_true in E. split; [done|]. split; [done|].
  assert (Hok : lattice_times_ok lat (NumStates lat) times).
  { assert (G : lattice_times_ok lat (length (seq 0 (NumStates lat))) times).
    { eapply (foldM_inv (fun pre t => lattice_times_ok lat (length pre) t));
        [| |exact E1].
      - repeat split.
        + by rewrite length_insert, length_replicate.
        + intros i t. rewrite list_lookup_insert.
          case_decide; [intros ?; simplify_eq; lia|].
          intros Hr. apply lookup_replicate in Hr as [-> _]. lia.
        + simpl. lia.
      - intros pre x post t1 t2 El Hp Hstep.
        rewrite length_app. simpl. rewrite Nat.add_1_r.
        apply seq_split_length in El. subst x.
        by eapply lattice_times_state_ok. }
    by rewrite length_seq in G. }
  split; [done|]. split; [by eapply max_element_ge|].
  destruct Hok as (Hlen & _ & _).
  assert (H0 : times !! 0%nat = Some 0%Z ∨ True) by (by right).
  clear H0.
  assert (Ht0 : ∃ t0, times !! 0%nat = Some t0 ∧ (0 ≤ t0)%Z).
  { rewrite length_replicate in H.
    assert (G : ∃ t0, times !! 0%nat = Some t0 ∧ (0 ≤ t0)%Z).
    { eapply (foldM_inv (fun _ t => ∃ t0, t !! 0%nat = Some t0 ∧ (0 ≤ t0)%Z));
        [| |exact E1].
      - exists 0%Z. split; [|lia].
        by rewrite list_lookup_insert_eq by (by rewrite length_replicate).
      - intros pre x post t1 t2 El (t0 & Ht0 & Hge0) Hstep.
        unfold lattice_times_state in Hstep. inv_ok.
        eapply (foldM_inv (fun _ t => ∃ t0, t !! 0%nat = Some t0 ∧ (0 ≤ t0)%Z));
          [| |exact Hstep]; [by exists t0|].
        intros pre' a post' t3 t4 _ (t0' & Ht0' & Hge0') Hstep'.
        apply lattice_times_arc_cases in Hstep' as [[-> _]|[Hold ->]];
          [by exists t0'|].
        exists t0'. split; [|done]. rewrite list_lookup_insert_ne; [done|].
        intros E'. rewrite E' in Hold. simplify_eq. lia. }
    done. }
  destruct Ht0 as (t0 & Ht0 & Hge0).
  pose proof (max_element_ge _ _ Hl _ _ Ht0).
  rewrite length_replicate in H. split; [lia|done].
Qed.

(* ================================================================== *)
(** ** Rescoring *)

Lemma time_to_state_buckets (utt_len : Z) (times : list Z) (n : nat) :
  length times = n →
  (∀ i t, times !! i = Some t → (t ≤ utt_len)%Z) →
  ∃ tts,
    foldM (time_to_state_step utt_len times) (replicate (Z.to_nat utt_len) [])
          (seq 0 n) = Ok tts
    ∧ length tts = Z.to_nat utt_len
    ∧ ∀ t, (t < Z.to_nat utt_len)%nat →
           tts !! t = Some (states_at_time times n (Z.of_nat t)).
Proof.
  intros Hlen Hle.
  pose (P := fun (pre : list nat) (tts : list (list nat)) =>
    length tts = Z.to_nat utt_len
    ∧ ∀ t, (t < Z.to_nat utt_len)%nat →
           tts !! t = Some (filter (fun s => times !! s = Some (Z.of_nat t)) pre)).
  destruct (foldM_total P (time_to_state_step utt_len times) (seq 0 n)
              (replicate (Z.to_nat utt_len) [])) as (tts & Hf & Hl & Hb).
  - split; [by rewrite length_replicate|]. intros t Ht.
    by rewrite lookup_replicate_2.
  - intros pre x post tts El [Hl Hb].
    pose proof (seq_split_lt _ _ _ _ El) as Hx.
    destruct (lookup_lt_is_Some_2 times x) as [t Ht]; [lia|].
    unfold time_to_state_step, vget. rewrite Ht. simpl.
    pose proof (Hle _ _ Ht) as Hle'.
    assert ((t <=? utt_len)%Z = true) as -> by lia. simpl.
    destruct ((0 <=? t)%Z && (t <? utt_len)%Z) eqn:Hin.
    + apply andb_true_iff in Hin as [H0 H1].
      apply Z.leb_le in H0. apply Z.ltb_lt in H1.
      unfold vupdZ. assert ((t <? 0)%Z = false) as -> by lia.
      destruct (lookup_lt_is_Some_2 tts (Z.to_nat t)) as [b Hbk]; [lia|].
      unfold vget. rewrite Hbk. simpl. unfold vset.
      rewrite decide_True by lia. eexists. split; [done|].
      split; [by rewrite length_insert|].
      intros t' Ht'. rewrite filter_app, list_lookup_insert.
      case_decide as Hc.
      * destruct Hc as [<- _]. rewrite Z2Nat.id by lia.
        rewrite Hb in Hbk by lia. rewrite Z2Nat.id in Hbk by lia.
        simplify_eq. f_equal. f_equal.
        rewrite filter_cons_True by done. done.
      * rewrite Hb by done. rewrite filter_cons_False, filter_nil, app_nil_r; [done|].
        rewrite Ht. intros ?. simplify_eq. apply Hc. split; lia.
    + eexists. split; [done|]. split; [done|].
      intros t' Ht'. rewrite filter_app, Hb by done.
      rewrite filter_cons_False, filter_nil, app_nil_r; [done|].
      rewrite Ht. intros ?. simplify_eq.
      apply andb_false_iff in Hin as [Hin|Hin]; lia.
  - exists tts. split; [done|]. split; [done|]. exact Hb.
Qed.

Lemma rescore_state_as_SetArcs (decodable : DecodableInterface) (t : Z)
  (lat : Lattice) (l : list nat) :
  foldl (rescore_state decodable t) lat l
  = foldl (fun f s => SetArcs f s ((fun _ a => rescore_arc decodable t <$> a) s (Arcs f s)))
          lat l.
Proof. done. Qed.

Lemma rescore_frames_all (decodable : DecodableInterface) (utt_len : Z)
  (tts : list (list nat)) (times : list Z) (n : nat) (lat : Lattice) (k : nat) :
  length tts = Z.to_nat utt_len →
  (∀ t, (t < Z.to_nat utt_len)%nat →
        tts !! t = Some (states_at_time times n (Z.of_nat t))) →
  (∀ t, (0 ≤ t < utt_len - 1)%Z → IsLastFrame decodable t = false) →
  NumStates lat = n →
  (k ≤ Z.to_nat utt_len)%nat →
  ∀ j, (j ≤ k)%nat →
  rescore_frames decodable utt_len tts (seqZ (Z.of_nat j) (Z.of_nat (k - j)))
    (mkFst (Start lat) (rescored_below decodable times (Z.of_nat j) (states lat)))
  = Ok (true, mkFst (Start lat)
                    (rescored_below decodable times (Z.of_nat k) (states lat))).
Proof.
  intros Hl Hb Hlast Hn Hk j Hj.
  remember (k - j)%nat as m eqn:Hm. revert j Hj Hm.
  induction m as [|m IH]; intros j Hj Hm.
  - simpl. assert (j = k) as -> by lia. done.
  - rewrite Nat2Z.inj_succ, seqZ_cons by lia. simpl.
    assert (Hnl : (Z.of_nat j <? utt_len - 1)%Z && IsLastFrame decodable (Z.of_nat j)
                  = false).
    { destruct (Z.of_nat j <? utt_len - 1)%Z eqn:Hlt; [|done]. simpl.
      apply Hlast. lia. }
    rewrite Hnl. unfold vget. rewrite Nat2Z.id, Hb by lia. simpl.
    rewrite Z.pred_succ.
    replace (Z.succ (Z.of_nat j)) with (Z.of_nat (S j)) by lia.
    rewrite <- (IH (S j)) by lia. f_equal.
    rewrite rescore_state_as_SetArcs.
    rewrite (foldl_SetArcs_in (fun _ a => rescore_arc decodable (Z.of_nat j) <$> a))
      by (apply NoDup_filter, NoDup_seq).
    simpl. f_equal. unfold map_arcs_in, rescored_below.
    apply list_eq. intros s. rewrite !list_lookup_imap.
    destruct (states lat !! s) as [d|] eqn:Hd; simpl; [|done]. f_equal.
    assert (Hs : (s < n)%nat) by (rewrite <- Hn; by eapply lookup_lt_Some).
    unfold states_at_time.
    destruct (times !! s) as [t|] eqn:Ht.
    + destruct (decide (t = Z.of_nat j)) as [->|Hne].
      * rewrite bool_decide_true.
        2:{ apply list_elem_of_filter. split; [done|]. apply elem_of_seq. lia. }
        rewrite (bool_decide_false (0 ≤ Z.of_nat j < Z.of_nat j)%Z) by lia.
        by rewrite bool_decide_true by lia.
      * rewrite bool_decide_false.
        2:{ intros Hin. apply list_elem_of_filter in Hin as [Hin _]. congruence. }
        destruct (decide (0 ≤ t < Z.of_nat j)%Z).
        -- by rewrite !bool_decide_true by lia.
        -- by rewrite !bool_decide_false by lia.
    + rewrite bool_decide_false; [done|].
      intros Hin. apply list_elem_of_filter in Hin as [Hin _]. congruence.
Qed.

Lemma rescored_below_0 (decodable : DecodableInterface) (times : list Z)
  (sts : list (StateData LatticeWeight)) :
  rescored_below decodable times 0 sts = sts.
Proof.
  unfold rescored_below. apply list_eq. intros s. rewrite list_lookup_imap.
  destruct (sts !! s); simpl; [|done]. destruct (times !! s); [|done].
  by rewrite bool_decide_false by lia.
Qed.

Lemma rescore_arc_frame (decodable : DecodableInterface) (t : Z) (a : LatticeArc) :
  ilabel (rescore_arc decodable t a) = ilabel a
  ∧ olabel (rescore_arc decodable t a) = olabel a
  ∧ nextstate (rescore_arc decodable t a) = nextstate a
  ∧ Value1 (weight (rescore_arc decodable t a)) = Value1 (weight a)
  ∧ Value2 (weight (rescore_arc decodable t a))
    = (if bool_decide (ilabel a ≠ 0%Z)
       then Value2 (weight a) - LogLikelihood decodable t (ilabel a)
       else Value2 (weight a))%X
  ∧ (ilabel a = 0%Z → rescore_arc decodable t a = a).
Proof.
  unfold rescore_arc. destruct a as [il ol w nx]; simpl.
  case_bool_decide as Hil; simpl.
  - repeat split; try done. unfold xsub. apply xadd_comm.
  - repeat split; done.
Qed.

Section RescoreProperties.
Variable TopSort : ∀ W : Type, VectorFst W → option (VectorFst W).

(** C8.  On a sorted lattice whose state times [LatticeStateTimes] computes
    (utterance length [utt_len]) and whose oracle does not end before frame
    [utt_len - 1], [RescoreLattice] returns [true].  The start state, the
    states, the final weights and the number and order of the arcs are
    unchanged; so are the labels, the next state and the first weight
    component of every arc, and the whole of every arc with [ilabel = 0].
    For an arc with [ilabel != 0] that leaves a state of time [t >= 0] the
    second component [w2] becomes [w2 - log_likelihood(t, ilabel)]; the
    arcs of a state that was given no time (time [-1]) are unchanged. *)
Theorem rescore_lattice_frame (decodable : DecodableInterface) (lat : Lattice)
  (utt_len : Z) (times : list Z) :
  LatticeStateTimes lat = Ok (utt_len, times) →
  (∀ t, (0 ≤ t < utt_len - 1)%Z → IsLastFrame decodable t = false) →
  ∃ lat',
    RescoreLattice TopSort decodable lat = Ok (true, lat')
    ∧ Start lat' = Start lat
    ∧ NumStates lat' = NumStates lat
    ∧ ∀ s, Final lat' s = Final lat s
         ∧ NumArcs lat' s = NumArcs lat s
         ∧ ∀ i a, Arcs lat s !! i = Some a →
             ∃ a' t, Arcs lat' s !! i = Some a' ∧ times !! s = Some t
               ∧ ilabel a' = ilabel a ∧ olabel a' = olabel a
               ∧ nextstate a' = nextstate a
               ∧ Value1 (weight a') = Value1 (weight a)
               ∧ Value2 (weight a')
                 = (if bool_decide (ilabel a ≠ 0%Z ∧ (0 ≤ t)%Z)
                    then Value2 (weight a) - LogLikelihood decodable t (ilabel a)
                    else Value2 (weight a))%X
               ∧ (ilabel a = 0%Z → a' = a).
Proof.
  intros Ht Hlast.
  destruct (lattice_state_times_ok lat utt_len times Ht)
    as (Hts & Hstart & (Hlen & Hge & Harc) & Hmax & Hpos & Hn0).
  destruct (time_to_state_buckets utt_len times (NumStates lat) Hlen Hmax)
    as (tts & Hf & Hl & Hb).
  exists (mkFst (Start lat) (rescored_below decodable times utt_len (states lat))).
  split.
  - unfold RescoreLattice. rewrite bool_decide_false.
    2:{ lia. }
    rewrite Hts, Ht. simpl. rewrite bool_decide_true by done. simpl.
    rewrite Hf. simpl.
    pose proof (rescore_frames_all decodable utt_len tts times (NumStates lat) lat
                  (Z.to_nat utt_len) Hl Hb Hlast eq_refl (Nat.le_refl _) 0%nat
                  (Nat.le_0_l _)) as Hr.
    rewrite Nat.sub_0_r, Z2Nat.id in Hr by done. simpl in Hr.
    rewrite rescored_below_0 in Hr. by destruct lat.
  - simpl. split; [done|]. split.
    { unfold NumStates, rescored_below. simpl. by rewrite length_imap. }
    intros s. unfold Final, NumArcs, Arcs, rescored_below. simpl.
    rewrite list_lookup_imap.
    destruct (states lat !! s) as [d|] eqn:Hd; simpl.
    2:{ repeat split; try done; intros i a Hi; by rewrite lookup_nil in Hi. }
    assert (Hs : (s < length times)%nat).
    { rewrite Hlen. by eapply lookup_lt_Some. }
    destruct (lookup_lt_is_Some_2 times s Hs) as [t Hst]. rewrite Hst.
    pose proof (Hge _ _ Hst) as Hge1. pose proof (Hmax _ _ Hst) as Hle1.
    case_bool_decide as Hin; simpl.
    + split; [done|]. split; [by rewrite length_fmap|].
      intros i a Hi. exists (rescore_arc decodable t a), t.
      rewrite list_lookup_fmap, Hi. simpl. split; [done|]. split; [done|].
      destruct (rescore_arc_frame decodable t a) as (? & ? & ? & ? & Hv2 & ?).
      repeat split; try done. rewrite Hv2.
      destruct (decide (ilabel a = 0%Z)).
      * rewrite (bool_decide_false (ilabel a ≠ 0%Z)) by tauto.
        by rewrite bool_decide_false by tauto.
      * rewrite (bool_decide_true (ilabel a ≠ 0%Z)) by done.
        by rewrite bool_decide_true by (split; [done|lia]).
    + split; [done|]. split; [done|].
      intros i a Hi. exists a, t. repeat split; try done.
      rewrite bool_decide_false; [done|]. intros [Hil H0].
      assert (Ha : a ∈ Arcs lat s).
      { unfold Arcs. rewrite Hd. by eapply list_elem_of_lookup_2. }
      assert (Hsn : (s < NumStates lat)%nat) by (by eapply lookup_lt_Some).
      destruct (Harc s a Hsn Ha Hil) as (ts & Hts1 & Hts2).
      simplify_eq. pose proof (Hmax _ _ Hts2). lia.
Qed.

End RescoreProperties.

Lemma rescore_lattice_frame_witness :
  ∃ lat',
    RescoreLattice Examples.TopSort_unused Examples.oracle Examples.two_paths
    = Ok (true, lat')
    ∧ Arcs lat' 0 !! 0%nat
      = Some (mkArc 1 1 (mkLatticeWeight (Fin 0.1) (Fin 0 - of_Z (- (0 + 1)))%X) 1%nat).
Proof.
  destruct (rescore_lattice_frame Examples.TopSort_unused Examples.oracle
              Examples.two_paths 2%Z [0; 1; 1; 2]%Z eq_refl (fun _ _ => eq_refl))
    as (lat' & Hr & _ & _ & Hs).
  exists lat'. split; [exact Hr|].
  destruct (Hs 0%nat) as (_ & _ & Ha).
  destruct (Ha 0%nat _ eq_refl)
    as (a' & t & Ha' & Ht & Hil & Hol & Hn & Hv1 & Hv2 & _).
  rewrite Ha'. f_equal. injection Ht as <-.
  destruct a' as [il ol [v1 v2] nx]. simpl in *. by subst.
Defined.

(* ================================================================== *)
(** ** Composition with a deterministic FST *)

(** C4 at an input where it fails.  The deterministic FST has no final
    state, so no label sequence is in its language; yet the path with label
    5 survives the composition: the composed final weight is
    [(+inf + 0, 0)], which differs from the zero weight [(+inf, +inf)], so
    the end state is made final and [Connect] keeps the path. *)
Theorem compose_keeps_path_rejected_by_det :
  ComposeCompactLatticeDeterministic 5 Examples.word_clat Examples.reject_all_det
  = Ok (mkFst (Some 0%nat)
          [ mkState Zero [mkArc 5 5 (Examples.clw (1 + 3) 0 [7%Z]) 1%nat];
            mkState (mkCompactLatticeWeight (mkLatticeWeight PInf (Fin 0)) []) [] ])
  ∧ (∀ q, det_Final Examples.reject_all_det q = PInf).
Proof. split; [reflexivity|done]. Qed.

(* ================================================================== *)
(** ** Paths and their costs *)

Lemma Qplus_0_l_L (x : Q) : (0 + x = x)%Q.
Proof. destruct x as [a b]. unfold Qplus; simpl. f_equal. lia. Qed.

Lemma xadd_0_l_L (a : xnum) : (of_Z 0 + a)%X = a.
Proof. destruct a; simpl; try done. by rewrite Qplus_0_l_L. Qed.

Lemma xadd_0_r_L (a : xnum) : (a + of_Z 0)%X = a.
Proof. by rewrite xadd_comm, xadd_0_l_L. Qed.

Lemma xle_add_PInf_r a : is_cost a → (a + PInf)%X = PInf.
Proof. by destruct a. Qed.

Lemma xle_add_PInf_l a : is_cost a → (PInf + a)%X = PInf.
Proof. by destruct a. Qed.

Section Paths.
Context {W : Type} `{Weight W}.
Implicit Types (f : VectorFst W) (p q : list (Arc W)) (a : Arc W).

Lemma path_app f s p u q t :
  path f s p u → path f u q t → path f s (p ++ q) t.
Proof. induction 1; simpl; [done|]. intros. constructor; auto. Qed.

Lemma path_snoc f s p u a :
  path f s p u → a ∈ Arcs f u → path f s (p ++ [a]) (nextstate a).
Proof.
  intros Hp Ha. eapply path_app; [done|]. constructor; [done|constructor].
Qed.

Lemma path_app_inv f s p q t :
  path f s (p ++ q) t → ∃ u, path f s p u ∧ path f u q t.
Proof.
  revert s. induction p as [|a p IH]; intros s Hp; simpl in Hp.
  - exists s. split; [constructor|done].
  - inversion Hp as [|? ? ? ? Ha Hp']; subst.
    destruct (IH _ Hp') as (u & Hu1 & Hu2).
    exists u. split; [by constructor|done].
Qed.

Lemma path_snoc_inv f s p a t :
  path f s (p ++ [a]) t → ∃ u, path f s p u ∧ a ∈ Arcs f u ∧ t = nextstate a.
Proof.
  intros Hp. apply path_app_inv in Hp as (u & Hu1 & Hu2).
  exists u. split; [done|].
  inversion Hu2 as [|? ? ? ? Ha Hp']; subst. by inversion Hp'; subst.
Qed.

Lemma path_cost_app p q : path_cost (p ++ q) = (path_cost p + path_cost q)%X.
Proof.
  induction p as [|a p IH].
  - symmetry. apply xadd_0_l_L.
  - simpl. by rewrite IH, xadd_assoc.
Qed.

Lemma path_cost_snoc p a : path_cost (p ++ [a]) = (path_cost p + arc_cost a)%X.
Proof.
  rewrite path_cost_app. f_equal. apply xadd_0_r_L.
Qed.

Lemma path_cost_is_cost f s p t :
  costs_ok f → path f s p t → is_cost (path_cost p).
Proof.
  intros Hc. induction 1; simpl; [done|].
  apply xadd_is_cost; [|done]. by apply (Hc s).
Qed.

Lemma path_sorted f s p t :
  top_sorted f = true → path f s p t → (s + length p ≤ t)%nat.
Proof.
  intros Hts. induction 1; simpl; [lia|].
  pose proof (top_sorted_arcs f s a Hts H0). lia.
Qed.

Lemma path_in_range f s p t :
  arcs_in_range f → path f s p t → (s < NumStates f)%nat → (t < NumStates f)%nat.
Proof. intros Hr. induction 1; [done|]. intros _. apply IHpath. by eapply Hr. Qed.

Lemma Arcs_in_range f s a : a ∈ Arcs f s → (s < NumStates f)%nat.
Proof.
  unfold Arcs. destruct (states f !! s) eqn:E; [|by intros ?%elem_of_nil].
  intros _. by eapply lookup_lt_Some.
Qed.

Lemma reach_path k f s t :
  reach k f s t = true → ∃ p, (length p ≤ k)%nat ∧ path f s p t.
Proof.
  revert s. induction k as [|k IH]; intros s; simpl.
  - rewrite orb_false_r. intros ->%bool_decide_eq_true.
    exists []. split; [done|constructor].
  - intros [->%bool_decide_eq_true|Hex]%orb_true_iff.
    + exists []. split; [simpl; lia|constructor].
    + apply existsb_exists in Hex as (a & Ha & Hr).
      destruct (IH _ Hr) as (p & Hl & Hp). exists (a :: p).
      split; [simpl; lia|]. constructor; [by apply list_elem_of_In|done].
Qed.

Lemma path_reach k f s p t :
  path f s p t → (length p ≤ k)%nat → reach k f s t = true.
Proof.
  intros Hp. revert k. induction Hp as [s|s a p t Ha Hp IH]; intros k Hk.
  - destruct k; simpl; by rewrite bool_decide_true.
  - destruct k as [|k]; simpl in *; [lia|]. apply orb_true_iff. right.
    apply existsb_exists. exists a. split; [by apply list_elem_of_In|].
    apply IH. lia.
Qed.

End Paths.

(* ================================================================== *)
(** ** The weight types *)

#[global] Instance LatticeWeight_laws : WeightLaws LatticeWeight.
Proof.
  split; [done|done|].
  intros [v1 v2]. simpl. intros [H1 H2]%andb_true_iff.
  destruct v1, v2; simpl in *; done.
Qed.

#[global] Instance CompactLatticeWeight_laws : WeightLaws CompactLatticeWeight.
Proof.
  split; [done|done|].
  intros [[v1 v2] str]. simpl. intros [[H1 H2]%andb_true_iff _]%andb_true_iff.
  destruct v1, v2; simpl in *; done.
Qed.

Lemma LatticeWeight_Member_cost (w : LatticeWeight) :
  LatticeWeight_Member w → is_cost (ConvertToCost w).
Proof.
  intros [[H1 H2]| ->]; [|done]. destruct w as [[] []]; simpl in *; done.
Qed.

(* ================================================================== *)
(** ** [Connect] *)

Lemma filter_seq_increasing (P : nat → Prop) `{∀ x, Decision (P x)} (a n : nat) :
  ∀ i j s t, filter P (seq a n) !! i = Some s → filter P (seq a n) !! j = Some t →
             (i < j)%nat → (s < t)%nat.
Proof.
  revert a. induction n as [|n IH]; intros a i j s t Hi Hj Hij; simpl in *.
  - by rewrite filter_nil, lookup_nil in Hi.
  - assert (Hge : ∀ k u, filter P (seq (S a) n) !! k = Some u → (a < u)%nat).
    { intros k u Hk. apply list_elem_of_lookup_2, list_elem_of_filter in Hk as [_ Hk].
      apply elem_of_seq in Hk. lia. }
    destruct (decide (P a)).
    + rewrite filter_cons_True in Hi, Hj by done.
      destruct i as [|i], j as [|j]; simpl in *; try lia.
      * simplify_eq. by eapply Hge.
      * eapply IH; [done|done|lia].
    + rewrite filter_cons_False in Hi, Hj by done. by eapply IH.
Qed.

Lemma index_of_lookup (s : nat) (l : list nat) (j : nat) :
  index_of s l = Some j → l !! j = Some s.
Proof.
  revert j. induction l as [|x l IH]; intros j; simpl; [done|].
  case_decide as Hx.
  - intros ?. by simplify_eq.
  - destruct (index_of s l) as [k|]; simpl; [|done].
    intros ?. simplify_eq. simpl. by apply IH.
Qed.

Lemma lookup_index_of (s : nat) (l : list nat) (j : nat) :
  NoDup l → l !! j = Some s → index_of s l = Some j.
Proof.
  intros Hnd. revert j. induction Hnd as [|x l Hx Hnd IH]; intros j; simpl; [done|].
  destruct j as [|j]; simpl.
  - intros ?. simplify_eq. by rewrite decide_True.
  - intros Hj. rewrite decide_False.
    + by rewrite (IH j Hj).
    + intros ->. apply Hx. by eapply list_elem_of_lookup_2.
Qed.

Section ConnectFacts.
Context {W : Type} `{WeightLaws W}.
Implicit Types (f : VectorFst W) (a : Arc W).

Lemma connect_keep_NoDup f : NoDup (connect_keep f).
Proof. apply NoDup_filter, NoDup_seq. Qed.

Lemma connect_keep_increasing f i j s t :
  connect_keep f !! i = Some s → connect_keep f !! j = Some t →
  (i < j)%nat → (s < t)%nat.
Proof. apply filter_seq_increasing. Qed.

Lemma elem_of_connect_keep f s :
  s ∈ connect_keep f ↔
  (s < NumStates f)%nat ∧ accessible f s = true ∧ coaccessible f s = true.
Proof.
  unfold connect_keep. rewrite list_elem_of_filter, elem_of_seq, andb_true_iff.
  split; [intros [[? ?] ?]|intros (? & ? & ?)]; repeat split; try done; lia.
Qed.

Lemma is_final_in_range f t : is_final f t = true → (t < NumStates f)%nat.
Proof.
  unfold is_final, Final, weight_neb.
  destruct (states f !! t) eqn:E; [intros _; by eapply lookup_lt_Some|].
  by rewrite weight_eqb_Zero.
Qed.

Lemma final_cost_is_final f t :
  final_cost f t ≠ PInf → is_final f t = true.
Proof.
  unfold final_cost, is_final, weight_neb. intros Hc.
  destruct (weight_eqb (Final f t) Zero) eqn:E; [|done].
  by apply weight_eqb_Zero_cost in E.
Qed.

Lemma Connect_lookup f j s :
  connect_keep f !! j = Some s →
  states (Connect f) !! j = Some (renumber_state f (connect_keep f) s).
Proof. intros Hj. unfold Connect. simpl. by rewrite list_lookup_fmap, Hj. Qed.

Lemma Connect_NumStates f : NumStates (Connect f) = length (connect_keep f).
Proof. unfold NumStates, Connect. simpl. by rewrite length_fmap. Qed.

Lemma Connect_Final f j s :
  connect_keep f !! j = Some s → Final (Connect f) j = Final f s.
Proof. intros Hj. unfold Final at 1. by rewrite (Connect_lookup f j s). Qed.

Lemma Connect_Arcs f j s :
  connect_keep f !! j = Some s →
  Arcs (Connect f) j = omap (renumber_arc (connect_keep f)) (Arcs f s).
Proof. intros Hj. unfold Arcs at 1. by rewrite (Connect_lookup f j s). Qed.

Lemma Connect_state_old f j :
  (j < NumStates (Connect f))%nat → ∃ s, connect_keep f !! j = Some s.
Proof. rewrite Connect_NumStates. apply lookup_lt_is_Some_2. Qed.

Lemma renumber_arc_Some f a a' :
  renumber_arc (connect_keep f) a = Some a' ↔ renumbered (connect_keep f) a a'.
Proof.
  unfold renumber_arc, renumbered. split.
  - destruct (index_of (nextstate a) (connect_keep f)) as [t|] eqn:E; simpl; [|done].
    intros ?. simplify_eq. simpl. repeat split; try done. by apply index_of_lookup.
  - intros (Hi & Ho & Hw & Hn).
    rewrite (lookup_index_of _ _ _ (connect_keep_NoDup f) Hn). simpl.
    destruct a'; simpl in *. by subst.
Qed.

(** An arc of the connected lattice comes from an arc of the lattice. *)
Lemma Connect_arc_inv f j s a' :
  connect_keep f !! j = Some s → a' ∈ Arcs (Connect f) j →
  ∃ a, a ∈ Arcs f s ∧ renumbered (connect_keep f) a a'.
Proof.
  intros Hj. rewrite (Connect_Arcs f j s Hj). intros Ha.
  apply list_elem_of_omap in Ha as (a & Ha & Hr). exists a.
  split; [done|]. by apply renumber_arc_Some.
Qed.

(** An arc between kept states is in the connected lattice. *)
Lemma Connect_arc_intro f j s a j' :
  connect_keep f !! j = Some s → a ∈ Arcs f s →
  connect_keep f !! j' = Some (nextstate a) →
  mkArc (ilabel a) (olabel a) (weight a) j' ∈ Arcs (Connect f) j.
Proof.
  intros Hj Ha Hj'. rewrite (Connect_Arcs f j s Hj).
  apply list_elem_of_omap. exists a. split; [done|].
  by apply renumber_arc_Some.
Qed.

Lemma Connect_top_sorted f : top_sorted f = true → top_sorted (Connect f) = true.
Proof.
  intros Hts. apply top_sorted_intro. intros j a' Ha'.
  pose proof (Arcs_in_range _ _ _ Ha') as Hj.
  destruct (Connect_state_old f j Hj) as [s Hs].
  destruct (Connect_arc_inv f j s a' Hs Ha') as (a & Ha & _ & _ & _ & Hn).
  pose proof (top_sorted_arcs f s a Hts Ha) as Hlt.
  destruct (Nat.lt_trichotomy j (nextstate a')) as [?|[E|Hgt]]; [done| |].
  - rewrite <- E in Hn. simplify_eq. lia.
  - pose proof (connect_keep_increasing f _ _ _ _ Hn Hs Hgt). lia.
Qed.

(** A path of the connected lattice comes from a path of the lattice. *)
Lemma Connect_path_inv f j p' j' s :
  path (Connect f) j p' j' → connect_keep f !! j = Some s →
  ∃ p t, connect_keep f !! j' = Some t ∧ path f s p t
         ∧ Forall2 (renumbered (connect_keep f)) p p'.
Proof.
  intros Hp. revert s. induction Hp as [j|j a' p' j' Ha' Hp IH]; intros s Hs.
  - exists [], s. split; [done|]. split; [constructor|constructor].
  - destruct (Connect_arc_inv f j s a' Hs Ha') as (a & Ha & Hr).
    destruct (IH (nextstate a)) as (p & t & Ht & Hp2 & Hf2); [apply Hr|].
    exists (a :: p), t. split; [done|]. split; [by constructor|by constructor].
Qed.

(** A path of the lattice through kept states is a path of the connected
    lattice. *)
Lemma Connect_path_intro f s p t j :
  path f s p t → connect_keep f !! j = Some s →
  (∀ p1 p2 u, p = p1 ++ p2 → path f s p1 u → u ∈ connect_keep f) →
  ∃ p' j', connect_keep f !! j' = Some t ∧ path (Connect f) j p' j'
           ∧ Forall2 (renumbered (connect_keep f)) p p'.
Proof.
  intros Hp. revert j. induction Hp as [s|s a p t Ha Hp IH]; intros j Hj Hk.
  - exists [], j. split; [done|]. split; constructor.
  - assert (Hn : nextstate a ∈ connect_keep f).
    { apply (Hk [a] p); [done|]. apply (path_snoc f s [] s a); [constructor|done]. }
    apply list_elem_of_lookup in Hn as [j1 Hj1].
    destruct (IH j1 Hj1) as (p' & j' & Hj' & Hp' & Hf').
    { intros p1 p2 u -> Hp1. apply (Hk (a :: p1) p2); [done|]. by constructor. }
    exists (mkArc (ilabel a) (olabel a) (weight a) j1 :: p'), j'.
    split; [done|]. split.
    + constructor; [by eapply Connect_arc_intro|done].
    + constructor; [|done]. by repeat split.
Qed.

(** In a sorted lattice the states of a path from the start state to a
    final state are kept. *)
Lemma successful_path_kept f s0 p u q t :
  top_sorted f = true → Start f = Some s0 →
  path f s0 p u → path f u q t → is_final f t = true →
  u ∈ connect_keep f.
Proof.
  intros Hts Hs0 Hp Hq Hfin.
  pose proof (is_final_in_range f t Hfin) as Ht.
  pose proof (path_sorted f _ _ _ Hts Hp) as Hl1.
  pose proof (path_sorted f _ _ _ Hts Hq) as Hl2.
  apply elem_of_connect_keep. split; [lia|]. split.
  - unfold accessible. rewrite Hs0. eapply path_reach; [done|lia].
  - unfold coaccessible. apply existsb_exists. exists t.
    split; [apply list_elem_of_In, elem_of_seq; lia|].
    rewrite Hfin. simpl. eapply path_reach; [done|lia].
Qed.

(** A kept state lies on a path from the start state to a final state. *)
Lemma kept_on_successful_path f u :
  u ∈ connect_keep f →
  ∃ s0 p q t, Start f = Some s0 ∧ path f s0 p u ∧ path f u q t
              ∧ is_final f t = true.
Proof.
  intros (Hu & Hacc & Hco)%elem_of_connect_keep.
  unfold accessible in Hacc. destruct (Start f) as [s0|] eqn:Hs0; [|done].
  apply reach_path in Hacc as (p & _ & Hp).
  unfold coaccessible in Hco. apply existsb_exists in Hco as (t & _ & Hco).
  apply andb_true_iff in Hco as [Hfin Hr].
  apply reach_path in Hr as (q & _ & Hq). by exists s0, p, q, t.
Qed.

End ConnectFacts.

(* ================================================================== *)
(** ** Beam pruning: the forward pass *)

Lemma xltb_le_trans a b c : xltb a b = true → (b <= c)%X → (a <= c)%X.
Proof. xnum_solve. Qed.

Lemma xle_add_r_mono a b c :
  is_cost a → is_cost c → (a <= b)%X → (a + c <= b + c)%X.
Proof. xnum_solve. Qed.

Lemma xle_add_l_mono a b c :
  is_cost a → is_cost c → (a <= b)%X → (c + a <= c + b)%X.
Proof. xnum_solve. Qed.

Lemma xle_cost_r a b : (a <= b)%X → is_cost a → is_cost b.
Proof. xnum_solve. Qed.

Section PruneForward.
Context {W : Type} `{WeightLaws W}.
Variable f : VectorFst W.
Variable s0 : nat.
Hypothesis Hsorted : top_sorted f = true.
Hypothesis Hrange : arcs_in_range f.
Hypothesis Hcosts : costs_ok f.
Hypothesis Hstart : Start f = Some s0.
Hypothesis Hs0 : (s0 < NumStates f)%nat.

Lemma prune_forward_arc_eq (k : nat) (this : xnum) (fc : list xnum) (x : Arc W)
  (fn : xnum) :
  x ∈ Arcs f k → fc !! nextstate x = Some fn →
  prune_forward_arc (NumStates f) k this fc x
  = Ok (if xgtb fn (this + arc_cost x)%X
        then <[nextstate x := (this + arc_cost x)%X]> fc else fc).
Proof.
  intros Hx Hfn. unfold prune_forward_arc.
  pose proof (top_sorted_arcs f k x Hsorted Hx) as Hlt.
  pose proof (Hrange k x Hx) as Hn.
  assert ((k <? nextstate x)%nat && (nextstate x <? NumStates f)%nat = true) as ->.
  { apply andb_true_iff. split; by apply Nat.ltb_lt. }
  simpl. unfold vget. rewrite Hfn. simpl. fold (arc_cost x).
  destruct (xgtb fn (this + arc_cost x)%X); [|done].
  unfold vset. rewrite decide_True; [done|]. by eapply lookup_lt_Some.
Qed.

(** The arcs of state [k]: the invariant with the arcs passed so far
    relaxed against [this], the forward cost of [k]. *)
Lemma prune_forward_arcs_step (k : nat) (this : xnum) (fc : list xnum) :
  forward_inv f s0 k fc → fc !! k = Some this →
  ∃ fc', foldM (prune_forward_arc (NumStates f) k this) fc (Arcs f k) = Ok fc'
         ∧ forward_inv f s0 (S k) fc'
         ∧ (∀ s, (s ≤ k)%nat → fc' !! s = fc !! s).
Proof.
  intros (Hlen & Hcost & Hzero & Hrel & Hatt) Hk.
  pose (P := fun (pre : list (Arc W)) (fc' : list xnum) =>
    forward_inv f s0 k fc'
    ∧ (∀ s, (s ≤ k)%nat → fc' !! s = fc !! s)
    ∧ (∀ a vn, a ∈ pre → fc' !! nextstate a = Some vn → (vn <= this + arc_cost a)%X)).
  destruct (foldM_total P (prune_forward_arc (NumStates f) k this) (Arcs f k) fc)
    as (fc' & Hf & (Hinv & Hsame & Hpre)).
  - split; [done|]. split; [done|]. intros a vn Ha. by apply elem_of_nil in Ha.
  - intros pre x post fc1 El ((Hl1 & Hc1 & Hz1 & Hr1 & Ha1) & Hs1 & Hp1).
    assert (Hx : x ∈ Arcs f k).
    { rewrite El. apply elem_of_app. right. apply list_elem_of_here. }
    pose proof (top_sorted_arcs f k x Hsorted Hx) as Hlt.
    pose proof (Hrange k x Hx) as Hn.
    destruct (lookup_lt_is_Some_2 fc1 (nextstate x)) as [fn Hfn]; [lia|].
    rewrite (prune_forward_arc_eq k this fc1 x fn Hx Hfn). eexists. split; [done|].
    assert (Hck : is_cost this) by (by eapply Hcost).
    assert (Hcx : is_cost (arc_cost x)) by (by apply (Hcosts k)).
    assert (Hcn : is_cost (this + arc_cost x)%X) by (by apply xadd_is_cost).
    assert (Hcf : is_cost fn) by (by eapply Hc1).
    destruct (xgtb fn (this + arc_cost x)%X) eqn:Hgt.
    + unfold xgtb in Hgt.
      assert (Hle : ∀ c, (fn <= c)%X → (this + arc_cost x <= c)%X).
      { intros c. by apply xltb_le_trans. }
      split; [|split].
      * split; [by rewrite length_insert|]. split; [|split; [|split]].
        -- intros i v. rewrite list_lookup_insert. case_decide; [|by apply Hc1].
           intros ?. by simplify_eq.
        -- intros v. rewrite list_lookup_insert. case_decide as Hc; [|by apply Hz1].
           intros ?. simplify_eq. destruct Hc as [Hc _]. rewrite <- Hc in *.
           apply Hle. by apply Hz1.
        -- intros s a vs vn Hs Ha. rewrite list_lookup_insert_ne by lia.
           intros Hvs. rewrite list_lookup_insert. case_decide as Hc.
           ++ intros ?. simplify_eq. destruct Hc as [Hc _].
              apply Hle. eapply Hr1; [done|done|done|]. by rewrite <- Hc.
           ++ by eapply Hr1.
        -- intros i v. rewrite list_lookup_insert. case_decide as Hc; [|by apply Ha1].
           intros ?. simplify_eq. destruct Hc as [<- _].
           destruct (Hatt k this Hk) as [->|(p & Hp & ->)].
           ++ left. by apply xle_add_PInf_l.
           ++ right. exists (p ++ [x]). split; [by eapply path_snoc|].
              by rewrite path_cost_snoc.
      * intros s Hs. rewrite list_lookup_insert_ne by lia. by apply Hs1.
      * intros a vn Ha. rewrite list_lookup_insert. case_decide as Hc.
        -- intros ?. simplify_eq. destruct Hc as [Hc _].
           apply elem_of_app in Ha as [Ha|Ha].
           ++ apply Hle. apply Hp1; [done|]. by rewrite <- Hc.
           ++ apply list_elem_of_singleton in Ha. subst a. by apply xle_refl.
        -- intros Hvn. apply elem_of_app in Ha as [Ha|Ha]; [by apply Hp1|].
           apply list_elem_of_singleton in Ha. subst a.
           exfalso. apply Hc. split; [done|lia].
    + split; [done|]. split; [done|].
      intros a vn Ha Hvn. apply elem_of_app in Ha as [Ha|Ha]; [by apply Hp1|].
      apply list_elem_of_singleton in Ha. subst a.
      rewrite Hfn in Hvn. simplify_eq. by apply xltb_false_le.
  - exists fc'. split; [done|]. split; [|done].
    destruct Hinv as (Hl' & Hc' & Hz' & Hr' & Ha'). repeat split; try done.
    intros s a vs vn Hs Ha Hvs Hvn. destruct (decide (s = k)) as [->|Hne].
    + rewrite Hsame, Hk in Hvs by done. simplify_eq. by apply Hpre.
    + eapply Hr'; [|done..]. lia.
Qed.

Lemma prune_forward_state_step (k : nat) (fc : list xnum) (bfc : xnum) :
  (k < NumStates f)%nat →
  forward_inv f s0 k fc → best_final_inv f s0 k fc bfc →
  ∃ fc' bfc', prune_forward_state f (NumStates f) (fc, bfc) k = Ok (fc', bfc')
              ∧ forward_inv f s0 (S k) fc' ∧ best_final_inv f s0 (S k) fc' bfc'.
Proof.
  intros Hk Hinv (Hbc & Hbl & Hba).
  pose proof Hinv as (Hlen & Hcost & Hzero & Hrel & Hatt).
  destruct (lookup_lt_is_Some_2 fc k) as [this Hthis]; [lia|].
  destruct (prune_forward_arcs_step k this fc Hinv Hthis) as (fc' & Hf & Hinv' & Hsame).
  unfold prune_forward_state, vget. rewrite Hthis. simpl. rewrite Hf. simpl.
  eexists _, _. split; [done|]. split; [done|].
  fold (final_cost f k).
  assert (Hct : is_cost this) by (by eapply Hcost).
  assert (Hcf : is_cost (final_cost f k)) by apply (Hcosts k).
  assert (Hctf : is_cost (this + final_cost f k)%X) by (by apply xadd_is_cost).
  destruct (xltb (this + final_cost f k)%X bfc) eqn:Hlt.
  - split; [done|]. split.
    + intros s v Hs. rewrite Hsame by lia. intros Hv.
      destruct (decide (s = k)) as [->|Hne].
      * rewrite Hthis in Hv. simplify_eq. by apply xle_refl.
      * eapply xltb_le_trans; [done|]. apply Hbl; [lia|done].
    + destruct (Hatt k this Hthis) as [->|(p & Hp & ->)].
      * left. by apply xle_add_PInf_l.
      * right. by exists p, k.
  - split; [done|]. split; [|done].
    intros s v Hs. rewrite Hsame by lia. intros Hv.
    destruct (decide (s = k)) as [->|Hne].
    + rewrite Hthis in Hv. simplify_eq. by apply xltb_false_le.
    + apply Hbl; [lia|done].
Qed.

Lemma forward_inv_bound (fc : list xnum) :
  forward_inv f s0 (NumStates f) fc →
  ∀ p s v, path f s0 p s → fc !! s = Some v → (v <= path_cost p)%X.
Proof.
  intros (Hlen & Hcost & Hzero & Hrel & Hatt).
  induction p as [|a p IH] using rev_ind; intros s v Hp Hv.
  - inversion Hp; subst. by apply Hzero.
  - apply path_snoc_inv in Hp as (u & Hp & Ha & ->).
    pose proof (Arcs_in_range f u a Ha) as Hu.
    destruct (lookup_lt_is_Some_2 fc u) as [vu Hvu]; [lia|].
    rewrite path_cost_snoc.
    eapply xle_trans; [by eapply (Hrel u a vu v)|].
    apply xle_add_r_mono; [by eapply Hcost|by apply (Hcosts u)|by eapply IH].
Qed.

(** The forward pass returns the forward cost of every state and the best
    final cost. *)
Lemma prune_forward_spec :
  ∃ fc bfc, prune_forward f = Ok (fc, bfc)
    ∧ length fc = NumStates f
    ∧ (∀ s v, fc !! s = Some v → is_forward_cost f s v)
    ∧ is_best_final_cost f bfc.
Proof.
  unfold prune_forward. rewrite Hstart. unfold vset.
  rewrite decide_True by (by rewrite length_replicate). simpl.
  pose (P := fun (pre : list nat) (acc : list xnum * xnum) =>
    forward_inv f s0 (length pre) acc.1 ∧ best_final_inv f s0 (length pre) acc.1 acc.2).
  destruct (foldM_total P (prune_forward_state f (NumStates f)) (seq 0 (NumStates f))
              (<[s0 := of_Z 0]> (replicate (NumStates f) PInf), PInf))
    as ([fc bfc] & Hf & (Hinv & Hbest)).
  - split; simpl.
    + split; [by rewrite length_insert, length_replicate|]. split; [|split; [|split]].
      * intros i v. rewrite list_lookup_insert. case_decide; [intros ?; by simplify_eq|].
        by intros [-> _]%lookup_replicate.
      * intros v. rewrite list_lookup_insert_eq by (by rewrite length_replicate).
        intros ?. by simplify_eq.
      * intros s a vs vn Hs. lia.
      * intros i v. rewrite list_lookup_insert. case_decide as Hc.
        -- intros ?. simplify_eq. destruct Hc as [<- _]. right. exists [].
           split; [constructor|done].
        -- intros [-> _]%lookup_replicate. by left.
    + split; [done|]. split; [|by left]. intros s v Hs. lia.
  - intros pre x post [fc1 bfc1] El [Hi1 Hb1]. simpl in *.
    pose proof (seq_split_length _ _ _ _ El) as Hxe.
    pose proof (seq_split_lt _ _ _ _ El) as Hx. subst x.
    destruct (prune_forward_state_step (length pre) fc1 bfc1 Hx Hi1 Hb1)
      as (fc' & bfc' & Hstep & Hi' & Hb').
    exists (fc', bfc'). split; [exact Hstep|].
    unfold P. rewrite length_app. simpl. rewrite Nat.add_1_r. by split.
  - rewrite length_seq in Hinv, Hbest. simpl in *.
    exists fc, bfc. split; [done|].
    pose proof Hinv as (Hlen & Hcost & Hzero & Hrel & Hatt).
    split; [done|]. split.
    + intros s v Hv. split; [by eapply Hcost|]. split.
      * intros s0' p Hs0'. rewrite Hstart in Hs0'. injection Hs0' as <-.
        intros Hp. by eapply forward_inv_bound.
      * destruct (Hatt s v Hv) as [->|(p & Hp & ->)]; [by left|].
        right. by exists s0, p.
    + destruct Hbest as (Hbc & Hbl & Hba). split; [done|]. split.
      * intros s0' p t Hs0'. rewrite Hstart in Hs0'. injection Hs0' as <-.
        intros Hp Ht.
        destruct (lookup_lt_is_Some_2 fc t) as [v Hv]; [lia|].
        eapply xle_trans; [by eapply Hbl|].
        apply xle_add_r_mono; [by eapply Hcost|apply (Hcosts t)|].
        by eapply forward_inv_bound.
      * destruct Hba as [->|(p & t & Hp & ->)]; [by left|].
        right. by exists s0, p, t.
Qed.

End PruneForward.

(* ================================================================== *)
(** ** Beam pruning: the backward pass *)

Lemma xgtb_false_le a b : is_cost a → is_cost b → xgtb a b = false → (a <= b)%X.
Proof. xnum_solve. Qed.

Lemma xle_xgtb_false a b : (a <= b)%X → xgtb a b = false.
Proof. xnum_solve. Qed.

Section PruneBackward.
Context {W : Type} `{WeightLaws W}.
Variable f : VectorFst W.
Hypothesis Hsorted : top_sorted f = true.
Hypothesis Hrange : arcs_in_range f.
Hypothesis Hcosts : costs_ok f.

Lemma backward_relax_fold (bw : list xnum) (l : list (Arc W)) (b : xnum) :
  is_cost b →
  (∀ a, a ∈ l → is_cost (arc_cost a) ∧ is_cost (default PInf (bw !! nextstate a))) →
  let r := foldl (backward_relax bw) b l in
  is_cost r ∧ (r <= b)%X
  ∧ (∀ a, a ∈ l → (r <= arc_cost a + default PInf (bw !! nextstate a))%X)
  ∧ (r = b ∨ ∃ a, a ∈ l ∧ r = (arc_cost a + default PInf (bw !! nextstate a))%X).
Proof.
  revert b. induction l as [|x l IH]; intros b Hb Hl; simpl.
  - split; [done|]. split; [by apply xle_refl|]. split; [|by left].
    intros a Ha. by apply elem_of_nil in Ha.
  - destruct (Hl x) as [Hcx Hbx]; [apply list_elem_of_here|].
    assert (Hab : is_cost (arc_cost x + default PInf (bw !! nextstate x))%X)
      by (by apply xadd_is_cost).
    assert (Hl' : ∀ a, a ∈ l → is_cost (arc_cost a)
                               ∧ is_cost (default PInf (bw !! nextstate a))).
    { intros a Ha. apply Hl. by apply list_elem_of_further. }
    cbv zeta.
    destruct (xltb (arc_cost x + default PInf (bw !! nextstate x))%X b) eqn:Hlt.
    + assert (backward_relax bw b x
              = (arc_cost x + default PInf (bw !! nextstate x))%X) as ->
        by (unfold backward_relax; by rewrite Hlt).
      destruct (IH _ Hab Hl') as (Hr1 & Hr2 & Hr3 & Hr4).
      split; [done|]. split; [|split].
      * eapply xle_trans; [done|]. by apply xltb_true_le.
      * intros a [->|Ha]%elem_of_cons; [done|by apply Hr3].
      * right. destruct Hr4 as [Hr4|(a & Ha & Hr4)].
        -- exists x. split; [apply list_elem_of_here|done].
        -- exists a. split; [by apply list_elem_of_further|done].
    + assert (backward_relax bw b x = b) as ->
        by (unfold backward_relax; by rewrite Hlt).
      destruct (IH _ Hb Hl') as (Hr1 & Hr2 & Hr3 & Hr4).
      split; [done|]. split; [done|]. split.
      * intros a [->|Ha]%elem_of_cons; [|by apply Hr3].
        eapply xle_trans; [done|]. by apply xltb_false_le.
      * destruct Hr4 as [Hr4|(a & Ha & Hr4)]; [by left|].
        right. exists a. split; [by apply list_elem_of_further|done].
Qed.

Lemma prune_backward_arc_eq (k : nat) (cutoff fw : xnum) (bw : list xnum)
  (passed : list (Arc W)) (b : xnum) (x : Arc W) :
  length bw = NumStates f → x ∈ Arcs f k →
  prune_backward_arc (NumStates f) (NumStates f) k cutoff fw bw (b, passed) x
  = Ok (backward_relax bw b x, passed ++ [prune_arc (NumStates f) cutoff fw bw x]).
Proof.
  intros Hlen Hx.
  pose proof (top_sorted_arcs f k x Hsorted Hx) as Hlt.
  pose proof (Hrange k x Hx) as Hn.
  unfold prune_backward_arc.
  assert ((k <? nextstate x)%nat && (nextstate x <? NumStates f)%nat = true) as ->.
  { apply andb_true_iff. split; by apply Nat.ltb_lt. }
  destruct (lookup_lt_is_Some_2 bw (nextstate x)) as [bn Hbn]; [lia|].
  unfold vget, backward_relax, prune_arc, arc_cost. rewrite Hbn. reflexivity.
Qed.

(** The loop over the arcs of state [k] in the backward pass. *)
Lemma prune_backward_arcs_eq (k : nat) (cutoff fw : xnum) (bw : list xnum)
  (l passed : list (Arc W)) (b : xnum) :
  length bw = NumStates f →
  (∀ a, a ∈ l → a ∈ Arcs f k) →
  foldM (prune_backward_arc (NumStates f) (NumStates f) k cutoff fw bw) (b, passed) l
  = Ok (foldl (backward_relax bw) b l,
        passed ++ (prune_arc (NumStates f) cutoff fw bw <$> l)).
Proof.
  intros Hlen. revert b passed. induction l as [|x l IH]; intros b passed Hl.
  - simpl. by rewrite app_nil_r.
  - assert (Hx : x ∈ Arcs f k) by apply Hl, list_elem_of_here.
    cbn [foldM foldl]. rewrite (prune_backward_arc_eq k cutoff fw bw passed b x Hlen Hx).
    cbn [mbind result_bind]. rewrite IH.
    + by rewrite fmap_cons, <- app_assoc.
    + intros a Ha. apply Hl. by apply list_elem_of_further.
Qed.

End PruneBackward.

Lemma rev_seq_split (n : nat) (pre post : list nat) (x : nat) :
  rev (seq 0 n) = pre ++ x :: post → (x + length pre + 1 = n)%nat.
Proof.
  intros E. assert (E' : seq 0 n = rev post ++ x :: rev pre).
  { rewrite <- (rev_involutive (seq 0 n)), E, rev_app_distr. simpl.
    by rewrite <- app_assoc. }
  pose proof (seq_split_length _ _ _ _ E') as Hx.
  pose proof (f_equal length E') as Hl.
  rewrite length_seq, length_app in Hl. simpl in Hl.
  rewrite !length_rev in *. lia.
Qed.

Section PruneBackwardPass.
Context {W : Type} `{WeightLaws W}.
Variable f : VectorFst W.
Hypothesis Hsorted : top_sorted f = true.
Hypothesis Hrange : arcs_in_range f.
Hypothesis Hcosts : costs_ok f.

Lemma prune_arc_bw_ext (cutoff fw : xnum) (bw bw' : list xnum) (s : nat)
  (l : list (Arc W)) :
  (∀ a, a ∈ l → (s < nextstate a)%nat) →
  (∀ i, (s < i)%nat → bw' !! i = bw !! i) →
  prune_arc (NumStates f) cutoff fw bw' <$> l
  = prune_arc (NumStates f) cutoff fw bw <$> l.
Proof.
  intros Hl Hbw. apply list_fmap_ext. intros i a Ha.
  unfold prune_arc. rewrite Hbw; [done|]. apply Hl. by eapply list_elem_of_lookup_2.
Qed.

Lemma pruned_from_lookup_lt (cutoff : xnum) (fw bw : list xnum) (k s : nat)
  (d : StateData W) :
  states f !! s = Some d →
  states (pruned_from f cutoff fw bw k) !! s
  = Some (if decide (k ≤ s)%nat then prune_state (NumStates f) cutoff fw bw s d else d).
Proof.
  intros Hd. unfold pruned_from. simpl.
  rewrite lookup_app_l by (rewrite length_imap; by eapply lookup_lt_Some).
  by rewrite list_lookup_imap, Hd.
Qed.

Lemma pruned_from_lookup_bad (cutoff : xnum) (fw bw : list xnum) (k : nat) :
  states (pruned_from f cutoff fw bw k) !! NumStates f = Some (mkState Zero []).
Proof.
  unfold pruned_from. simpl.
  rewrite lookup_app_r by (by rewrite length_imap).
  by rewrite length_imap, Nat.sub_diag.
Qed.

Lemma pruned_from_length (cutoff : xnum) (fw bw : list xnum) (k : nat) :
  length (states (pruned_from f cutoff fw bw k)) = S (NumStates f).
Proof.
  unfold pruned_from. simpl. rewrite length_app, length_imap. simpl.
  unfold NumStates. lia.
Qed.

(** The lattice after the final weight and the arcs of state [k] have been
    pruned. *)
Lemma prune_step_lattice (cutoff : xnum) (fc fb : list xnum) (k : nat)
  (d : StateData W) (fwk bwk : xnum) (c : bool) :
  states f !! k = Some d → fc !! k = Some fwk →
  c = xgtb (ConvertToCost (final d) + fwk)%X cutoff && xneb (ConvertToCost (final d)) PInf →
  let lat := pruned_from f cutoff fc fb (S k) in
  let lat1 := if c then SetFinal lat k Zero else lat in
  Arcs lat1 k = arcs d
  ∧ Final lat k = final d
  ∧ SetArcs lat1 k (prune_arc (NumStates f) cutoff fwk fb <$> arcs d)
    = pruned_from f cutoff fc (<[k := bwk]> fb) k.
Proof.
  intros Hd Hfwk Hc lat lat1.
  pose proof (lookup_lt_Some _ _ _ Hd) as Hk.
  assert (Hlk : states lat !! k = Some d).
  { unfold lat. rewrite (pruned_from_lookup_lt _ _ _ _ _ d Hd).
    by rewrite decide_False by lia. }
  assert (Hst1 : states lat1 !! k
                 = Some (mkState (prune_final cutoff fwk (final d)) (arcs d))).
  { unfold lat1, prune_final. rewrite <- Hc. destruct c.
    - unfold SetFinal. cbn [states]. by rewrite list_lookup_alter, decide_True, Hlk.
    - rewrite Hlk. by destruct d. }
  assert (Hst2 : ∀ s, s ≠ k → states lat1 !! s = states lat !! s).
  { intros s' Hne. unfold lat1. destruct c; [|done].
    unfold SetFinal. cbn [states]. by rewrite list_lookup_alter_ne. }
  assert (Hs1 : Start lat1 = Start f).
  { unfold lat1. by destruct c. }
  split; [|split].
  - unfold Arcs. by rewrite Hst1.
  - unfold Final. by rewrite Hlk.
  - unfold SetArcs. rewrite Hs1.
    change (pruned_from f cutoff fc (<[k:=bwk]> fb) k)
      with (mkFst (Start f) (states (pruned_from f cutoff fc (<[k:=bwk]> fb) k))).
    f_equal. apply list_eq. intros s. rewrite list_lookup_alter.
    case_decide as Hsk.
    + subst s. rewrite Hst1. cbn [fmap option_fmap option_map final arcs].
      rewrite (pruned_from_lookup_lt _ _ _ _ _ d Hd), decide_True by lia.
      unfold prune_state. rewrite Hfwk. cbn [default]. f_equal. f_equal.
      symmetry. apply (prune_arc_bw_ext _ _ _ _ k).
      * intros a Ha. apply (top_sorted_arcs f k a Hsorted).
        by rewrite (Arcs_lookup f k d Hd).
      * intros i Hi. by rewrite list_lookup_insert_ne by lia.
    + rewrite Hst2 by done. unfold lat.
      destruct (states f !! s) as [ds|] eqn:Hds.
      * rewrite !(pruned_from_lookup_lt _ _ _ _ _ ds Hds). f_equal.
        destruct (decide (S k ≤ s)%nat); [rewrite decide_True by lia|
                                          by rewrite decide_False by lia].
        unfold prune_state. f_equal.
        symmetry. apply (prune_arc_bw_ext _ _ _ _ s).
        -- intros a Ha. apply (top_sorted_arcs f s a Hsorted).
           by rewrite (Arcs_lookup f s ds Hds).
        -- intros i Hi. by rewrite list_lookup_insert_ne by lia.
      * apply lookup_ge_None in Hds. unfold pruned_from. cbn [states].
        rewrite !lookup_app_r by (rewrite length_imap; lia).
        by rewrite !length_imap.
Qed.

(** One state of the backward pass. *)
Lemma prune_backward_state_step (cutoff : xnum) (fc fb : list xnum) (k : nat) :
  length fc = NumStates f → length fb = NumStates f →
  (k < NumStates f)%nat →
  (∀ s, (s ≤ k)%nat → fb !! s = fc !! s) →
  (∀ s v, (k < s)%nat → fb !! s = Some v → is_backward_cost f s v) →
  ∃ bwk,
    prune_backward_state (NumStates f) (NumStates f) cutoff
      (pruned_from f cutoff fc fb (S k), fb) k
    = Ok (pruned_from f cutoff fc (<[k := bwk]> fb) k, <[k := bwk]> fb)
    ∧ is_backward_cost f k bwk.
Proof.
  intros Hlfc Hlfb Hk Hfw Hbw.
  destruct (lookup_lt_is_Some_2 (states f) k) as [d Hd]; [done|].
  destruct (lookup_lt_is_Some_2 fc k) as [fwk Hfwk]; [lia|].
  assert (Hfbk : fb !! k = Some fwk) by (by rewrite Hfw).
  pose (bwk := foldl (backward_relax fb) (final_cost f k) (Arcs f k)).
  exists bwk.
  assert (Hsucc : ∀ a, a ∈ Arcs f k →
            is_cost (arc_cost a) ∧ is_cost (default PInf (fb !! nextstate a))).
  { intros a Ha. split; [by apply (Hcosts k)|].
    pose proof (top_sorted_arcs f k a Hsorted Ha) as Hlt.
    destruct (fb !! nextstate a) as [v|] eqn:Hv; simpl; [|done].
    by destruct (Hbw _ _ Hlt Hv). }
  destruct (backward_relax_fold fb (Arcs f k) (final_cost f k)
              (proj1 (Hcosts k)) Hsucc) as (Hr1 & Hr2 & Hr3 & Hr4).
  fold bwk in Hr1, Hr2, Hr3, Hr4.
  split.
  - destruct (prune_step_lattice cutoff fc fb k d fwk bwk _ Hd Hfwk eq_refl)
      as (HA & HF & HL).
    unfold prune_backward_state, vget. rewrite Hfbk. cbn [mbind result_bind].
    rewrite HF, HA.
    rewrite <- (Arcs_lookup f k d Hd).
    rewrite (prune_backward_arcs_eq f Hsorted Hrange k cutoff fwk fb (Arcs f k) []
               (ConvertToCost (final d)) Hlfb (fun a Ha => Ha)).
    cbn [mbind result_bind app]. unfold vset. rewrite decide_True by lia.
    cbn [mbind result_bind].
    assert (Hfc : ConvertToCost (final d) = final_cost f k).
    { unfold final_cost. by rewrite (Final_lookup f k d Hd). }
    rewrite <- (Arcs_lookup f k d Hd) in HL. rewrite HL. unfold bwk.
    by rewrite Hfc.
  - split; [done|]. split.
    + intros p t Hp. inversion Hp as [|? a p' ? Ha Hp']; subst.
      * change (path_cost []) with (of_Z 0). by rewrite xadd_0_l_L.
      * eapply xle_trans; [by apply Hr3|]. simpl. rewrite <- xadd_assoc.
        destruct (Hsucc a Ha) as [Hca Hcb].
        apply xle_add_l_mono; [done|done|].
        pose proof (top_sorted_arcs f k a Hsorted Ha) as Hlt.
        pose proof (Hrange k a Ha) as Hn.
        destruct (lookup_lt_is_Some_2 fb (nextstate a)) as [v Hv]; [lia|].
        rewrite Hv. simpl. destruct (Hbw _ _ Hlt Hv) as (_ & Hlb & _).
        by apply Hlb.
    + destruct Hr4 as [Hr4|(a & Ha & Hr4)].
      * right. exists [], k. split; [constructor|].
        change (path_cost []) with (of_Z 0). by rewrite xadd_0_l_L.
      * pose proof (top_sorted_arcs f k a Hsorted Ha) as Hlt.
        pose proof (Hrange k a Ha) as Hn.
        destruct (lookup_lt_is_Some_2 fb (nextstate a)) as [v Hv]; [lia|].
        rewrite Hv in Hr4. simpl in Hr4.
        destruct (Hbw _ _ Hlt Hv) as (_ & _ & [->|(p & t & Hp & ->)]).
        -- left. rewrite Hr4. apply xle_add_PInf_r. by apply (Hcosts k).
        -- right. exists (a :: p), t. split; [by constructor|].
           rewrite Hr4. simpl. by rewrite xadd_assoc.
Qed.

End PruneBackwardPass.

Section PruneWhole.
Context {W : Type} `{WeightLaws W}.
Variable TopSort : ∀ W : Type, VectorFst W → option (VectorFst W).
Variable f : VectorFst W.
Hypothesis Hsorted : top_sorted f = true.
Hypothesis Hrange : arcs_in_range f.
Hypothesis Hcosts : costs_ok f.

Lemma pruned_from_all (cutoff : xnum) (fw bw : list xnum) :
  (AddState f).1 = pruned_from f cutoff fw bw (NumStates f).
Proof.
  unfold AddState, pruned_from. simpl. f_equal. f_equal.
  apply list_eq. intros s. rewrite list_lookup_imap.
  destruct (states f !! s) as [d|] eqn:Hd; simpl; [|done].
  apply lookup_lt_Some in Hd. by rewrite decide_False by (unfold NumStates; lia).
Qed.

(** The backward pass returns the backward cost of every state, and the
    lattice with each arc and final weight pruned or kept by its cost. *)
Lemma prune_backward_spec (cutoff : xnum) (fc : list xnum) :
  length fc = NumStates f →
  ∃ bw, prune_backward (AddState f).1 (NumStates f) (NumStates f) cutoff fc
        = Ok (pruned_from f cutoff fc bw 0, bw)
      ∧ length bw = NumStates f
      ∧ (∀ s v, bw !! s = Some v → is_backward_cost f s v).
Proof.
  intros Hlfc. unfold prune_backward.
  pose (P := fun (pre : list nat) (acc : VectorFst W * list xnum) =>
    let k := (NumStates f - length pre)%nat in
    length acc.2 = NumStates f
    ∧ (∀ s, (s < k)%nat → acc.2 !! s = fc !! s)
    ∧ (∀ s v, (k ≤ s)%nat → acc.2 !! s = Some v → is_backward_cost f s v)
    ∧ acc.1 = pruned_from f cutoff fc acc.2 k).
  destruct (foldM_total P (prune_backward_state (NumStates f) (NumStates f) cutoff)
              (rev (seq 0 (NumStates f))) ((AddState f).1, fc))
    as ([lat bw] & Hf & (Hl & _ & Hb & Hlat)).
  - unfold P. simpl. rewrite Nat.sub_0_r. split; [done|]. split; [done|]. split.
    + intros s v Hs Hv. apply lookup_lt_Some in Hv. lia.
    + apply pruned_from_all.
  - intros pre x post [lat1 fb] El (Hl1 & Hf1 & Hb1 & Hlat1). cbn [fst snd] in *.
    pose proof (rev_seq_split _ _ _ _ El) as Hx.
    replace (NumStates f - length pre)%nat with (S x) in * by lia.
    destruct (prune_backward_state_step f Hsorted Hrange Hcosts cutoff fc fb x
                Hlfc Hl1) as (bwk & Hstep & Hbwk); [lia| | |].
    { intros s Hs. apply Hf1. lia. }
    { intros s v Hs. apply Hb1. lia. }
    subst lat1. rewrite Hstep. eexists. split; [done|].
    unfold P. cbn [fst snd]. rewrite length_app. cbn [length].
    replace (NumStates f - (length pre + 1))%nat with x by lia.
    split; [by rewrite length_insert|]. split; [|split; [|done]].
    + intros s Hs. rewrite list_lookup_insert_ne by lia. apply Hf1. lia.
    + intros s v Hs. rewrite list_lookup_insert. case_decide as Hc.
      * intros ?. simplify_eq. by destruct Hc as [<- _].
      * apply Hb1. destruct (decide (s = x)) as [->|?]; [|lia].
        exfalso. apply Hc. split; [done|lia].
  - simpl in *. rewrite length_rev, length_seq, Nat.sub_diag in *.
    exists bw. subst lat. split; [done|]. split; [done|].
    intros s v. apply Hb. lia.
Qed.

(** [PruneLattice] on a sorted lattice: the result of [Connect] on the
    lattice pruned by the forward and backward costs. *)
Lemma PruneLattice_eq (beam : xnum) (s0 : nat) :
  Start f = Some s0 → (s0 < NumStates f)%nat → xgtb beam (of_Z 0) = true →
  ∃ fw bw bfc,
    length fw = NumStates f ∧ length bw = NumStates f
    ∧ (∀ s v, fw !! s = Some v → is_forward_cost f s v)
    ∧ (∀ s v, bw !! s = Some v → is_backward_cost f s v)
    ∧ is_best_final_cost f bfc
    ∧ PruneLattice TopSort beam f
      = Ok ((0 <? NumStates (Connect (pruned_from f (bfc + beam)%X fw bw 0)))%nat,
            Connect (pruned_from f (bfc + beam)%X fw bw 0)).
Proof.
  intros Hstart Hs0 Hbeam.
  destruct (prune_forward_spec f s0 Hsorted Hrange Hcosts Hstart Hs0)
    as (fw & bfc & Hfwd & Hlfw & Hfw & Hbfc).
  destruct (prune_backward_spec (bfc + beam)%X fw Hlfw) as (bw & Hbwd & Hlbw & Hbw).
  exists fw, bw, bfc. do 5 (split; [done|]).
  unfold PruneLattice. rewrite Hbeam. cbn [kaldi_assert mbind result_bind].
  unfold sort_if_needed. rewrite Hsorted.
  rewrite bool_decide_false by lia. rewrite Hfwd. cbn [mbind result_bind].
  unfold AddState in *. cbn [fst] in Hbwd. cbv beta iota.
  by rewrite Hbwd.
Qed.

End PruneWhole.

(* ================================================================== *)
(** ** Beam pruning: the pruned lattice *)

Lemma xgtb_0_is_cost beam : xgtb beam (of_Z 0) = true → is_cost beam.
Proof. xnum_solve. Qed.

Lemma xle_add_beam a beam :
  is_cost a → xgtb beam (of_Z 0) = true → (a <= a + beam)%X.
Proof. xnum_solve. Qed.

Lemma xadd_finite_l a b : is_finite (a + b)%X → is_finite a.
Proof. xnum_solve. Qed.

Lemma xadd_finite_r a b : is_finite (a + b)%X → is_finite b.
Proof. xnum_solve. Qed.

Lemma xeq_finite_l a b : (a == b)%X → is_finite b → is_finite a.
Proof. xnum_solve. Qed.

Lemma is_finite_not_PInf a : is_finite a → a ≠ PInf.
Proof. by destruct a. Qed.

Section PrunedLattice.
Context {W : Type} `{WeightLaws W}.
Variable f : VectorFst W.
Variables (cutoff : xnum) (fw bw : list xnum).
Hypothesis Hsorted : top_sorted f = true.
Hypothesis Hrange : arcs_in_range f.
Hypothesis Hcosts : costs_ok f.
Hypothesis Hcut : is_cost cutoff.
Hypothesis Hlfw : length fw = NumStates f.
Hypothesis Hlbw : length bw = NumStates f.
Hypothesis Hfw : ∀ s v, fw !! s = Some v → is_forward_cost f s v.
Hypothesis Hbw : ∀ s v, bw !! s = Some v → is_backward_cost f s v.

Let L1 := pruned_from f cutoff fw bw 0.

Lemma pruned_Arcs (s : nat) :
  (s < NumStates f)%nat →
  Arcs L1 s = prune_arc (NumStates f) cutoff (default PInf (fw !! s)) bw <$> Arcs f s.
Proof.
  intros Hs. destruct (lookup_lt_is_Some_2 (states f) s Hs) as [d Hd].
  unfold Arcs at 1, L1. rewrite (pruned_from_lookup_lt f _ _ _ _ _ d Hd).
  rewrite decide_True by lia. by rewrite (Arcs_lookup f s d Hd).
Qed.

Lemma pruned_Final (s : nat) :
  (s < NumStates f)%nat →
  Final L1 s = prune_final cutoff (default PInf (fw !! s)) (Final f s).
Proof.
  intros Hs. destruct (lookup_lt_is_Some_2 (states f) s Hs) as [d Hd].
  unfold Final at 1, L1. rewrite (pruned_from_lookup_lt f _ _ _ _ _ d Hd).
  rewrite decide_True by lia. by rewrite (Final_lookup f s d Hd).
Qed.

Lemma pruned_Arcs_bad : Arcs L1 (NumStates f) = [].
Proof. unfold Arcs, L1. by rewrite pruned_from_lookup_bad. Qed.

Lemma pruned_Final_bad : Final L1 (NumStates f) = Zero.
Proof. unfold Final, L1. by rewrite pruned_from_lookup_bad. Qed.

Lemma pruned_NumStates : NumStates L1 = S (NumStates f).
Proof. apply pruned_from_length. Qed.

Lemma pruned_arc_cases (s : nat) (a1 : Arc W) :
  a1 ∈ Arcs L1 s →
  (s < NumStates f)%nat
  ∧ ∃ a, a ∈ Arcs f s
      ∧ a1 = prune_arc (NumStates f) cutoff (default PInf (fw !! s)) bw a.
Proof.
  intros Ha1. pose proof (Arcs_in_range _ _ _ Ha1) as Hs.
  rewrite pruned_NumStates in Hs.
  destruct (decide (s = NumStates f)) as [->|Hne].
  { rewrite pruned_Arcs_bad in Ha1. by apply elem_of_nil in Ha1. }
  assert (Hs' : (s < NumStates f)%nat) by lia. split; [done|].
  rewrite pruned_Arcs in Ha1 by done.
  apply list_elem_of_fmap in Ha1 as (a & -> & Ha). by exists a.
Qed.

Lemma pruned_top_sorted : top_sorted L1 = true.
Proof.
  apply top_sorted_intro. intros s a1 Ha1.
  destruct (pruned_arc_cases s a1 Ha1) as (Hs & a & Ha & ->).
  unfold prune_arc. destruct (xgtb _ _); simpl; [done|].
  by apply (top_sorted_arcs f s a).
Qed.

Lemma bad_state_not_kept : NumStates f ∉ connect_keep L1.
Proof.
  intros Hk. apply kept_on_successful_path in Hk
    as (s0 & p & q & t & _ & _ & Hq & Hfin).
  inversion Hq as [|? a ? ? Ha _]; subst.
  - unfold is_final in Hfin. rewrite pruned_Final_bad in Hfin.
    unfold weight_neb in Hfin. by rewrite weight_eqb_Zero in Hfin.
  - rewrite pruned_Arcs_bad in Ha. by apply elem_of_nil in Ha.
Qed.

(** An arc of the pruned lattice that leads to a kept state is an arc of
    the lattice within the cutoff. *)
Lemma pruned_arc_kept (s : nat) (a1 : Arc W) :
  a1 ∈ Arcs L1 s → nextstate a1 ≠ NumStates f →
  ∃ fs bt, a1 ∈ Arcs f s ∧ fw !! s = Some fs ∧ bw !! nextstate a1 = Some bt
           ∧ (fs + arc_cost a1 + bt <= cutoff)%X.
Proof.
  intros Ha1 Hnb. destruct (pruned_arc_cases s a1 Ha1) as (Hs & a & Ha & ->).
  pose proof (Hrange s a Ha) as Hn.
  destruct (lookup_lt_is_Some_2 fw s) as [fs Hfs]; [lia|].
  destruct (lookup_lt_is_Some_2 bw (nextstate a)) as [bt Hbt]; [lia|].
  unfold prune_arc in *. rewrite Hfs, Hbt in *. simpl in *.
  destruct (xgtb (fs + (arc_cost a + bt))%X cutoff) eqn:Hgt; [done|].
  exists fs, bt. repeat split; try done.
  rewrite <- xadd_assoc. apply xgtb_false_le; [|done|done].
  apply xadd_is_cost; [by destruct (Hfw _ _ Hfs)|].
  apply xadd_is_cost; [by apply (Hcosts s)|by destruct (Hbw _ _ Hbt)].
Qed.

(** An arc within the cutoff is not redirected. *)
Lemma prune_arc_within (s : nat) (a : Arc W) (fs bt : xnum) :
  fw !! s = Some fs → bw !! nextstate a = Some bt →
  (fs + arc_cost a + bt <= cutoff)%X →
  prune_arc (NumStates f) cutoff (default PInf (fw !! s)) bw a = a.
Proof.
  intros Hfs Hbt Hle. unfold prune_arc. rewrite Hfs, Hbt. simpl.
  rewrite <- xadd_assoc in Hle. by rewrite (xle_xgtb_false _ _ Hle).
Qed.

(** A path from the start state to a final state whose cost with the final
    cost is within the cutoff is left in the pruned lattice. *)
Lemma pruned_path_survives (s0 : nat) (p1 q : list (Arc W)) (u t : nat) :
  Start f = Some s0 → path f s0 p1 u → path f u q t →
  (path_cost (p1 ++ q) + final_cost f t <= cutoff)%X →
  path L1 u q t.
Proof.
  intros Hs0 Hp1 Hq. revert p1 Hp1.
  induction Hq as [u|u a q t Ha Hq IH]; intros p1 Hp1 Hle; [constructor|].
  pose proof (Arcs_in_range f u a Ha) as Hu.
  pose proof (Hrange u a Ha) as Hn.
  destruct (lookup_lt_is_Some_2 fw u) as [fs Hfs]; [lia|].
  destruct (lookup_lt_is_Some_2 bw (nextstate a)) as [bt Hbt]; [lia|].
  destruct (Hfw _ _ Hfs) as (Hc1 & Hb1 & _).
  destruct (Hbw _ _ Hbt) as (Hc2 & Hb2 & _).
  pose proof (Hb1 s0 p1 Hs0 Hp1) as Hle1. pose proof (Hb2 q t Hq) as Hle2.
  constructor.
  - rewrite pruned_Arcs by done. apply list_elem_of_fmap. exists a.
    split; [|done]. symmetry. apply (prune_arc_within u a fs bt Hfs Hbt).
    eapply xle_trans; [|exact Hle].
    rewrite path_cost_app. simpl. rewrite <- !xadd_assoc.
    apply xadd_le_mono; [done| |done|].
    + apply xadd_is_cost; [by apply (Hcosts u)|done].
    + apply xle_add_l_mono; [done|by apply (Hcosts u)|done].
  - apply (IH (p1 ++ [a])); [by eapply path_snoc|].
    by rewrite <- app_assoc.
Qed.

Lemma pruned_final_survives (s0 : nat) (p : list (Arc W)) (t : nat) :
  Start f = Some s0 → path f s0 p t → (t < NumStates f)%nat →
  (path_cost p + final_cost f t <= cutoff)%X →
  Final L1 t = Final f t.
Proof.
  intros Hs0 Hp Ht Hle. rewrite pruned_Final by done.
  destruct (lookup_lt_is_Some_2 fw t) as [fs Hfs]; [lia|].
  rewrite Hfs. simpl. unfold prune_final.
  destruct (Hfw _ _ Hfs) as (Hc1 & Hb1 & _).
  pose proof (Hb1 s0 p Hs0 Hp) as Hle1.
  assert (Hle2 : (ConvertToCost (Final f t) + fs <= cutoff)%X).
  { eapply xle_trans; [|exact Hle]. rewrite xadd_comm.
    apply xle_add_r_mono; [done|apply (Hcosts t)|done]. }
  by rewrite (xle_xgtb_false _ _ Hle2).
Qed.

End PrunedLattice.

(* ================================================================== *)
(** ** Beam pruning: soundness and the best path *)

Section PruneTheorems.
Context {W : Type} `{WeightLaws W}.
Variable TopSort : ∀ W : Type, VectorFst W → option (VectorFst W).

Lemma PruneLattice_true_inv (beam : xnum) (lat lat' : VectorFst W) :
  top_sorted lat = true →
  PruneLattice TopSort beam lat = Ok (true, lat') →
  xgtb beam (of_Z 0) = true
  ∧ ∃ s0, Start lat = Some s0 ∧ (s0 < NumStates lat)%nat.
Proof.
  intros Hts. unfold PruneLattice, sort_if_needed. rewrite Hts.
  destruct (xgtb beam (of_Z 0)); cbn [kaldi_assert mbind result_bind]; [|done].
  case_bool_decide; [done|]. unfold prune_forward.
  destruct (Start lat) as [s0|]; [|done]. unfold vset.
  case_decide as Hs0; [|done]. rewrite length_replicate in Hs0.
  intros _. split; [done|]. by exists s0.
Qed.


End PruneTheorems.

Section Checkers.
Context {W : Type} `{WeightLaws W}.

Lemma arcs_in_rangeb_correct (f : VectorFst W) :
  arcs_in_rangeb f = true → arcs_in_range f.
Proof.
  unfold arcs_in_rangeb, arcs_in_range, Arcs, NumStates. intros Hb s a Ha.
  destruct (states f !! s) as [d|] eqn:Hd; [|by apply elem_of_nil in Ha].
  rewrite forallb_forall in Hb.
  specialize (Hb d (proj1 (list_elem_of_In _ _) (list_elem_of_lookup_2 _ _ _ Hd))).
  rewrite forallb_forall in Hb. apply Nat.ltb_lt, Hb. by apply list_elem_of_In.
Qed.

Lemma is_costb_correct (a : xnum) : is_costb a = true → is_cost a.
Proof. by destruct a. Qed.

Lemma costs_okb_correct (f : VectorFst W) : costs_okb f = true → costs_ok f.
Proof.
  unfold costs_okb, costs_ok, final_cost, Final, Arcs. intros Hb s.
  destruct (states f !! s) as [d|] eqn:Hd.
  - rewrite forallb_forall in Hb.
    specialize (Hb d (proj1 (list_elem_of_In _ _) (list_elem_of_lookup_2 _ _ _ Hd))).
    apply andb_true_iff in Hb as [Hb1 Hb2]. split; [by apply is_costb_correct|].
    intros a Ha. rewrite forallb_forall in Hb2.
    apply is_costb_correct, Hb2. by apply list_elem_of_In.
  - rewrite ConvertToCost_Zero. split; [done|].
    intros a Ha. by apply elem_of_nil in Ha.
Qed.

Lemma path_end_unique (L L' : VectorFst W) (p : list (Arc W)) (x y y' : nat) :
  path L x p y → path L' x p y' → y = y'.
Proof.
  intros Hp. revert y'.
  induction Hp; intros y' Hp'; inversion Hp'; subst; [done|]. by apply IHHp.
Qed.

End Checkers.

Lemma xlt_xgtb a b : (a < b)%X → xgtb b a = true.
Proof. done. Qed.

Section PruneBestPath.
Context {W : Type} `{WeightLaws W}.
Variable TopSort : ∀ W : Type, VectorFst W → option (VectorFst W).


End PruneBestPath.




(* ================================================================== *)
(** ** Shortest path: the table *)

Section ShortestPathTable.
Variable clat : CompactLattice.
Hypothesis Hsorted : top_sorted clat = true.
Hypothesis Hrange : arcs_in_range clat.
Hypothesis Hcosts : costs_ok clat.

Lemma shortest_path_arc_eq (k : nat) (my_cost : xnum)
  (best : list (xnum * option nat)) (x : CompactLatticeArc) (cn : xnum)
  (prn : option nat) :
  best !! nextstate x = Some (cn, prn) →
  shortest_path_arc k my_cost best x
  = Ok (if xltb (my_cost + arc_cost x)%X cn
        then <[nextstate x := ((my_cost + arc_cost x)%X, Some k)]> best else best).
Proof.
  intros Hb. unfold shortest_path_arc, vget, arc_cost. rewrite Hb.
  cbn [mbind result_bind fst].
  destruct (xltb (my_cost + ConvertToCost (weight x))%X cn); [|done].
  unfold vset. rewrite decide_True; [done|]. by eapply lookup_lt_Some.
Qed.

Lemma shortest_path_arcs_step (k : nat) (my_cost : xnum) (prk : option nat)
  (best : list (xnum * option nat)) :
  (k < NumStates clat)%nat →
  table_inv clat k k best → best !! k = Some (my_cost, prk) →
  ∃ best',
    foldM (shortest_path_arc k my_cost) best (Arcs clat k) = Ok best'
    ∧ table_inv clat k (S k) best'
    ∧ (∀ s, (s ≤ k)%nat → best' !! s = best !! s)
    ∧ (∀ a cn prn, a ∈ Arcs clat k → best' !! nextstate a = Some (cn, prn) →
         (cn <= my_cost + arc_cost a)%X).
Proof.
  intros Hk Hinv Hbk.
  pose (P := fun (pre : list CompactLatticeArc) (b : list (xnum * option nat)) =>
    table_inv clat k (S k) b
    ∧ (∀ s, (s ≤ k)%nat → b !! s = best !! s)
    ∧ (∀ a cn prn, a ∈ pre → b !! nextstate a = Some (cn, prn) →
         (cn <= my_cost + arc_cost a)%X)).
  destruct (foldM_total P (shortest_path_arc k my_cost) (Arcs clat k) best)
    as (best' & Hf & (Hinv' & Hsame & Hpre)).
  - split; [|split; [done|]].
    + destruct Hinv as (Hlen & Hcost & Hzero & Hrel & Hfrel & Hpred & Hnone).
      do 5 (split; [done|]). split; [|done].
      intros i c u Hi. destruct (Hpred i c u Hi) as (Hu1 & Hu2 & Hu3).
      split; [lia|]. by split.
    + intros a cn prn Ha. by apply elem_of_nil in Ha.
  - intros pre x post b1 El (Hi1 & Hs1 & Hp1).
    pose proof Hi1 as (Hlen & Hcost & Hzero & Hrel & Hfrel & Hpred & Hnone).
    assert (Hx : x ∈ Arcs clat k).
    { rewrite El. apply elem_of_app. right. apply list_elem_of_here. }
    pose proof (top_sorted_arcs clat k x Hsorted Hx) as Hlt.
    pose proof (Hrange k x Hx) as Hxn.
    destruct (lookup_lt_is_Some_2 b1 (nextstate x)) as [[cn prn] Hcn]; [lia|].
    rewrite (shortest_path_arc_eq k my_cost b1 x cn prn Hcn).
    eexists. split; [done|].
    assert (Hbk1 : b1 !! k = Some (my_cost, prk)) by (by rewrite Hs1).
    assert (Hck : is_cost my_cost) by (by eapply Hcost).
    assert (Hcx : is_cost (arc_cost x)) by (by apply (Hcosts k)).
    assert (Hcs : is_cost (my_cost + arc_cost x)%X) by (by apply xadd_is_cost).
    assert (Hccn : is_cost cn) by (by eapply Hcost).
    destruct (xltb (my_cost + arc_cost x)%X cn) eqn:Hltb.
    + assert (Hle : ∀ c, (cn <= c)%X → (my_cost + arc_cost x <= c)%X).
      { intros c. by apply xltb_le_trans. }
      split; [|split].
      * split; [by rewrite length_insert|]. split; [|split; [|split; [|split; [|split]]]].
        -- intros i c pr. rewrite list_lookup_insert. case_decide; [|by apply Hcost].
           intros ?. by simplify_eq.
        -- rewrite list_lookup_insert_ne by lia. done.
        -- intros s a cs prs cn' prn' Hs Ha. rewrite list_lookup_insert_ne by lia.
           intros Hcs'. rewrite list_lookup_insert. case_decide as Hc.
           ++ intros ?. simplify_eq. destruct Hc as [Hc _].
              apply Hle. eapply Hrel; [done|done|done|]. by rewrite <- Hc.
           ++ by eapply Hrel.
        -- intros s cs prs cf prf Hs. rewrite !list_lookup_insert_ne by lia.
           by apply Hfrel.
        -- intros i c u. rewrite list_lookup_insert. case_decide as Hc.
           ++ intros ?. simplify_eq. destruct Hc as [<- _].
              split; [lia|]. split; [done|]. exists my_cost, prk.
              split; [by rewrite list_lookup_insert_ne by lia|].
              left. split; [done|]. by exists x.
           ++ intros Hi. destruct (Hpred i c u Hi) as (Hu1 & Hu2 & cu & pru & Hcu & Hor).
              split; [done|]. split; [done|]. exists cu, pru.
              split; [|done]. by rewrite list_lookup_insert_ne by lia.
        -- intros i c. rewrite list_lookup_insert. case_decide; [done|]. by apply Hnone.
      * intros s Hs. rewrite list_lookup_insert_ne by lia. by apply Hs1.
      * intros a cn' prn' Ha. rewrite list_lookup_insert. case_decide as Hc.
        -- intros ?. simplify_eq. destruct Hc as [Hc _].
           apply elem_of_app in Ha as [Ha|Ha].
           ++ apply Hle. eapply Hp1; [done|]. by rewrite <- Hc.
           ++ apply list_elem_of_singleton in Ha. subst a. by apply xle_refl.
        -- intros Hcn'. apply elem_of_app in Ha as [Ha|Ha]; [by eapply Hp1|].
           apply list_elem_of_singleton in Ha. subst a.
           exfalso. apply Hc. split; [done|lia].
    + split; [done|]. split; [done|].
      intros a cn' prn' Ha Hcn'. apply elem_of_app in Ha as [Ha|Ha]; [by eapply Hp1|].
      apply list_elem_of_singleton in Ha. subst a.
      rewrite Hcn in Hcn'. simplify_eq. by apply xltb_false_le.
  - by exists best'.
Qed.

Lemma shortest_path_state_step (k : nat) (best : list (xnum * option nat)) :
  (k < NumStates clat)%nat →
  table_inv clat k k best →
  ∃ best', shortest_path_state clat (NumStates clat) best k = Ok best'
           ∧ table_inv clat (S k) (S k) best'.
Proof.
  intros Hk Hinv.
  pose proof Hinv as (Hlen0 & _).
  destruct (lookup_lt_is_Some_2 best k) as [[my_cost prk] Hbk]; [lia|].
  destruct (shortest_path_arcs_step k my_cost prk best Hk Hinv Hbk)
    as (best1 & Hf & Hinv1 & Hsame & Harcs).
  pose proof Hinv1 as (Hlen & Hcost & Hzero & Hrel & Hfrel & Hpred & Hnone).
  destruct (lookup_lt_is_Some_2 best1 (NumStates clat)) as [[cf prf] Hcf]; [lia|].
  unfold shortest_path_state, vget. rewrite Hbk. cbn [mbind result_bind fst].
  rewrite Hf. cbn [mbind result_bind]. rewrite Hcf. cbn [mbind result_bind fst].
  fold (final_cost clat k).
  assert (Hbk1 : best1 !! k = Some (my_cost, prk)) by (by rewrite Hsame).
  assert (Hck : is_cost my_cost) by (by eapply Hcost).
  assert (Hcfk : is_cost (final_cost clat k)) by apply (Hcosts k).
  assert (Hct : is_cost (my_cost + final_cost clat k)%X) by (by apply xadd_is_cost).
  assert (Hccf : is_cost cf) by (by eapply Hcost).
  assert (Hrel' : ∀ s a cs prs cn prn, (s < S k)%nat → a ∈ Arcs clat s →
            best1 !! s = Some (cs, prs) → best1 !! nextstate a = Some (cn, prn) →
            (cn <= cs + arc_cost a)%X).
  { intros s a cs prs cn prn Hs Ha Hcs Hcn. destruct (decide (s = k)) as [->|Hne].
    - rewrite Hbk1 in Hcs. simplify_eq. by eapply Harcs.
    - eapply Hrel; [|done..]. lia. }
  destruct (xltb (my_cost + final_cost clat k)%X cf) eqn:Hltb.
  - unfold vset. rewrite decide_True by lia. eexists. split; [done|].
    split; [by rewrite length_insert|]. split; [|split; [|split; [|split; [|split]]]].
    + intros i c pr. rewrite list_lookup_insert. case_decide; [|by apply Hcost].
      intros ?. by simplify_eq.
    + by rewrite list_lookup_insert_ne by lia.
    + intros s a cs prs cn prn Hs Ha.
      pose proof (Hrange s a Ha).
      rewrite !list_lookup_insert_ne by lia. by apply Hrel'.
    + intros s cs prs cf' prf' Hs. rewrite list_lookup_insert_ne by lia.
      rewrite list_lookup_insert_eq by lia. intros Hcs ?. simplify_eq.
      destruct (decide (s = k)) as [->|Hne].
      * rewrite Hbk1 in Hcs. simplify_eq. by apply xle_refl.
      * eapply xltb_le_trans; [done|]. eapply Hfrel; [|done..]. lia.
    + intros i c u. rewrite list_lookup_insert. case_decide as Hc.
      * intros ?. simplify_eq. destruct Hc as [<- _].
        split; [lia|]. split; [done|]. exists my_cost, prk.
        split; [by rewrite list_lookup_insert_ne by lia|]. by right.
      * intros Hi. destruct (Hpred i c u Hi) as (Hu1 & Hu2 & cu & pru & Hcu & Hor).
        split; [done|]. split; [done|]. exists cu, pru.
        split; [|done]. by rewrite list_lookup_insert_ne by lia.
    + intros i c. rewrite list_lookup_insert. case_decide; [done|]. by apply Hnone.
  - eexists. split; [done|].
    do 3 (split; [done|]). split; [done|]. split; [|by split].
    intros s cs prs cf' prf' Hs Hcs Hcf'. rewrite Hcf in Hcf'. simplify_eq.
    destruct (decide (s = k)) as [->|Hne].
    + rewrite Hbk1 in Hcs. simplify_eq. by apply xltb_false_le.
    + eapply Hfrel; [|done..]. lia.
Qed.

(** The table after all states: every entry is relaxed. *)
Lemma shortest_path_table_spec :
  (0 < NumStates clat)%nat →
  ∃ best, shortest_path_table clat = Ok best
          ∧ table_inv clat (NumStates clat) (NumStates clat) best.
Proof.
  intros Hn. unfold shortest_path_table, vset.
  rewrite decide_True by (rewrite length_replicate; lia).
  cbn [mbind result_bind].
  destruct (foldM_total (fun pre b => table_inv clat (length pre) (length pre) b)
              (shortest_path_state clat (NumStates clat)) (seq 0 (NumStates clat))
              (<[0%nat := (of_Z 0, None)]>
                 (replicate (NumStates clat + 1) (PInf, None))))
    as (best & Hf & Hinv).
  - simpl. split; [by rewrite length_insert, length_replicate|].
    split; [|split; [|split; [|split; [|split]]]].
    + intros i c pr. rewrite list_lookup_insert. case_decide; [intros ?; by simplify_eq|].
      intros [? _]%lookup_replicate. by simplify_eq.
    + by rewrite list_lookup_insert_eq by (rewrite length_replicate; lia).
    + intros s a cs prs cn prn Hs. lia.
    + intros s cs prs cf prf Hs. lia.
    + intros i c u. rewrite list_lookup_insert. case_decide; [done|].
      intros [? _]%lookup_replicate. done.
    + intros i c. rewrite list_lookup_insert. case_decide as Hc.
      * destruct Hc as [<- _]. by left.
      * intros [? _]%lookup_replicate. simplify_eq. by right.
  - intros pre x post b1 El Hi1.
    pose proof (seq_split_length _ _ _ _ El) as Hxe.
    pose proof (seq_split_lt _ _ _ _ El) as Hx. subst x.
    destruct (shortest_path_state_step (length pre) b1 Hx Hi1) as (b2 & Hstep & Hi2).
    exists b2. split; [done|]. rewrite length_app. simpl. by rewrite Nat.add_1_r.
  - rewrite length_seq in Hinv. by exists best.
Qed.

Lemma table_inv_bound (best : list (xnum * option nat)) :
  table_inv clat (NumStates clat) (NumStates clat) best →
  ∀ p s c pr, path clat 0 p s → best !! s = Some (c, pr) → (c <= path_cost p)%X.
Proof.
  intros (Hlen & Hcost & Hzero & Hrel & Hfrel & Hpred & Hnone).
  induction p as [|a p IH] using rev_ind; intros s c pr Hp Hc.
  - inversion Hp; subst. rewrite Hzero in Hc. by simplify_eq.
  - apply path_snoc_inv in Hp as (u & Hp & Ha & ->).
    pose proof (Arcs_in_range clat u a Ha) as Hu.
    destruct (lookup_lt_is_Some_2 best u) as [[cu pru] Hcu]; [lia|].
    rewrite path_cost_snoc.
    eapply xle_trans; [by eapply (Hrel u a)|].
    apply xle_add_r_mono; [by eapply Hcost|by apply (Hcosts u)|by eapply IH].
Qed.

Lemma table_inv_best_final (best : list (xnum * option nat)) (cf : xnum)
  (prf : option nat) :
  table_inv clat (NumStates clat) (NumStates clat) best →
  best !! NumStates clat = Some (cf, prf) →
  ∀ p t, path clat 0 p t → (t < NumStates clat)%nat →
         (cf <= path_cost p + final_cost clat t)%X.
Proof.
  intros Hinv Hcf p t Hp Ht.
  pose proof Hinv as (Hlen & Hcost & Hzero & Hrel & Hfrel & Hpred & Hnone).
  destruct (lookup_lt_is_Some_2 best t) as [[ct prt] Hct]; [lia|].
  eapply xle_trans; [by eapply (Hfrel t)|].
  apply xle_add_r_mono; [by eapply Hcost|apply (Hcosts t)|].
  by eapply table_inv_bound.
Qed.

End ShortestPathTable.

(* ================================================================== *)
(** ** Shortest path: the walk and the output *)

Section ShortestPathWalk.
Variable clat : CompactLattice.
Hypothesis Hsorted : top_sorted clat = true.
Hypothesis Hrange : arcs_in_range clat.
Hypothesis Hcosts : costs_ok clat.
Variable best : list (xnum * option nat).
Hypothesis Hinv : table_inv clat (NumStates clat) (NumStates clat) best.

Lemma shortest_path_walk_spec (fuel cur : nat) (acc : list nat) (c : xnum)
  (pr : option nat) :
  (cur ≤ fuel)%nat → best !! cur = Some (c, pr) → is_finite c →
  ∃ chain, shortest_path_walk fuel best cur acc = Ok (Some (acc ++ chain))
           ∧ pred_path best (rev chain) cur.
Proof.
  destruct Hinv as (Hlen & Hcost & Hzero & Hrel & Hfrel & Hpred & Hnone).
  revert cur acc c pr. induction fuel as [|fuel IH]; intros cur acc c pr Hle Hc Hfin.
  - assert (cur = 0%nat) as -> by lia. exists []. simpl.
    rewrite app_nil_r. split; [done|constructor].
  - destruct (decide (cur = 0%nat)) as [->|Hne].
    { exists []. simpl. rewrite app_nil_r. split; [done|constructor]. }
    cbn [shortest_path_walk]. rewrite bool_decide_false by done.
    unfold vget. rewrite Hc. cbn [mbind result_bind snd].
    destruct pr as [u|].
    2:{ destruct (Hnone cur c Hc) as [? | ->]; done. }
    destruct (Hpred cur c u Hc) as (_ & Hu & cu & pru & Hcu & Hor).
    rewrite bool_decide_true by lia. cbn [kaldi_assert mbind result_bind].
    assert (Hfu : is_finite cu).
    { destruct Hor as [(_ & a & _ & _ & ->) | [_ ->]]; by eapply xadd_finite_l. }
    destruct (IH u (acc ++ [u]) cu pru) as (chain & Hw & Hp); [lia|done|done|].
    exists (u :: chain). rewrite Hw. split.
    + by rewrite <- app_assoc.
    + simpl. by eapply pred_path_step.
Qed.

Lemma best_arc_step_fold (v : nat) (l : list CompactLatticeArc)
  (acc : option CompactLatticeArc) :
  (∀ b, b ∈ l → is_cost (arc_cost b)) →
  (∀ c, acc = Some c → is_cost (arc_cost c)) →
  match foldl (best_arc_step v) acc l with
  | None => acc = None ∧ ∀ b, b ∈ l → nextstate b ≠ v
  | Some a =>
      (acc = Some a ∨ (a ∈ l ∧ nextstate a = v))
      ∧ (∀ c, acc = Some c → (arc_cost a <= arc_cost c)%X)
      ∧ (∀ b, b ∈ l → nextstate b = v → (arc_cost a <= arc_cost b)%X)
  end.
Proof.
  revert acc. induction l as [|x l IH]; intros acc Hl Hacc; simpl.
  - destruct acc as [c|].
    + split; [by left|]. split.
      * intros c' ?. simplify_eq. apply xle_refl. by apply Hacc.
      * intros b Hb. by apply elem_of_nil in Hb.
    + split; [done|]. intros b Hb. by apply elem_of_nil in Hb.
  - assert (Hx : is_cost (arc_cost x)) by apply Hl, list_elem_of_here.
    assert (Hl' : ∀ b, b ∈ l → is_cost (arc_cost b)).
    { intros b Hb. apply Hl. by apply list_elem_of_further. }
    unfold best_arc_step at 2. case_bool_decide as Hnx.
    + destruct acc as [c|].
      * fold (arc_cost x). fold (arc_cost c).
        pose proof (Hacc c eq_refl) as Hcc.
        destruct (xltb (arc_cost x) (arc_cost c)) eqn:Hlt.
        -- specialize (IH (Some x) Hl'). destruct (foldl _ (Some x) l) as [a|].
           ++ destruct IH as (Hor & Hle1 & Hle2); [intros ? ?; by simplify_eq|].
              split; [|split].
              ** right. destruct Hor as [?|[? ?]]; [simplify_eq|].
                 --- split; [apply list_elem_of_here|done].
                 --- split; [by apply list_elem_of_further|done].
              ** intros c' ?. simplify_eq. eapply xle_trans; [by apply Hle1|].
                 by apply xltb_true_le.
              ** intros b [->|Hb]%elem_of_cons Hb'; [by apply Hle1|by apply Hle2].
           ++ destruct IH as [? _]; [intros ? ?; by simplify_eq|done].
        -- specialize (IH (Some c) Hl'). destruct (foldl _ (Some c) l) as [a|].
           ++ destruct IH as (Hor & Hle1 & Hle2); [done|].
              split; [|split].
              ** destruct Hor as [?|[? ?]]; [by left|right].
                 split; [by apply list_elem_of_further|done].
              ** done.
              ** intros b [->|Hb]%elem_of_cons Hb'; [|by apply Hle2].
                 eapply xle_trans; [by apply Hle1|]. by apply xltb_false_le.
           ++ destruct IH as [? _]; done.
      * specialize (IH (Some x) Hl'). destruct (foldl _ (Some x) l) as [a|].
        -- destruct IH as (Hor & Hle1 & Hle2); [intros ? ?; by simplify_eq|].
           split; [|split; [done|]].
           ++ right. destruct Hor as [?|[? ?]]; [simplify_eq|].
              ** split; [apply list_elem_of_here|done].
              ** split; [by apply list_elem_of_further|done].
           ++ intros b [->|Hb]%elem_of_cons Hb'; [by apply Hle1|by apply Hle2].
        -- destruct IH as [? _]; [intros ? ?; by simplify_eq|done].
    + specialize (IH acc Hl' Hacc). destruct (foldl _ acc l) as [a|].
      * destruct IH as (Hor & Hle1 & Hle2). split; [|split; [done|]].
        -- destruct Hor as [?|[? ?]]; [by left|right].
           split; [by apply list_elem_of_further|done].
        -- intros b [->|Hb]%elem_of_cons Hb'; [done|by apply Hle2].
      * destruct IH as [? Hno]. split; [done|].
        intros b [->|Hb]%elem_of_cons; [done|by apply Hno].
Qed.

(** When there is an arc from [u] to [v], the arc taken is one of least
    cost among them. *)
Lemma chosen_arc_spec (u v : nat) (a0 : CompactLatticeArc) :
  a0 ∈ Arcs clat u → nextstate a0 = v →
  ∃ a, chosen_arc clat u v = Some a ∧ a ∈ Arcs clat u ∧ nextstate a = v
       ∧ ∀ b, b ∈ Arcs clat u → nextstate b = v → (arc_cost a <= arc_cost b)%X.
Proof.
  intros Ha0 Hv. unfold chosen_arc.
  pose proof (best_arc_step_fold v (Arcs clat u) None) as Hf.
  destruct (foldl (best_arc_step v) None (Arcs clat u)) as [a|].
  - destruct Hf as (Hor & _ & Hle); [intros b Hb; by apply (Hcosts u)|done|].
    destruct Hor as [?|[? ?]]; [done|]. by exists a.
  - destruct Hf as [_ Hno]; [intros b Hb; by apply (Hcosts u)|done|].
    by destruct (Hno a0 Ha0).
Qed.

(** The states walked are joined by arcs of least cost, and the cost of
    this path is at most the table entry of its last state. *)
Lemma pred_path_chosen (sts : list nat) (v : nat) :
  pred_path best sts v → (v < NumStates clat)%nat →
  ∃ chosen cv prv,
    best !! v = Some (cv, prv)
    ∧ length chosen = length sts
    ∧ path clat 0 chosen v
    ∧ (path_cost chosen <= cv)%X
    ∧ (∀ i u w, (sts ++ [v]) !! i = Some u → (sts ++ [v]) !! S i = Some w →
         ∃ a, chosen !! i = Some a ∧ chosen_arc clat u w = Some a)
    ∧ (∀ i a, chosen !! i = Some a →
         ∃ u, (sts ++ [v]) !! i = Some u ∧ a ∈ Arcs clat u
              ∧ (sts ++ [v]) !! S i = Some (nextstate a)
              ∧ ∀ b, b ∈ Arcs clat u → nextstate b = nextstate a →
                     (arc_cost a <= arc_cost b)%X).
Proof.
  destruct Hinv as (Hlen & Hcost & Hzero & Hrel & Hfrel & Hpred & Hnone).
  induction 1 as [|sts u v c Hp IH Hv0 Hbv]; intros Hv.
  - exists [], (of_Z 0), None. split; [done|]. split; [done|].
    split; [constructor|]. split; [done|]. split.
    + intros i u w Hi Hsi. destruct i; simpl in *; [done|]. by simplify_eq.
    + intros i a Hi. by rewrite lookup_nil in Hi.
  - destruct (Hpred v c u Hbv) as (_ & Huv & cu & pru & Hcu & Hor).
    destruct Hor as [(_ & a0 & Ha0 & Hn0 & Hc0)|[-> _]]; [|lia].
    destruct IH as (chosen & cu' & pru' & Hcu' & Hl & Hpath & Hle & Hsel & Hmin); [lia|].
    rewrite Hcu in Hcu'. simplify_eq.
    destruct (chosen_arc_spec u (nextstate a0) a0 Ha0 eq_refl)
      as (a & Hch & Ha & Hna & Hleast).
    exists (chosen ++ [a]), (cu' + arc_cost a0)%X, (Some u).
    split; [done|]. split; [by rewrite !length_app, Hl|]. split.
    { rewrite <- Hna. by eapply path_snoc. }
    split.
    { rewrite path_cost_snoc. apply xadd_le_mono; [|by apply (Hcosts u)|done|].
      - by eapply path_cost_is_cost.
      - by apply Hleast. }
    assert (Hlu : (sts ++ [u]) !! length sts = Some u).
    { by rewrite lookup_app_r, Nat.sub_diag by done. }
    split.
    + intros i x w Hi Hsi.
      destruct (decide (i < length sts)%nat) as [Hlt|Hge].
      * rewrite lookup_app_l in Hi by (rewrite length_app; simpl; lia).
        rewrite lookup_app_l in Hsi by (rewrite length_app; simpl; lia).
        destruct (Hsel i x w Hi Hsi) as (b & Hb & Hcb). exists b.
        split; [|done]. by rewrite lookup_app_l by (by eapply lookup_lt_Some).
      * assert (i = length sts) as ->.
        { apply lookup_lt_Some in Hsi. rewrite !length_app in Hsi. simpl in Hsi. lia. }
        rewrite lookup_app_l in Hi by (rewrite length_app; simpl; lia).
        rewrite Hlu in Hi. simplify_eq.
        rewrite lookup_app_r in Hsi by (rewrite length_app; simpl; lia).
        rewrite length_app in Hsi. simpl in Hsi.
        replace (S (length sts) - (length sts + 1))%nat with 0%nat in Hsi by lia.
        simpl in Hsi. simplify_eq. exists a. split; [|done].
        by rewrite lookup_app_r, Hl, Nat.sub_diag by lia.
    + intros i b Hi. destruct (decide (i < length chosen)%nat) as [Hlt|Hge].
      * rewrite lookup_app_l in Hi by done.
        destruct (Hmin i b Hi) as (x & Hx & Hbx & Hsx & Hlb). exists x.
        split; [by rewrite lookup_app_l by (by eapply lookup_lt_Some)|].
        split; [done|]. split; [|done].
        by rewrite lookup_app_l by (by eapply lookup_lt_Some).
      * assert (i = length chosen) as ->.
        { apply lookup_lt_Some in Hi. rewrite length_app in Hi. simpl in Hi. lia. }
        rewrite lookup_app_r, Nat.sub_diag in Hi by done. simpl in Hi. simplify_eq.
        exists u. rewrite Hl.
        split; [by rewrite lookup_app_l by (rewrite length_app; simpl; lia)|].
        split; [done|]. split.
        -- rewrite lookup_app_r by (rewrite length_app; simpl; lia).
           rewrite length_app. simpl.
           replace (S (length sts) - (length sts + 1))%nat with 0%nat by lia.
           simpl. by rewrite Hna.
        -- intros b' Hb' Hnb'. apply Hleast; [done|]. by rewrite Hnb'.
Qed.

End ShortestPathWalk.

Lemma foldl_AddState {W : Type} `{Weight W} (sts : list nat) (st : option nat)
  (l : list (StateData W)) :
  foldl (fun f _ => (AddState f).1) (mkFst st l) sts
  = mkFst st (l ++ replicate (length sts) (mkState Zero [])).
Proof.
  revert l. induction sts as [|x sts IH]; intros l; simpl.
  - by rewrite app_nil_r.
  - unfold AddState. cbn [fst Start states]. rewrite IH. by rewrite <- app_assoc.
Qed.

Lemma alter_take_replicate {A : Type} (g : A → A) (dflt : A) (L : list A)
  (i k : nat) :
  (i < k)%nat → length L = k → L !! i = Some (g dflt) →
  alter g i (take i L ++ replicate (k - i) dflt)
  = take (S i) L ++ replicate (k - S i) dflt.
Proof.
  intros Hi Hl HL.
  rewrite alter_app_r_alt by (rewrite length_take; lia).
  rewrite length_take, Nat.min_l, Nat.sub_diag by lia.
  replace (k - i)%nat with (S (k - S i)) by lia. simpl.
  rewrite (take_S_r L i (g dflt) HL). by rewrite <- app_assoc.
Qed.

Lemma linear_lattice_lookup_arc {W : Type} `{Weight W} (p : list (Arc W)) (fw : W)
  (i : nat) (a : Arc W) :
  p !! i = Some a →
  states (linear_lattice p fw) !! i
  = Some (mkState Zero [mkArc (ilabel a) (olabel a) (weight a) (S i)]).
Proof.
  intros Hi. unfold linear_lattice. simpl.
  rewrite lookup_app_l by (rewrite length_imap; by eapply lookup_lt_Some).
  by rewrite list_lookup_imap, Hi.
Qed.

Lemma linear_lattice_lookup_last {W : Type} `{Weight W} (p : list (Arc W)) (fw : W) :
  states (linear_lattice p fw) !! length p = Some (mkState fw []).
Proof.
  unfold linear_lattice. simpl.
  rewrite lookup_app_r by (by rewrite length_imap).
  by rewrite length_imap, Nat.sub_diag.
Qed.

Lemma linear_lattice_length {W : Type} `{Weight W} (p : list (Arc W)) (fw : W) :
  length (states (linear_lattice p fw)) = S (length p).
Proof. unfold linear_lattice. simpl. rewrite length_app, length_imap. simpl. lia. Qed.

Section ShortestPathBuild.
Variable clat : CompactLattice.

Lemma shortest_path_build_spec (sts : list nat) (chosen : list CompactLatticeArc)
  (t : nat) :
  length sts = S (length chosen) → sts !! length chosen = Some t →
  (∀ i u w, sts !! i = Some u → sts !! S i = Some w →
     ∃ a, chosen !! i = Some a ∧ chosen_arc clat u w = Some a) →
  shortest_path_build clat sts = Ok (linear_lattice chosen (Final clat t)).
Proof.
  intros Hlen Hlast Hsel. unfold shortest_path_build.
  unfold DeleteStates. rewrite foldl_AddState, app_nil_l.
  set (k := length sts). set (fw := Final clat t).
  set (L := states (linear_lattice chosen fw)).
  set (dflt := mkState (Zero : CompactLatticeWeight) []).
  assert (HL : length L = k).
  { unfold L, k. by rewrite linear_lattice_length, Hlen. }
  pose (P := fun (pre : list nat) (sp : CompactLattice) =>
    sp = mkFst (if decide (length pre = 0%nat) then None else Some 0%nat)
               (take (length pre) L ++ replicate (k - length pre) dflt)).
  destruct (foldM_total P (shortest_path_emit clat sts) (seq 0 k)
              (mkFst None (replicate k dflt))) as (sp & Hf & Hsp).
  - unfold P. simpl. by rewrite Nat.sub_0_r.
  - intros pre x post sp1 El Hp1.
    pose proof (seq_split_length _ _ _ _ El) as Hxe.
    pose proof (seq_split_lt _ _ _ _ El) as Hx. subst x.
    unfold P in Hp1 |- *. rewrite length_app. cbn [length]. rewrite Nat.add_1_r.
    clear El. generalize dependent (length pre). intros i Hp1 Hx.
    rewrite decide_False by lia.
    unfold shortest_path_emit. fold k.
    assert (Hsp2 : (if bool_decide (i = 0%nat) then SetStart sp1 i else sp1)
                   = mkFst (Some 0%nat) (take i L ++ replicate (k - i) dflt)).
    { rewrite Hp1. case_bool_decide as Hi0.
      - unfold SetStart. cbn [states]. by rewrite Hi0.
      - by rewrite decide_False. }
    rewrite Hsp2. clear Hsp2.
    destruct (lookup_lt_is_Some_2 sts i) as [st Hst]; [done|].
    unfold vget. destruct (i + 1 <? k)%nat eqn:Hlt.
    + apply Nat.ltb_lt in Hlt.
      destruct (lookup_lt_is_Some_2 sts (i + 1)) as [st1 Hst1]; [done|].
      rewrite Hst, Hst1. cbn [mbind result_bind].
      rewrite Nat.add_1_r in Hst1.
      destruct (Hsel i st st1 Hst Hst1) as (a & Ha & Hch).
      unfold chosen_arc in Hch. rewrite Hch.
      eexists. split; [done|].
      unfold AddArc. cbn [Start states]. f_equal.
      apply alter_take_replicate; [lia|done|].
      unfold L. rewrite (linear_lattice_lookup_arc chosen fw i a Ha).
      by rewrite Nat.add_1_r.
    + apply Nat.ltb_ge in Hlt. rewrite Hst. cbn [mbind result_bind].
      eexists. split; [done|].
      unfold SetFinal. cbn [Start states]. f_equal.
      assert (i = length chosen) as Hi by (unfold k in *; lia).
      rewrite Hi in Hst. rewrite Hlast in Hst. simplify_eq.
      apply alter_take_replicate; [lia|done|].
      unfold L. by rewrite linear_lattice_lookup_last.
  - rewrite Hf. f_equal. unfold P in Hsp. rewrite length_seq in Hsp.
    rewrite Hsp. rewrite decide_False by (unfold k; lia).
    rewrite Nat.sub_diag. simpl. rewrite app_nil_r.
    rewrite firstn_all2 by lia. done.
Qed.

End ShortestPathBuild.

(* ================================================================== *)
(** ** Shortest path: optimality *)

Lemma xle_finite a b : is_cost a → (a <= b)%X → is_finite b → is_finite a.
Proof. xnum_solve. Qed.

Section LinearLattice.
Context {W : Type} `{Weight W}.

Lemma linear_arcs_cost (i : nat) (p : list (Arc W)) :
  path_cost (linear_arcs i p) = path_cost p.
Proof.
  revert i. induction p as [|a p IH]; intros i; [done|].
  unfold linear_arcs. rewrite imap_cons. simpl. f_equal.
  rewrite <- (IH (S i)). unfold linear_arcs. f_equal.
  apply imap_ext. intros j b _. simpl. f_equal. lia.
Qed.

Lemma linear_lattice_path_from (p : list (Arc W)) (fw : W) (pre q : list (Arc W)) :
  p = pre ++ q →
  path (linear_lattice p fw) (length pre) (linear_arcs (length pre) q) (length p).
Proof.
  revert pre. induction q as [|a q IH]; intros pre Hp.
  - rewrite Hp, app_nil_r. constructor.
  - unfold linear_arcs. rewrite imap_cons. rewrite Nat.add_0_r.
    assert (Ha : p !! length pre = Some a).
    { rewrite Hp. by rewrite lookup_app_r, Nat.sub_diag by done. }
    constructor.
    + unfold Arcs. rewrite (linear_lattice_lookup_arc p fw _ a Ha).
      apply list_elem_of_here.
    + simpl. specialize (IH (pre ++ [a])). rewrite length_app in IH. simpl in IH.
      rewrite Nat.add_1_r in IH. unfold linear_arcs in IH.
      erewrite imap_ext; [apply IH; by rewrite <- app_assoc|].
      intros j b _. simpl. f_equal. lia.
Qed.

Lemma linear_lattice_path (p : list (Arc W)) (fw : W) :
  path (linear_lattice p fw) 0 (linear_arcs 0 p) (length p).
Proof. by apply (linear_lattice_path_from p fw [] p). Qed.

End LinearLattice.

Section ShortestPathTheorem.
Variable TopSort : ∀ W : Type, VectorFst W → option (VectorFst W).


End ShortestPathTheorem.


(* ================================================================== *)
(** ** Loops that only add information *)

(** A loop whose steps move the state along a preorder [R] and establish
    [Q x] for the item [x], where [Q] is kept along [R]. *)
Lemma foldM_mono {A B : Type} (R : B → B → Prop) (Q : A → B → Prop)
  (f : B → A → result B) :
  (∀ b, R b b) → (∀ b1 b2 b3, R b1 b2 → R b2 b3 → R b1 b3) →
  (∀ x b b', Q x b → R b b' → Q x b') →
  ∀ l b b',
    (∀ x b1 b2, x ∈ l → R b b1 → f b1 x = Ok b2 → R b1 b2 ∧ Q x b2) →
    foldM f b l = Ok b' → R b b' ∧ ∀ x, x ∈ l → Q x b'.
Proof.
  intros Hrefl Htrans Hkeep.
  induction l as [|x l IH]; intros b b' Hstep Hf; simpl in Hf.
  - inv_ok. split; [done|]. intros x Hx. by apply elem_of_nil in Hx.
  - apply bind_Ok in Hf as (b1 & Hb1 & Hf).
    destruct (Hstep x b b1) as [HR HQ]; [apply list_elem_of_here|done|done|].
    destruct (IH b1 b') as [HR' HQ']; [|done|].
    { intros y c1 c2 Hy Hc. apply Hstep; [by apply list_elem_of_further|].
      by eapply Htrans. }
    split; [by eapply Htrans|].
    intros y Hy. apply elem_of_cons in Hy as [-> | Hy]; [|by apply HQ'].
    by eapply Hkeep.
Qed.

(* ================================================================== *)
(** ** State times of a compact lattice *)

Lemma times_grow_refl k t : times_grow k t t.
Proof. done. Qed.

Lemma times_grow_trans k t1 t2 t3 :
  times_grow k t1 t2 → times_grow k t2 t3 → times_grow k t1 t3.
Proof.
  intros (Hl1 & Hk1 & Hs1) (Hl2 & Hk2 & Hs2). split; [congruence|]. split.
  - intros i Hi. by rewrite Hk2, Hk1.
  - intros i v Hi Hv. apply Hs2; [by apply Hs1|done].
Qed.

Lemma clat_times_arc_spec (k : nat) (cur : Z) (times times' : list Z)
  (a : CompactLatticeArc) :
  (k < nextstate a)%nat →
  clat_times_arc cur times a = Ok times' →
  times_grow k times times'
  ∧ times' !! nextstate a = Some (cur + Z.of_nat (arc_frames a))%Z.
Proof.
  intros Hk Hf. unfold clat_times_arc in Hf.
  apply bind_Ok in Hf as (nt & Hnt & Hf). apply vget_Ok in Hnt.
  case_bool_decide as Hm.
  - apply vset_Ok in Hf as [Hlt ->]. split.
    + split; [by rewrite length_insert|]. split.
      * intros i Hi. rewrite list_lookup_insert_ne by lia. done.
      * intros i v Hi Hv. rewrite list_lookup_insert_ne; [done|].
        intros <-. rewrite Hnt in Hi. injection Hi as <-. lia.
    + by rewrite list_lookup_insert_eq.
  - inv_ok. apply bool_decide_eq_true in E. subst nt. split; [apply times_grow_refl|done].
Qed.

Lemma clat_times_arcs_spec (k : nat) (cur : Z) (l : list CompactLatticeArc)
  (times times' : list Z) :
  (∀ a, a ∈ l → (k < nextstate a)%nat) →
  foldM (clat_times_arc cur) times l = Ok times' →
  times_grow k times times'
  ∧ ∀ a, a ∈ l → (0 ≤ cur)%Z →
         times' !! nextstate a = Some (cur + Z.of_nat (arc_frames a))%Z.
Proof.
  intros Hk Hf.
  apply (foldM_mono (times_grow k)
           (fun a t => (0 ≤ cur)%Z →
                       t !! nextstate a = Some (cur + Z.of_nat (arc_frames a))%Z)
           (clat_times_arc cur)
           (times_grow_refl k) (times_grow_trans k)) in Hf; [done| |].
  - intros a b b' HQ (_ & _ & Hs) Hc. apply Hs; [by apply HQ|lia].
  - intros a b1 b2 Ha _ Hstep.
    destruct (clat_times_arc_spec k cur b1 b2 a (Hk a Ha) Hstep) as [? ?]. done.
Qed.

Lemma clat_times_state_step (lat : CompactLattice) (k : nat)
  (acc acc' : list Z * Z) :
  top_sorted lat = true →
  clat_times_inv lat k acc.1 → clat_times_state lat acc k = Ok acc' →
  clat_times_inv lat (S k) acc'.1.
Proof.
  intros Hts (Hlen & H0 & Harcs) Hf. destruct acc as [times utt]. simpl in *.
  unfold clat_times_state in Hf.
  apply bind_Ok in Hf as (cur & Hcur & Hf). apply vget_Ok in Hcur.
  apply bind_Ok in Hf as (times' & Hfold & Hf).
  apply (clat_times_arcs_spec k) in Hfold as [(Hl' & Hlow & Hstab) Hnew];
    [|intros a Ha; by eapply top_sorted_arcs].
  assert (acc'.1 = times') as ->.
  { destruct (is_final lat k); [|by inv_ok].
    apply bind_Ok in Hf as (ts & _ & Hf). by inv_ok. }
  split; [congruence|]. split; [apply Hstab; [done|lia]|].
  intros s a c Hs Ha Hc Hge. rewrite Hlow in Hc by lia.
  destruct (decide (s = k)) as [-> | Hne].
  - rewrite Hcur in Hc. injection Hc as ->. by apply Hnew.
  - apply Hstab; [|lia]. apply (Harcs s a c); [lia|done..].
Qed.

Lemma clat_state_times_ok (lat : CompactLattice) (T : Z) (times : list Z) :
  CompactLatticeStateTimes lat = Ok (T, times) →
  top_sorted lat = true ∧ Start lat = Some 0%nat
  ∧ clat_times_inv lat (NumStates lat) times.
Proof.
  unfold CompactLatticeStateTimes. destruct (top_sorted lat) eqn:Hts; [|done].
  cbn [negb]. intros Hf.
  apply bind_Ok in Hf as (u & Hst & Hf). apply kaldi_assert_Ok in Hst.
  apply bool_decide_eq_true in Hst.
  apply bind_Ok in Hf as (times0 & H0 & Hf). apply vset_Ok in H0 as [Hn ->].
  apply bind_Ok in Hf as ([times1 utt] & Hfold & Hf).
  assert (times1 = times) as -> by (case_bool_decide; by inv_ok).
  split; [done|]. split; [done|].
  rewrite length_replicate in Hn.
  assert (G : clat_times_inv lat (length (seq 0 (NumStates lat))) (times, utt).1).
  { eapply (foldM_inv (fun pre acc => clat_times_inv lat (length pre) acc.1));
      [| |exact Hfold].
    - simpl. split; [by rewrite length_insert, length_replicate|].
      split; [by rewrite list_lookup_insert_eq by (by rewrite length_replicate)|].
      intros; lia.
    - intros pre x post b1 b2 El Hp Hstep.
      rewrite length_app. simpl. rewrite Nat.add_1_r.
      apply seq_split_length in El. subst x.
      by eapply clat_times_state_step. }
  by rewrite length_seq in G.
Qed.

Lemma path_frames_app (p q : list CompactLatticeArc) :
  path_frames (p ++ q) = (path_frames p + path_frames q)%Z.
Proof. induction p as [|a p IH]; simpl; [done|]. rewrite IH. lia. Qed.

Lemma path_frames_nonneg (p : list CompactLatticeArc) : (0 ≤ path_frames p)%Z.
Proof. induction p as [|a p IH]; simpl; lia. Qed.

(** The time of the state at the end of a path. *)
Lemma clat_times_path (lat : CompactLattice) (times : list Z) (s t : nat)
  (p : list CompactLatticeArc) (c : Z) :
  clat_times_inv lat (NumStates lat) times →
  path lat s p t → times !! s = Some c → (0 ≤ c)%Z →
  times !! t = Some (c + path_frames p)%Z.
Proof.
  intros (Hlen & H0 & Harcs) Hp. revert c.
  induction Hp as [s|s a p t Ha Hp IH]; intros c Hc Hge; simpl.
  - by rewrite Z.add_0_r.
  - rewrite Z.add_assoc. apply IH; [|lia].
    apply (Harcs s a c); [|done..]. by eapply Arcs_in_range.
Qed.

(* ================================================================== *)
(** ** Depth per frame *)

Lemma covers_0 (st : Z) (t : nat) : covers st 0 t = false.
Proof.
  unfold covers. destruct (st <=? Z.of_nat t)%Z eqn:E1; [|done]. simpl.
  apply Z.ltb_ge. apply Z.leb_le in E1. lia.
Qed.

Lemma covers_S (st : Z) (len t : nat) :
  covers st (S len) t = bool_decide (Z.of_nat t = st) || covers (st + 1) len t.
Proof.
  unfold covers.
  destruct (st <=? Z.of_nat t)%Z eqn:E1, (Z.of_nat t <? st + Z.of_nat (S len))%Z eqn:E2,
           (st + 1 <=? Z.of_nat t)%Z eqn:E3,
           (Z.of_nat t <? st + 1 + Z.of_nat len)%Z eqn:E4;
    case_bool_decide; simpl; try done;
    rewrite ?Z.leb_le, ?Z.leb_gt, ?Z.ltb_lt, ?Z.ltb_ge in *; lia.
Qed.

Lemma covers_true (st : Z) (len t : nat) :
  covers st len t = true ↔ (st ≤ Z.of_nat t < st + Z.of_nat len)%Z.
Proof. unfold covers. rewrite andb_true_iff, Z.leb_le, Z.ltb_lt. done. Qed.

Lemma count_frames_spec (T st : Z) (len : nat) (depth depth' : list Z) :
  count_frames T st len depth = Ok depth' →
  length depth' = length depth
  ∧ ∀ t d, depth !! t = Some d →
           depth' !! t = Some (d + (if covers st len t then 1 else 0))%Z.
Proof.
  unfold count_frames. revert st depth.
  induction len as [|len IH]; intros st depth Hf.
  - simpl in Hf. inv_ok. split; [done|]. intros t d Hd.
    by rewrite covers_0, Z.add_0_r.
  - rewrite seqZ_cons in Hf by lia. simpl in Hf.
    apply bind_Ok in Hf as (depth1 & Hstep & Hf).
    apply bind_Ok in Hstep as (u & _ & Hupd).
    unfold vupdZ in Hupd. destruct (st <? 0)%Z eqn:Hst; [done|].
    apply Z.ltb_ge in Hst.
    apply bind_Ok in Hupd as (x & Hx & Hupd). apply vget_Ok in Hx.
    apply vset_Ok in Hupd as [Hlt ->].
    replace (Z.pred (Z.of_nat (S len))) with (Z.of_nat len) in Hf by lia.
    apply IH in Hf as [Hl Hf]. split; [by rewrite Hl, length_insert|].
    intros t d Hd. rewrite covers_S.
    destruct (decide (t = Z.to_nat st)) as [-> | Hne].
    + rewrite Hx in Hd. injection Hd as ->.
      rewrite (Hf _ (Z.succ d)) by (by rewrite list_lookup_insert_eq).
      rewrite bool_decide_true by lia. simpl.
      replace (covers (Z.succ st) len (Z.to_nat st)) with false; [f_equal; lia|].
      symmetry. apply not_true_is_false. rewrite covers_true. lia.
    + rewrite (Hf _ d) by (by rewrite list_lookup_insert_ne).
      rewrite bool_decide_false by lia. simpl. by rewrite <- Z.add_1_r.
Qed.

Lemma depth_arcs_spec (T st : Z) (l : list CompactLatticeArc) (depth depth' : list Z) :
  foldM (fun depth arc => count_frames T st (length (String (weight arc))) depth)
        depth l = Ok depth' →
  length depth' = length depth
  ∧ ∀ t d, depth !! t = Some d →
      depth' !! t
      = Some (d + Z.of_nat (length (filter (fun a => covers st (arc_frames a) t = true) l)))%Z.
Proof.
  revert depth. induction l as [|a l IH]; intros depth Hf; simpl in Hf.
  - inv_ok. split; [done|]. intros t d Hd. simpl. by rewrite Z.add_0_r.
  - apply bind_Ok in Hf as (depth1 & Hstep & Hf).
    apply count_frames_spec in Hstep as [Hl1 Hstep].
    apply IH in Hf as [Hl Hf]. split; [congruence|].
    intros t d Hd. rewrite (Hf _ _ (Hstep _ _ Hd)). f_equal.
    rewrite filter_cons. fold (arc_frames a).
    destruct (covers st (arc_frames a) t) eqn:Hc.
    + rewrite decide_True by done. simpl. lia.
    + rewrite decide_False by done. lia.
Qed.

Lemma depth_state_spec (clat : CompactLattice) (T : Z) (times depth depth' : list Z)
  (s : nat) :
  depth_state clat T times depth s = Ok depth' →
  length depth' = length depth
  ∧ ∀ t d, depth !! t = Some d →
      depth' !! t
      = Some (d + Z.of_nat (state_arc_depth clat times t s
                            + state_final_depth clat times t s))%Z.
Proof.
  unfold depth_state. intros Hf.
  apply bind_Ok in Hf as (st & Hst & Hf). apply vget_Ok in Hst.
  apply bind_Ok in Hf as (depth1 & Harcs & Hf).
  apply depth_arcs_spec in Harcs as [Hl1 Harcs].
  apply count_frames_spec in Hf as [Hl Hf]. split; [congruence|].
  intros t d Hd. rewrite (Hf _ _ (Harcs _ _ Hd)). f_equal.
  unfold state_arc_depth, state_final_depth, time_of. rewrite Hst. simpl.
  destruct (covers st (length (String (Final clat s))) t); lia.
Qed.

Lemma sum_list_plus {A : Type} (f g : A → nat) (l : list A) :
  sum_list ((fun x => f x + g x)%nat <$> l)
  = (sum_list (f <$> l) + sum_list (g <$> l))%nat.
Proof. induction l as [|x l IH]; simpl; [done|]. unfold fmap in *. lia. Qed.

(** Each entry of the result of [CompactLatticeDepthPerFrame] is the number
    of arcs plus the number of final weights whose strings cover the frame. *)
Lemma depth_per_frame_spec (clat : CompactLattice) (depth : list Z) (t : nat) (d : Z) :
  CompactLatticeDepthPerFrame clat = Ok depth → depth !! t = Some d →
  d = Z.of_nat (arc_depth clat (state_times_of clat) t
                + final_depth clat (state_times_of clat) t).
Proof.
  unfold CompactLatticeDepthPerFrame, state_times_of.
  destruct (top_sorted clat); [|done]. cbn [negb].
  destruct (Start clat); [|by intros; simplify_eq].
  destruct (CompactLatticeStateTimes clat) as [[T times]|]; [|done].
  cbn [mbind result_bind]. destruct (T <=? 0)%Z; [by intros; simplify_eq|].
  intros Hf Hd.
  assert (G : ∀ t d, depth !! t = Some d →
            d = Z.of_nat (sum_list ((fun s => state_arc_depth clat times t s
                                              + state_final_depth clat times t s)%nat
                                    <$> seq 0 (NumStates clat)))).
  { eapply (foldM_inv (fun pre dp => ∀ t d, dp !! t = Some d →
              d = Z.of_nat (sum_list ((fun s => state_arc_depth clat times t s
                                              + state_final_depth clat times t s)%nat
                                      <$> pre)))); [| |exact Hf].
    - intros t' d' Hr. apply lookup_replicate in Hr as [-> _]. done.
    - intros pre x post b1 b2 _ Hp Hstep t' d' Hd'.
      apply depth_state_spec in Hstep as [Hl Hstep].
      destruct (lookup_lt_is_Some_2 b1 t') as [d1 Hd1].
      { rewrite <- Hl. by eapply lookup_lt_Some. }
      rewrite (Hstep _ _ Hd1) in Hd'. injection Hd' as <-.
      rewrite (Hp _ _ Hd1), fmap_app, sum_list_with_app. simpl. lia. }
  rewrite (G _ _ Hd), sum_list_plus. done.
Qed.

(** C5 fails as stated: the string of a final weight is counted by
    [CompactLatticeDepthPerFrame] and is not limited by
    [CompactLatticeLimitDepth].  With a depth of 1 the lattice with one arc
    over frame 0 and a final weight over frame 0 is returned as it is, and
    its depth at frame 0 is 2. *)
Lemma limit_depth_final_string_uncapped :
  CompactLatticeLimitDepth Examples.TopSort_unused Examples.LogAdd_unused
    Examples.nth_element_sort 1 Examples.final_string_clat
  = Ok Examples.final_string_clat
  ∧ CompactLatticeDepthPerFrame Examples.final_string_clat = Ok [2%Z]
  ∧ ¬ (2 ≤ 1)%Z.
Proof. split; [reflexivity|]. split; [reflexivity|lia]. Qed.

(* ================================================================== *)
(** ** Depth limiting: the records of the arcs *)

Lemma records_grow_refl r : records_grow r r.
Proof. done. Qed.

Lemma records_grow_trans r1 r2 r3 :
  records_grow r1 r2 → records_grow r2 r3 → records_grow r1 r3.
Proof.
  intros [Hl1 H1] [Hl2 H2]. split; [congruence|].
  intros t s pos Hr. by apply H2, H1.
Qed.

Lemma has_record_grow r1 r2 t s pos :
  has_record r1 t s pos → records_grow r1 r2 → has_record r2 t s pos.
Proof. intros Hr [_ Hg]. by apply Hg. Qed.

Lemma records_push (records records' : list (list LatticeArcRecord.t)) (tz : Z)
  (rec : LatticeArcRecord.t) :
  vupdZ records tz (fun l => l ++ [rec]) = Ok records' →
  records_grow records records'
  ∧ has_record records' (Z.to_nat tz) (LatticeArcRecord.state rec)
               (LatticeArcRecord.arc rec).
Proof.
  unfold vupdZ. destruct (tz <? 0)%Z; [done|]. intros Hf.
  apply bind_Ok in Hf as (x & Hx & Hf). apply vget_Ok in Hx.
  apply vset_Ok in Hf as [Hlt ->]. split.
  - split; [by rewrite length_insert|].
    intros t s pos (l & r & Hl & Hr & Hs & Hp).
    destruct (decide (t = Z.to_nat tz)) as [-> | Hne].
    + exists (x ++ [rec]), r. rewrite list_lookup_insert_eq by done.
      rewrite Hx in Hl. injection Hl as ->.
      split; [done|]. split; [|done]. apply elem_of_app. by left.
    + exists l, r. by rewrite list_lookup_insert_ne.
  - exists (x ++ [rec]), rec. rewrite list_lookup_insert_eq by done.
    split; [done|]. split; [|done]. apply elem_of_app. right. apply list_elem_of_here.
Qed.

Lemma limit_depth_arc_spec (T : Z) (best_prob : xnum) (alpha beta : list xnum)
  (times : list Z) (s : nat) (records records' : list (list LatticeArcRecord.t))
  (pos : nat) (a : CompactLatticeArc) :
  limit_depth_arc T best_prob alpha beta times s records (pos, a) = Ok records' →
  records_grow records records'
  ∧ ∀ t, covers (time_of times s) (arc_frames a) t = true →
         has_record records' t s pos.
Proof.
  unfold limit_depth_arc. intros Hf.
  apply bind_Ok in Hf as (a_s & _ & Hf). apply bind_Ok in Hf as (b_n & _ & Hf).
  apply bind_Ok in Hf as (u & _ & Hf).
  apply bind_Ok in Hf as (start_t & Hst & Hf). apply vget_Ok in Hst.
  set (rec := LatticeArcRecord.mk _ s pos) in Hf.
  apply (foldM_mono records_grow
           (fun tz r => has_record r (Z.to_nat tz) s pos) _
           records_grow_refl records_grow_trans) in Hf.
  - destruct Hf as [Hg Hall]. split; [done|]. intros t Hc.
    apply covers_true in Hc. unfold time_of in Hc. rewrite Hst in Hc. simpl in Hc.
    rewrite <- (Nat2Z.id t). apply Hall. apply elem_of_seqZ. done.
  - intros tz r r' Hr Hg. by eapply has_record_grow.
  - intros tz r1 r2 _ _ Hstep. apply bind_Ok in Hstep as (u' & _ & Hstep).
    by apply records_push in Hstep.
Qed.

Lemma limit_depth_records_spec (clat : CompactLattice) (T : Z) (best_prob : xnum)
  (alpha beta : list xnum) (times : list Z) (records : list (list LatticeArcRecord.t)) :
  limit_depth_records clat T best_prob alpha beta times = Ok records →
  length records = Z.to_nat T
  ∧ ∀ s pos a t, Arcs clat s !! pos = Some a →
                 covers (time_of times s) (arc_frames a) t = true →
                 has_record records t s pos.
Proof.
  unfold limit_depth_records. intros Hf.
  apply (foldM_mono records_grow
           (fun s r => ∀ pos a t, Arcs clat s !! pos = Some a →
                                  covers (time_of times s) (arc_frames a) t = true →
                                  has_record r t s pos) _
           records_grow_refl records_grow_trans) in Hf.
  - destruct Hf as [[Hl _] Hall]. split; [by rewrite Hl, length_replicate|].
    intros s pos a t Ha Hc. refine (Hall s _ pos a t Ha Hc).
    apply elem_of_seq. split; [lia|]. simpl.
    eapply Arcs_in_range. by eapply list_elem_of_lookup_2.
  - intros s r r' HQ Hg pos a t Ha Hc. eapply has_record_grow; [|done]. by eapply HQ.
  - intros s r1 r2 _ _ Hstep.
    apply (foldM_mono records_grow
             (fun pa r => ∀ t, covers (time_of times s) (arc_frames pa.2) t = true →
                               has_record r t s pa.1) _
             records_grow_refl records_grow_trans) in Hstep.
    + destruct Hstep as [Hg Hall]. split; [done|].
      intros pos a t Ha Hc. apply (Hall (pos, a)); [|done].
      apply elem_of_lookup_imap. by exists pos, a.
    + intros pa r r' HQ Hg t Hc. eapply has_record_grow; [|done]. by apply HQ.
    + intros [pos a] r3 r4 _ _ Hstep'. simpl.
      by apply limit_depth_arc_spec in Hstep'.
Qed.

(* ================================================================== *)
(** ** Depth limiting: the arcs redirected to the dead state *)

Lemma NumStates_SetArcs (f : CompactLattice) s l : NumStates (SetArcs f s l) = NumStates f.
Proof. unfold NumStates, SetArcs. simpl. by rewrite length_alter. Qed.

Lemma Final_SetArcs (f : CompactLattice) s l s' : Final (SetArcs f s l) s' = Final f s'.
Proof.
  unfold Final, SetArcs. simpl. rewrite list_lookup_alter.
  case_decide as E; [subst s'|done]. by destruct (states f !! s).
Qed.

Lemma Arcs_SetArcs_eq (f : CompactLattice) s l :
  (s < NumStates f)%nat → Arcs (SetArcs f s l) s = l.
Proof.
  intros Hs. unfold Arcs, SetArcs. simpl. rewrite list_lookup_alter.
  rewrite decide_True by done.
  destruct (lookup_lt_is_Some_2 (states f) s Hs) as [d ->]. done.
Qed.

Lemma Arcs_SetArcs_ne (f : CompactLattice) s l s' :
  s' ≠ s → Arcs (SetArcs f s l) s' = Arcs f s'.
Proof.
  intros Hs. unfold Arcs, SetArcs. simpl. rewrite list_lookup_alter.
  by rewrite decide_False by done.
Qed.

Lemma arc_killed_refl dead a : arc_killed dead a a.
Proof. unfold arc_killed. auto. Qed.

Lemma arc_killed_trans dead a1 a2 a3 :
  arc_killed dead a1 a2 → arc_killed dead a2 a3 → arc_killed dead a1 a3.
Proof.
  intros (? & ? & ? & Hn1) (? & ? & ? & Hn2).
  do 3 (split; [congruence|]). destruct Hn2 as [Hn2|Hn2]; [|by right].
  rewrite Hn2. done.
Qed.

Lemma killed_from_refl dead l : killed_from dead l l.
Proof.
  do 2 (split; [done|]). intros s. do 2 (split; [done|]).
  intros pos a Ha. exists a. split; [done|apply arc_killed_refl].
Qed.

Lemma killed_from_trans dead l1 l2 l3 :
  killed_from dead l1 l2 → killed_from dead l2 l3 → killed_from dead l1 l3.
Proof.
  intros (Hs1 & Hn1 & H1) (Hs2 & Hn2 & H2).
  do 2 (split; [congruence|]). intros s.
  destruct (H1 s) as (Hf1 & Hl1 & Ha1), (H2 s) as (Hf2 & Hl2 & Ha2).
  do 2 (split; [congruence|]).
  intros pos a3 Ha3. destruct (Ha2 _ _ Ha3) as (a2 & Ha2' & Hk2).
  destruct (Ha1 _ _ Ha2') as (a1 & Ha1' & Hk1).
  exists a1. split; [done|by eapply arc_killed_trans].
Qed.

(** An arc that leads to the dead state keeps doing so. *)
Lemma killed_dead_stays dead l1 l2 s pos a :
  killed_from dead l1 l2 → Arcs l1 s !! pos = Some a → nextstate a = dead →
  ∃ a', Arcs l2 s !! pos = Some a' ∧ nextstate a' = dead.
Proof.
  intros (_ & _ & Hk) Ha Hd. destruct (Hk s) as (_ & Hl & Harcs).
  destruct (lookup_lt_is_Some_2 (Arcs l2 s) pos) as [a' Ha'].
  { rewrite Hl. by eapply lookup_lt_Some. }
  exists a'. split; [done|].
  destruct (Harcs _ _ Ha') as (a0 & Ha0 & _ & _ & _ & Hn).
  rewrite Ha in Ha0. injection Ha0 as <-. destruct Hn; congruence.
Qed.

Lemma frame_capped_killed dead times D t l1 l2 :
  frame_capped dead times D t l1 → killed_from dead l1 l2 →
  frame_capped dead times D t l2.
Proof.
  intros (K & HK & Hin) (_ & _ & Hk). exists K. split; [done|].
  intros s pos a' Ha' Hc Hlive.
  destruct (Hk s) as (_ & _ & Harcs).
  destruct (Harcs _ _ Ha') as (a & Ha & _ & _ & Hw & Hn).
  apply (Hin s pos a Ha).
  - unfold arc_frames in *. by rewrite <- Hw.
  - destruct Hn as [Hn|Hn]; congruence.
Qed.

Lemma limit_depth_kill_spec (dead : nat) (clat clat' : CompactLattice)
  (r : LatticeArcRecord.t) :
  limit_depth_kill dead clat r = Ok clat' →
  killed_from dead clat clat'
  ∧ ∃ a, Arcs clat' (LatticeArcRecord.state r) !! LatticeArcRecord.arc r = Some a
         ∧ nextstate a = dead.
Proof.
  unfold limit_depth_kill. intros Hf.
  apply bind_Ok in Hf as (a & Ha & Hf). apply vget_Ok in Ha.
  set (s := LatticeArcRecord.state r) in *.
  set (pos := LatticeArcRecord.arc r) in *.
  case_bool_decide as Hn; inv_ok.
  - assert (Hs : (s < NumStates clat)%nat).
    { eapply Arcs_in_range. by eapply list_elem_of_lookup_2. }
    pose proof (lookup_lt_Some _ _ _ Ha) as Hpos.
    split.
    + split; [done|]. split; [apply NumStates_SetArcs|].
      intros s'. split; [apply Final_SetArcs|].
      destruct (decide (s' = s)) as [-> | Hne].
      * rewrite Arcs_SetArcs_eq by done. split; [by rewrite length_insert|].
        intros pos' a' Ha'. destruct (decide (pos' = pos)) as [-> | Hnp].
        -- rewrite list_lookup_insert_eq in Ha' by done. injection Ha' as <-.
           exists a. split; [done|]. unfold arc_killed. simpl. auto.
        -- rewrite list_lookup_insert_ne in Ha' by done.
           exists a'. split; [done|apply arc_killed_refl].
      * rewrite Arcs_SetArcs_ne by done. split; [done|].
        intros pos' a' Ha'. exists a'. split; [done|apply arc_killed_refl].
    + eexists. rewrite Arcs_SetArcs_eq by done.
      rewrite list_lookup_insert_eq by done. done.
  - split; [apply killed_from_refl|]. exists a. split; [done|].
    by destruct (decide (nextstate a = dead)).
Qed.

Section LimitDepthFrames.
Variable nth_element : nat → list LatticeArcRecord.t → list LatticeArcRecord.t.
Hypothesis Hperm : ∀ n l, nth_element n l ≡ₚ l.
Variables (dead : nat) (times : list Z) (D : Z).
Variable records : list (list LatticeArcRecord.t).
Variable L0 : CompactLattice.
Hypothesis HD : (0 ≤ D)%Z.
Hypothesis Hrec : ∀ s pos a t,
  Arcs L0 s !! pos = Some a → covers (time_of times s) (arc_frames a) t = true →
  has_record records t s pos.

(** The record of an arc of [clat] that covers frame [t]. *)
Lemma killed_has_record (clat : CompactLattice) (t s pos : nat) (a : CompactLatticeArc)
  (l : list LatticeArcRecord.t) :
  killed_from dead L0 clat → records !! t = Some l →
  Arcs clat s !! pos = Some a → covers (time_of times s) (arc_frames a) t = true →
  ∃ r, r ∈ l ∧ LatticeArcRecord.state r = s ∧ LatticeArcRecord.arc r = pos.
Proof.
  intros (_ & _ & Hk) Hl Ha Hc. destruct (Hk s) as (_ & _ & Harcs).
  destruct (Harcs _ _ Ha) as (a0 & Ha0 & _ & _ & Hw & _).
  destruct (Hrec s pos a0 t Ha0) as (l' & r & Hl' & Hr & Hs & Hp).
  { unfold arc_frames in *. by rewrite <- Hw. }
  rewrite Hl in Hl'. injection Hl' as <-. by exists r.
Qed.

Lemma limit_depth_frame_spec (clat clat' : CompactLattice) (t : nat) :
  killed_from dead L0 clat →
  limit_depth_frame nth_element D dead records clat t = Ok clat' →
  killed_from dead clat clat' ∧ frame_capped dead times D t clat'.
Proof.
  intros H0 Hf. unfold limit_depth_frame in Hf.
  apply bind_Ok in Hf as (l & Hl & Hf). apply vget_Ok in Hl.
  destruct (D <? Z.of_nat (length l))%Z eqn:Hsize.
  - apply Z.ltb_lt in Hsize.
    set (cutoff := Z.to_nat (Z.of_nat (length l) - D)) in *.
    set (sorted := nth_element cutoff l) in *.
    apply (foldM_mono (killed_from dead)
             (fun index c => ∀ r, sorted !! index = Some r →
                ∃ a, Arcs c (LatticeArcRecord.state r) !! LatticeArcRecord.arc r = Some a
                     ∧ nextstate a = dead) _
             (killed_from_refl dead) (killed_from_trans dead)) in Hf.
    + destruct Hf as [Hk Hdead]. split; [done|].
      exists ((fun r => (LatticeArcRecord.state r, LatticeArcRecord.arc r))
                <$> drop cutoff sorted).
      split.
      { rewrite length_fmap, length_drop. unfold sorted.
        rewrite (Permutation_length (Hperm cutoff l)). lia. }
      intros s pos a Ha Hc Hlive.
      destruct (killed_has_record clat' t s pos a l) as (r & Hr & Hs & Hp);
        [by eapply killed_from_trans|done..|].
      rewrite <- (Hperm cutoff l) in Hr. fold sorted in Hr.
      rewrite <- (take_drop cutoff sorted) in Hr.
      apply elem_of_app in Hr as [Hr|Hr].
      * apply list_elem_of_lookup in Hr as [index Hi].
        apply lookup_take_Some in Hi as [Hi Hlt].
        destruct (Hdead index) with (r := r) as (a' & Ha' & Hd); [|done|].
        { apply elem_of_seq. lia. }
        rewrite Hs, Hp, Ha in Ha'. injection Ha' as <-. done.
      * apply list_elem_of_fmap. exists r. by rewrite Hs, Hp.
    + intros index c c' HQ Hk r Hr. destruct (HQ r Hr) as (a & Ha & Hd).
      by eapply killed_dead_stays.
    + intros index c1 c2 _ _ Hstep.
      apply bind_Ok in Hstep as (r & Hr & Hstep). apply vget_Ok in Hr.
      apply limit_depth_kill_spec in Hstep as [Hk Hd]. split; [done|].
      intros r' Hr'. rewrite Hr in Hr'. by injection Hr' as <-.
  - apply Z.ltb_ge in Hsize. inv_ok. split; [apply killed_from_refl|].
    exists ((fun r => (LatticeArcRecord.state r, LatticeArcRecord.arc r)) <$> l).
    split; [by rewrite length_fmap|].
    intros s pos a Ha Hc _.
    destruct (killed_has_record clat t s pos a l) as (r & Hr & Hs & Hp); [done..|].
    apply list_elem_of_fmap. exists r. by rewrite Hs, Hp.
Qed.

Lemma limit_depth_frames_spec (clat : CompactLattice) (n : nat) :
  foldM (limit_depth_frame nth_element D dead records) L0 (seq 0 n) = Ok clat →
  killed_from dead L0 clat
  ∧ ∀ t, (t < n)%nat → frame_capped dead times D t clat.
Proof.
  intros Hf.
  apply (foldM_mono (killed_from dead) (fun t c => frame_capped dead times D t c) _
           (killed_from_refl dead) (killed_from_trans dead)) in Hf.
  - destruct Hf as [Hk Hall]. split; [done|].
    intros t Ht. apply Hall, elem_of_seq. lia.
  - intros t c c' HQ Hk. by eapply frame_capped_killed.
  - intros t c1 c2 _ Hk Hstep. by apply limit_depth_frame_spec.
Qed.

End LimitDepthFrames.

Lemma Arcs_AddState (f : CompactLattice) (s : nat) : Arcs (AddState f).1 s = Arcs f s.
Proof.
  unfold Arcs, AddState. simpl.
  destruct (decide (s < length (states f))%nat) as [Hlt|Hge].
  - by rewrite lookup_app_l.
  - rewrite (lookup_ge_None_2 (states f) s) by lia.
    rewrite lookup_app_r by lia.
    by destruct (s - length (states f))%nat as [|k].
Qed.

Lemma Final_AddState (f : CompactLattice) (s : nat) : Final (AddState f).1 s = Final f s.
Proof.
  unfold Final, AddState. simpl.
  destruct (decide (s < length (states f))%nat) as [Hlt|Hge].
  - by rewrite lookup_app_l.
  - rewrite (lookup_ge_None_2 (states f) s) by lia.
    rewrite lookup_app_r by lia.
    by destruct (s - length (states f))%nat as [|k].
Qed.

Section LimitDepthPrune.
Variable LogAdd : xnum → xnum → xnum.
Variable nth_element : nat → list LatticeArcRecord.t → list LatticeArcRecord.t.
Hypothesis Hperm : ∀ n l, nth_element n l ≡ₚ l.

(** The lattice before [Connect]: arcs of the input are redirected to the
    new state, and at most [D] arcs per frame are left as they were. *)
Lemma limit_depth_prune_spec (D : Z) (clat pruned : CompactLattice) :
  (1 ≤ D < 2 ^ 31)%Z →
  limit_depth_prune LogAdd nth_element D clat = Ok pruned →
  ∃ T times,
    CompactLatticeStateTimes clat = Ok (T, times)
    ∧ killed_from (NumStates clat) (AddState clat).1 pruned
    ∧ ∀ t, frame_capped (NumStates clat) times D t pruned.
Proof.
  intros HD Hf. unfold limit_depth_prune in Hf.
  apply bind_Ok in Hf as ([T times] & Htimes & Hf).
  apply bind_Ok in Hf as ([[best_prob alpha] beta] & _ & Hf).
  apply bind_Ok in Hf as (records & Hrec & Hf).
  apply limit_depth_records_spec in Hrec as [Hlen Hrec].
  unfold AddState in Hf. unfold to_size_t in Hf.
  rewrite Z.mod_small in Hf by lia.
  apply (limit_depth_frames_spec nth_element Hperm (NumStates clat) times D records
           (AddState clat).1) in Hf; [|lia|].
  - destruct Hf as [Hk Hcap]. exists T, times. do 2 (split; [done|]).
    intros t. destruct (decide (t < Z.to_nat T)%nat) as [Hlt|Hge]; [by apply Hcap|].
    exists []. split; [simpl; lia|].
    intros s pos a Ha Hc _. exfalso.
    destruct Hk as (_ & _ & Hk). destruct (Hk s) as (_ & _ & Harcs).
    destruct (Harcs _ _ Ha) as (a0 & Ha0 & _ & _ & Hw & _).
    rewrite Arcs_AddState in Ha0.
    destruct (Hrec s pos a0 t Ha0) as (l & r & Hl & _).
    { unfold arc_frames in *. by rewrite <- Hw. }
    apply lookup_lt_Some in Hl. lia.
  - intros s pos a t Ha Hc. rewrite Arcs_AddState in Ha. by eapply Hrec.
Qed.

End LimitDepthPrune.

(* ================================================================== *)
(** ** Depth limiting: the lattice after [Connect] *)

Section LimitDepthConnect.
Variable clat : CompactLattice.
Variable pruned : CompactLattice.
Variable times : list Z.
Hypothesis Hsorted : top_sorted clat = true.
Hypothesis Hstart : Start clat = Some 0%nat.
Hypothesis Htimes : clat_times_inv clat (NumStates clat) times.
Hypothesis Hkilled : killed_from (NumStates clat) (AddState clat).1 pruned.

Lemma pruned_arc_origin (s pos : nat) (a' : CompactLatticeArc) :
  Arcs pruned s !! pos = Some a' →
  ∃ a, Arcs clat s !! pos = Some a ∧ arc_killed (NumStates clat) a a'.
Proof.
  intros Ha'. destruct Hkilled as (_ & _ & Hk). destruct (Hk s) as (_ & _ & Harcs).
  destruct (Harcs _ _ Ha') as (a & Ha & Hka). rewrite Arcs_AddState in Ha. eauto.
Qed.

Lemma pruned_dead_Arcs : Arcs pruned (NumStates clat) = [].
Proof.
  destruct Hkilled as (_ & _ & Hk). destruct (Hk (NumStates clat)) as (_ & Hl & _).
  rewrite Arcs_AddState in Hl. apply nil_length_inv. rewrite Hl.
  unfold Arcs. by rewrite (lookup_ge_None_2 (states clat)).
Qed.

Lemma pruned_dead_Final : is_final pruned (NumStates clat) = false.
Proof.
  destruct Hkilled as (_ & _ & Hk). destruct (Hk (NumStates clat)) as (Hf & _).
  rewrite Final_AddState in Hf. unfold is_final. rewrite Hf.
  unfold Final. by rewrite (lookup_ge_None_2 (states clat)).
Qed.

Lemma pruned_Start : Start pruned = Some 0%nat.
Proof. destruct Hkilled as (Hs & _). by rewrite Hs. Qed.

Lemma pruned_sorted : top_sorted pruned = true.
Proof.
  apply top_sorted_intro. intros s a' Ha'.
  apply list_elem_of_lookup in Ha' as [pos Ha'].
  destruct (pruned_arc_origin s pos a' Ha') as (a & Ha & _ & _ & _ & Hn).
  apply list_elem_of_lookup_2 in Ha.
  pose proof (top_sorted_arcs clat s a Hsorted Ha).
  pose proof (Arcs_in_range clat s a Ha). destruct Hn; lia.
Qed.

Lemma dead_state_not_kept : NumStates clat ∉ connect_keep pruned.
Proof.
  intros Hk. apply kept_on_successful_path in Hk
    as (s0 & p & q & t & _ & _ & Hq & Hfin).
  inversion Hq as [|? a ? ? Ha _]; subst.
  - by rewrite pruned_dead_Final in Hfin.
  - rewrite pruned_dead_Arcs in Ha. by apply elem_of_nil in Ha.
Qed.

(** The time of the state at the end of a path of the pruned lattice that
    does not end in the dead state. *)
Lemma pruned_path_times (s t : nat) (p : list CompactLatticeArc) (c : Z) :
  path pruned s p t → t ≠ NumStates clat → times !! s = Some c → (0 ≤ c)%Z →
  times !! t = Some (c + path_frames p)%Z.
Proof.
  intros Hp Ht. revert c.
  induction Hp as [s|s a' p t Ha' Hp IH]; intros c Hc Hge; simpl.
  - by rewrite Z.add_0_r.
  - apply list_elem_of_lookup in Ha' as [pos Ha'].
    destruct (pruned_arc_origin s pos a' Ha') as (a & Ha & _ & _ & Hw & Hn).
    assert (Hlive : nextstate a' ≠ NumStates clat).
    { intros Hd. rewrite Hd in Hp. inversion Hp as [|? b ? ? Hb _]; subst; [done|].
      rewrite pruned_dead_Arcs in Hb. by apply elem_of_nil in Hb. }
    destruct Hn as [Hn|Hn]; [|done].
    rewrite Z.add_assoc. apply IH; [done| |lia].
    destruct Htimes as (_ & _ & Harcs). rewrite Hn.
    unfold arc_frames at 1. rewrite Hw. fold (arc_frames a).
    apply list_elem_of_lookup_2 in Ha.
    apply (Harcs s a c); [by eapply Arcs_in_range|done..].
Qed.

Lemma renumbered_path_frames (keep : list nat) (p p' : list CompactLatticeArc) :
  Forall2 (renumbered keep) p p' → path_frames p' = path_frames p.
Proof.
  induction 1 as [|a a' p p' (_ & _ & Hw & _) _ IH]; simpl; [done|].
  unfold arc_frames. by rewrite Hw, IH.
Qed.

(** A state of the connected lattice has the time of the state it comes
    from. *)
Lemma Connect_times (T' : Z) (times' : list Z) (j s : nat) :
  CompactLatticeStateTimes (Connect pruned) = Ok (T', times') →
  connect_keep pruned !! j = Some s →
  ∃ v, times' !! j = Some v ∧ times !! s = Some v ∧ (0 ≤ v)%Z.
Proof.
  intros Ht' Hj. apply clat_state_times_ok in Ht' as (_ & Hst' & Hinv').
  assert (Hk0 : connect_keep pruned !! 0%nat = Some 0%nat).
  { unfold Connect in Hst'. simpl in Hst'. rewrite pruned_Start in Hst'.
    simpl in Hst'. by apply index_of_lookup. }
  pose proof (list_elem_of_lookup_2 _ _ _ Hj) as Hs.
  destruct (kept_on_successful_path pruned s Hs)
    as (s0 & p & q & t & Hs0 & Hp & Hq & Hfin).
  rewrite pruned_Start in Hs0. injection Hs0 as <-.
  destruct (Connect_path_intro pruned 0%nat p s 0%nat Hp Hk0)
    as (p' & j' & Hj' & Hp' & Hren).
  { intros p1 p2 u -> Hp1.
    destruct (path_app_inv pruned 0%nat p1 p2 s Hp) as (u' & Hp1' & Hp2).
    assert (u' = u) as -> by (by eapply path_end_unique).
    eapply (successful_path_kept pruned 0%nat p1 u (p2 ++ q) t);
      [apply pruned_sorted|apply pruned_Start|done| |done].
    by eapply path_app. }
  assert (j' = j) as ->.
  { eapply NoDup_lookup; [apply connect_keep_NoDup|done..]. }
  exists (path_frames p). destruct Htimes as (_ & H0 & _). pose proof Hinv' as (_ & H0' & _).
  split; [|split; [|apply path_frames_nonneg]].
  - rewrite <- (renumbered_path_frames _ _ _ Hren), <- (Z.add_0_l (path_frames p')).
    by eapply (clat_times_path (Connect pruned) times' 0%nat j p' 0%Z).
  - rewrite <- (Z.add_0_l (path_frames p)).
    apply (pruned_path_times 0%nat s p 0%Z); [done| |done|lia].
    intros ->. by apply dead_state_not_kept.
Qed.

End LimitDepthConnect.

(* ================================================================== *)
(** ** Depth limiting: counting the arcs of a frame *)

Lemma filter_omap_length {A B : Type} (g : A → option B) (P : B → Prop) (Q : A → Prop)
  `{∀ b, Decision (P b)} `{∀ a, Decision (Q a)} (l : list A) :
  (∀ a b, a ∈ l → g a = Some b → P b → Q a) →
  (length (filter P (omap g l)) ≤ length (filter Q l))%nat.
Proof.
  induction l as [|a l IH]; intros Hpq; simpl; [done|].
  assert (IH' : (length (filter P (omap g l)) ≤ length (filter Q l))%nat).
  { apply IH. intros a' b Ha'. apply Hpq. by apply list_elem_of_further. }
  change (omap g l) with (list_omap A B g l) in IH'.
  rewrite (filter_cons Q). destruct (g a) as [b|] eqn:Hg.
  - rewrite filter_cons. destruct (decide (P b)) as [Hp|Hp].
    + rewrite decide_True by (eapply Hpq; [apply list_elem_of_here|done..]).
      simpl. lia.
    + destruct (decide (Q a)); simpl; lia.
  - destruct (decide (Q a)); simpl; lia.
Qed.

Lemma filter_imap_length {A : Type} (Q : A → Prop) `{∀ a, Decision (Q a)}
  (h : nat → nat) (l : list A) :
  length (filter (fun pa : nat * A => Q pa.2) (imap (fun i a => (h i, a)) l))
  = length (filter Q l).
Proof.
  revert h. induction l as [|a l IH]; intros h; [done|].
  rewrite imap_cons, !filter_cons. simpl.
  specialize (IH (h ∘ S)).
  change (imap ((fun i a0 => (h i, a0)) ∘ S) l)
    with (imap (fun i a0 => ((h ∘ S) i, a0)) l).
  destruct (decide (Q a)); cbn [length]; by rewrite IH.
Qed.

Lemma length_bind_sum {A B : Type} (f : A → list B) (l : list A) :
  length (l ≫= f) = sum_list ((fun x => length (f x)) <$> l).
Proof.
  induction l as [|x l IH]; [done|].
  rewrite bind_cons, length_app, IH. done.
Qed.

Lemma sum_seq_le (g h : nat → nat) (keep : list nat) :
  (∀ j s, keep !! j = Some s → (g j ≤ h s)%nat) →
  (sum_list (g <$> seq 0 (length keep)) ≤ sum_list (h <$> keep))%nat.
Proof.
  induction keep as [|x keep IH] using rev_ind; intros Hgh; [done|].
  rewrite length_app. simpl. rewrite Nat.add_1_r, seq_S, !fmap_app.
  rewrite !sum_list_with_app. simpl.
  assert (g (length keep) ≤ h x)%nat.
  { apply Hgh. by rewrite lookup_app_r, Nat.sub_diag by done. }
  assert (sum_list (g <$> seq 0 (length keep)) ≤ sum_list (h <$> keep))%nat.
  { apply IH. intros j s Hj. apply Hgh. by apply lookup_app_l_Some. }
  unfold fmap in *. lia.
Qed.

Section LiveArcs.
Variables (dead : nat) (times : list Z) (t : nat) (clat : CompactLattice).

Lemma elem_of_live_arcs (s : nat) (x : nat * nat) :
  x ∈ live_arcs dead times t clat s ↔
  ∃ pos a, x = (s, pos) ∧ Arcs clat s !! pos = Some a
           ∧ covers (time_of times s) (arc_frames a) t = true
           ∧ nextstate a ≠ dead.
Proof.
  unfold live_arcs. rewrite list_elem_of_fmap. split.
  - intros ([pos a] & -> & Hin). apply list_elem_of_filter in Hin as [[Hc Hl] Hin].
    apply elem_of_lookup_imap in Hin as (i & b & Heq & Hb). simplify_eq.
    by exists i, b.
  - intros (pos & a & -> & Ha & Hc & Hl). exists (pos, a). split; [done|].
    apply list_elem_of_filter. split; [done|].
    apply elem_of_lookup_imap. by exists pos, a.
Qed.

Lemma length_live_arcs (s : nat) :
  length (live_arcs dead times t clat s)
  = length (filter (fun a => covers (time_of times s) (arc_frames a) t = true
                             ∧ nextstate a ≠ dead) (Arcs clat s)).
Proof.
  unfold live_arcs. rewrite length_fmap.
  exact (filter_imap_length
           (fun a => covers (time_of times s) (arc_frames a) t = true
                     ∧ nextstate a ≠ dead) id (Arcs clat s)).
Qed.

Lemma NoDup_live_arcs (s : nat) : NoDup (live_arcs dead times t clat s).
Proof.
  unfold live_arcs. apply NoDup_fmap_2_strong.
  - intros [i a] [j b] Hi Hj Heq. simpl in Heq. injection Heq as <-.
    apply list_elem_of_filter in Hi as [_ Hi], Hj as [_ Hj].
    apply elem_of_lookup_imap in Hi as (i' & a' & Heq & Ha).
    apply elem_of_lookup_imap in Hj as (j' & b' & Heq' & Hb).
    simplify_eq. done.
  - apply NoDup_filter. apply (NoDup_fmap_1 fst).
    rewrite fmap_imap. unfold compose. simpl.
    change (NoDup (imap (fun j _ => id j) (Arcs clat s))).
    rewrite (imap_seq_0 (Arcs clat s) id), list_fmap_id. apply NoDup_seq.
Qed.

(** The arcs left at a frame, over a list of distinct states, are at most
    [D]. *)
Lemma live_arcs_capped (D : Z) (keep : list nat) :
  frame_capped dead times D t clat → NoDup keep →
  (Z.of_nat (length (keep ≫= live_arcs dead times t clat)) ≤ D)%Z.
Proof.
  intros (K & HK & Hin) Hnd.
  assert (Hsub : (keep ≫= live_arcs dead times t clat) ⊆+ K).
  { apply NoDup_submseteq.
    - apply NoDup_bind; [|intros; apply NoDup_live_arcs|done].
      intros s1 s2 y _ _ H1 H2.
      apply elem_of_live_arcs in H1 as (? & ? & -> & _).
      apply elem_of_live_arcs in H2 as (? & ? & Heq & _). by injection Heq.
    - intros x Hx. apply list_elem_of_bind in Hx as (s & Hx & _).
      apply elem_of_live_arcs in Hx as (pos & a & -> & Ha & Hc & Hl).
      by eapply Hin. }
  apply submseteq_length in Hsub. lia.
Qed.

End LiveArcs.

Section LimitDepthCount.
Variable clat : CompactLattice.
Variable pruned : CompactLattice.
Variable times : list Z.
Hypothesis Hsorted : top_sorted clat = true.
Hypothesis Hstart : Start clat = Some 0%nat.
Hypothesis Htimes : clat_times_inv clat (NumStates clat) times.
Hypothesis Hkilled : killed_from (NumStates clat) (AddState clat).1 pruned.

(** The arcs of the connected lattice that cover a frame are among the arcs
    left at that frame. *)
Lemma Connect_arc_depth (D T' : Z) (times' : list Z) (t : nat) :
  CompactLatticeStateTimes (Connect pruned) = Ok (T', times') →
  frame_capped (NumStates clat) times D t pruned →
  (Z.of_nat (arc_depth (Connect pruned) times' t) ≤ D)%Z.
Proof.
  intros Ht' Hcap.
  eapply Z.le_trans;
    [|apply (live_arcs_capped (NumStates clat) times t pruned D (connect_keep pruned)
               Hcap (connect_keep_NoDup pruned))].
  rewrite length_bind_sum. apply Nat2Z.inj_le.
  unfold arc_depth. rewrite Connect_NumStates. apply sum_seq_le.
  intros j s Hj. rewrite length_live_arcs. unfold state_arc_depth.
  rewrite (Connect_Arcs pruned j s Hj).
  apply filter_omap_length. intros a b Ha Hren Hc.
  apply renumber_arc_Some in Hren as (_ & _ & Hw & Hnext).
  destruct (Connect_times clat pruned times Hsorted Hstart Htimes Hkilled
              T' times' j s Ht' Hj) as (v & Hv' & Hv & _).
  split.
  - unfold time_of, arc_frames in *. rewrite Hv' in Hc. rewrite Hv. by rewrite <- Hw.
  - intros Hd. apply (dead_state_not_kept clat pruned Hkilled).
    rewrite <- Hd. by eapply list_elem_of_lookup_2.
Qed.

End LimitDepthCount.

Lemma final_depth_no_strings (clat : CompactLattice) (times : list Z) (t : nat) :
  (∀ s, String (Final clat s) = []) → final_depth clat times t = 0%nat.
Proof.
  intros Hs. unfold final_depth.
  induction (seq 0 (NumStates clat)) as [|s l IH]; [done|].
  simpl. unfold fmap in IH. rewrite IH.
  unfold state_final_depth. by rewrite Hs, covers_0.
Qed.

Lemma depth_per_frame_times (clat : CompactLattice) (depth : list Z) (t : nat) (d : Z) :
  CompactLatticeDepthPerFrame clat = Ok depth → depth !! t = Some d →
  ∃ T, CompactLatticeStateTimes clat = Ok (T, state_times_of clat).
Proof.
  unfold CompactLatticeDepthPerFrame, state_times_of.
  destruct (top_sorted clat); [|done]. cbn [negb].
  destruct (Start clat); [|by intros; simplify_eq].
  destruct (CompactLatticeStateTimes clat) as [[T times]|]; [|done].
  intros _ _. by exists T.
Qed.

Section LimitDepthTheorem.
Variable TopSort : ∀ W : Type, VectorFst W → option (VectorFst W).
Variable LogAdd : xnum → xnum → xnum.
Variable nth_element : nat → list LatticeArcRecord.t → list LatticeArcRecord.t.

(** C5, amended.  [CompactLatticeLimitDepth] limits the arcs: for a depth
    [D] of at least 1 (an [int32]), and [std::nth_element] rearranging the
    records, at every frame [t] of the lattice it returns at most [D] arcs
    have a frame string that covers [t].  The entry of
    [CompactLatticeDepthPerFrame] at [t] adds to the number of these arcs
    the number of final weights whose strings cover [t], which are not
    limited: it is at most [D] plus that number, and at most [D] when no
    final weight of the result has a string. *)
Theorem limit_depth_arc_cap (D : Z) (clat clat' : CompactLattice) (depth : list Z) :
  (1 ≤ D < 2 ^ 31)%Z →
  (∀ n l, nth_element n l ≡ₚ l) →
  CompactLatticeLimitDepth TopSort LogAdd nth_element D clat = Ok clat' →
  CompactLatticeDepthPerFrame clat' = Ok depth →
  ∀ t d, depth !! t = Some d →
    (Z.of_nat (arc_depth clat' (state_times_of clat') t) ≤ D)%Z
    ∧ d = Z.of_nat (arc_depth clat' (state_times_of clat') t
                    + final_depth clat' (state_times_of clat') t)
    ∧ (d ≤ D + Z.of_nat (final_depth clat' (state_times_of clat') t))%Z
    ∧ ((∀ s, String (Final clat' s) = []) → (d ≤ D)%Z).
Proof.
  intros HD Hperm Hlimit Hdepth t d Hd.
  pose proof (depth_per_frame_spec clat' depth t d Hdepth Hd) as Heq.
  destruct (depth_per_frame_times clat' depth t d Hdepth Hd) as [T' Ht'].
  assert (Hcap : (Z.of_nat (arc_depth clat' (state_times_of clat') t) ≤ D)%Z).
  { unfold CompactLatticeLimitDepth in Hlimit.
    destruct (Start clat) as [s0|] eqn:Hs0.
    - apply bind_Ok in Hlimit as (clat1 & _ & Hlimit).
      apply bind_Ok in Hlimit as (pruned & Hprune & Hlimit).
      destruct (limit_depth_prune_spec LogAdd nth_element Hperm D clat1 pruned HD Hprune)
        as (T & times & Htimes & Hkilled & Hframes).
      apply clat_state_times_ok in Htimes as (Hsorted & Hstart & Hinv).
      assert (clat' = Connect pruned) as ->.
      { unfold TopSortCompactLatticeIfNeeded in Hlimit.
        rewrite (Connect_top_sorted pruned) in Hlimit; [by inv_ok|].
        by apply (pruned_sorted clat1). }
      by apply (Connect_arc_depth clat1 pruned times Hsorted Hstart Hinv Hkilled D T').
    - inv_ok. apply clat_state_times_ok in Ht' as (_ & Hst & _). congruence. }
  split; [done|]. split; [done|]. split; [lia|].
  intros Hs. rewrite (final_depth_no_strings clat' _ t Hs) in Heq. lia.
Qed.

End LimitDepthTheorem.

Lemma insert_record_perm (x : LatticeArcRecord.t) (l : list LatticeArcRecord.t) :
  Examples.insert_record x l ≡ₚ x :: l.
Proof.
  induction l as [|y l IH]; simpl; [done|].
  destruct (LatticeArcRecord.lt y x); [|done].
  rewrite IH. apply Permutation_swap.
Qed.

Lemma nth_element_sort_perm (n : nat) (l : list LatticeArcRecord.t) :
  Examples.nth_element_sort n l ≡ₚ l.
Proof.
  unfold Examples.nth_element_sort.
  induction l as [|x l IH]; simpl; [done|].
  by rewrite insert_record_perm, IH.
Qed.

Lemma limit_depth_arc_cap_witness :
  CompactLatticeLimitDepth Examples.TopSort_unused Examples.LogAdd_unused
    Examples.nth_element_sort 1 Examples.parallel_arcs = Ok Examples.best_arc_clat
  ∧ CompactLatticeDepthPerFrame Examples.best_arc_clat = Ok [1%Z]
  ∧ (Z.of_nat (arc_depth Examples.best_arc_clat
                         (state_times_of Examples.best_arc_clat) 0) ≤ 1)%Z
  ∧ 1%Z = Z.of_nat (arc_depth Examples.best_arc_clat
                              (state_times_of Examples.best_arc_clat) 0
                    + final_depth Examples.best_arc_clat
                                  (state_times_of Examples.best_arc_clat) 0)
  ∧ (1 ≤ 1 + Z.of_nat (final_depth Examples.best_arc_clat
                                   (state_times_of Examples.best_arc_clat) 0))%Z
  ∧ ((∀ s, String (Final Examples.best_arc_clat s) = []) → (1 ≤ 1)%Z).
Proof.
  split; [reflexivity|]. split; [reflexivity|].
  apply (limit_depth_arc_cap Examples.TopSort_unused Examples.LogAdd_unused
           Examples.nth_element_sort 1 Examples.parallel_arcs
           Examples.best_arc_clat [1%Z]).
  - lia.
  - apply nth_element_sort_perm.
  - reflexivity.
  - reflexivity.
  - reflexivity.
Defined.

(* ================================================================== *)
(** ** State times along the paths of a lattice *)

Lemma lattice_times_arc_spec (k : nat) (cur : Z) (times times' : list Z)
  (a : LatticeArc) :
  (k < nextstate a)%nat →
  lattice_times_arc cur times a = Ok times' →
  times_grow k times times'
  ∧ times' !! nextstate a = Some (cur + lat_arc_step a)%Z.
Proof.
  intros Hk Hf. apply lattice_times_arc_cases in Hf. simpl in Hf.
  fold (lat_arc_step a) in Hf. destruct Hf as [[-> Hn]|[Hn ->]].
  - split; [apply times_grow_refl|done].
  - pose proof (lookup_lt_Some _ _ _ Hn) as Hlt. split.
    + split; [by rewrite length_insert|]. split.
      * intros i Hi. by rewrite list_lookup_insert_ne by lia.
      * intros i v Hi Hv. rewrite list_lookup_insert_ne; [done|].
        intros <-. rewrite Hn in Hi. injection Hi as <-. lia.
    + by rewrite list_lookup_insert_eq.
Qed.

Lemma lattice_times_state_step (lat : Lattice) (k : nat) (times times' : list Z) :
  top_sorted lat = true →
  lattice_times_inv lat k times → lattice_times_state lat times k = Ok times' →
  lattice_times_inv lat (S k) times'.
Proof.
  intros Hts (Hlen & H0 & Harcs) Hf. unfold lattice_times_state in Hf.
  apply bind_Ok in Hf as (cur & Hcur & Hf). apply vget_Ok in Hcur.
  apply (foldM_mono (times_grow k)
           (fun a t => (0 ≤ cur)%Z →
                       t !! nextstate a = Some (cur + lat_arc_step a)%Z)
           (lattice_times_arc cur)
           (times_grow_refl k) (times_grow_trans k)) in Hf.
  - destruct Hf as [(Hl' & Hlow & Hstab) Hnew].
    split; [congruence|]. split; [apply Hstab; [done|lia]|].
    intros s a c Hs Ha Hc Hge. rewrite Hlow in Hc by lia.
    destruct (decide (s = k)) as [-> | Hne].
    + rewrite Hcur in Hc. injection Hc as ->. by apply Hnew.
    + apply Hstab; [|unfold lat_arc_step; case_bool_decide; lia].
      apply (Harcs s a c); [lia|done..].
  - intros a b b' HQ (_ & _ & Hs) Hc.
    apply Hs; [by apply HQ|unfold lat_arc_step; case_bool_decide; lia].
  - intros a b1 b2 Ha _ Hstep.
    apply (lattice_times_arc_spec k) in Hstep as [? ?]; [done|].
    by apply (top_sorted_arcs lat k a).
Qed.

Lemma lattice_state_times_inv (lat : Lattice) (m : Z) (times : list Z) :
  LatticeStateTimes lat = Ok (m, times) →
  lattice_times_inv lat (NumStates lat) times.
Proof.
  unfold LatticeStateTimes. destruct (top_sorted lat) eqn:Hts; [|done].
  cbn [negb]. intros Hf.
  apply bind_Ok in Hf as (u & _ & Hf).
  apply bind_Ok in Hf as (times0 & H0 & Hf). apply vset_Ok in H0 as [Hn ->].
  apply bind_Ok in Hf as (times1 & Hfold & Hf).
  apply bind_Ok in Hf as (m' & _ & Hf). injection Hf as _ ->.
  assert (G : lattice_times_inv lat (length (seq 0 (NumStates lat))) times).
  { eapply (foldM_inv (fun pre t => lattice_times_inv lat (length pre) t));
      [| |exact Hfold].
    - split; [by rewrite length_insert, length_replicate|].
      split; [by rewrite list_lookup_insert_eq|]. simpl. intros; lia.
    - intros pre x post b1 b2 El Hp Hstep.
      rewrite length_app. simpl. rewrite Nat.add_1_r.
      apply seq_split_length in El. subst x.
      by eapply lattice_times_state_step. }
  by rewrite length_seq in G.
Qed.

Lemma lat_path_steps_nonneg (p : list LatticeArc) : (0 ≤ lat_path_steps p)%Z.
Proof.
  induction p as [|a p IH]; simpl; [done|].
  unfold lat_arc_step. case_bool_decide; lia.
Qed.

Lemma lattice_times_path (lat : Lattice) (times : list Z) (s t : nat)
  (p : list LatticeArc) (c : Z) :
  lattice_times_inv lat (NumStates lat) times →
  path lat s p t → times !! s = Some c → (0 ≤ c)%Z →
  times !! t = Some (c + lat_path_steps p)%Z.
Proof.
  intros (Hlen & H0 & Harcs) Hp. revert c.
  induction Hp as [s|s a p t Ha Hp IH]; intros c Hc Hge; simpl.
  - by rewrite Z.add_0_r.
  - rewrite Z.add_assoc. apply IH.
    + apply (Harcs s a c); [|done..]. by eapply Arcs_in_range.
    + unfold lat_arc_step. case_bool_decide; lia.
Qed.

(** X1.  When [LatticeStateTimes] returns, the time of a state at the end
    of a path from the start state is the number of arcs of the path with a
    non-epsilon input label, whichever path is taken, and the value
    returned is at least that time. *)
Theorem lattice_state_times_path (lat : Lattice) (m : Z) (times : list Z)
  (p : list LatticeArc) (t : nat) :
  LatticeStateTimes lat = Ok (m, times) → path lat 0 p t →
  times !! t = Some (lat_path_steps p) ∧ (0 ≤ lat_path_steps p ≤ m)%Z.
Proof.
  intros Hf Hp. pose proof (lattice_state_times_inv lat m times Hf) as Hinv.
  assert (Ht : times !! t = Some (lat_path_steps p)).
  { rewrite <- (Z.add_0_l (lat_path_steps p)).
    apply (lattice_times_path lat times 0%nat t p 0%Z); [done..| |lia].
    by destruct Hinv as (_ & ? & _). }
  split; [done|]. split; [apply lat_path_steps_nonneg|].
  apply lattice_state_times_ok in Hf as (_ & _ & _ & Hmax & _).
  by eapply Hmax.
Qed.

Lemma lattice_state_times_path_witness :
  [0; 1; 1; 2]%Z !! 3%nat
  = Some (lat_path_steps [mkArc 1 1 (Examples.lw 0.1 0) 1%nat;
                          mkArc 1 1 (Examples.lw 0.1 0) 3%nat])
  ∧ (0 ≤ lat_path_steps [mkArc 1 1 (Examples.lw 0.1 0) 1%nat;
                         mkArc 1 1 (Examples.lw 0.1 0) 3%nat] ≤ 2)%Z.
Proof.
  apply (lattice_state_times_path Examples.two_paths 2 [0; 1; 1; 2]%Z
           [mkArc 1 1 (Examples.lw 0.1 0) 1%nat; mkArc 1 1 (Examples.lw 0.1 0) 3%nat]
           3%nat).
  - reflexivity.
  - apply path_cons; [apply list_elem_of_here|].
    apply path_cons; [apply list_elem_of_here|apply path_nil].
Defined.

Lemma clat_times_arc_lower (cur : Z) (times times' : list Z) (a : CompactLatticeArc) :
  (∀ i v, times !! i = Some v → (-1 ≤ v)%Z) → (-1 ≤ cur)%Z →
  clat_times_arc cur times a = Ok times' →
  ∀ i v, times' !! i = Some v → (-1 ≤ v)%Z.
Proof.
  intros Hlow Hcur Hf. unfold clat_times_arc in Hf.
  apply bind_Ok in Hf as (nt & Hnt & Hf). case_bool_decide.
  - apply vset_Ok in Hf as [Hlt ->]. intros i v.
    rewrite list_lookup_insert. case_decide; [|apply Hlow].
    intros Hv. injection Hv as <-. lia.
  - apply bind_Ok in Hf as (u & _ & Hf). injection Hf as <-. exact Hlow.
Qed.

Lemma clat_utt_len_step (lat : CompactLattice) (k : nat) (acc acc' : list Z * Z) :
  top_sorted lat = true →
  utt_len_inv lat k acc.1 acc.2 → clat_times_state lat acc k = Ok acc' →
  utt_len_inv lat (S k) acc'.1 acc'.2.
Proof.
  intros Hts (Hlow & Hu & Hge & Hatt) Hf. destruct acc as [times utt]. simpl in *.
  unfold clat_times_state in Hf.
  apply bind_Ok in Hf as (cur & Hcur & Hf). apply vget_Ok in Hcur.
  apply bind_Ok in Hf as (times' & Hfold & Hf).
  assert (Hlow' : ∀ i v, times' !! i = Some v → (-1 ≤ v)%Z).
  { eapply (foldM_inv (fun _ t => ∀ i v, t !! i = Some v → (-1 ≤ v)%Z));
      [exact Hlow| |exact Hfold].
    intros pre a post t1 t2 _ Hp Hstep.
    eapply clat_times_arc_lower; [exact Hp| |exact Hstep]. by eapply Hlow. }
  apply (clat_times_arcs_spec k) in Hfold as [(_ & Hsame & _) _];
    [|intros a Ha; by apply (top_sorted_arcs lat k a)].
  assert (Hold : ∀ s, (s < S k)%nat → times' !! s = times !! s).
  { intros s Hs. apply Hsame. lia. }
  destruct (is_final lat k) eqn:Hfin.
  - apply bind_Ok in Hf as (ts & Hts' & Hf). apply vget_Ok in Hts'.
    injection Hf as <-. simpl.
    set (this := (ts + Z.of_nat (length (String (Final lat k))))%Z).
    assert (Hthis : (-1 ≤ this)%Z).
    { pose proof (Hlow' _ _ Hts'). unfold this. lia. }
    unfold utt_len_inv, clat_utt_len, utt_len_result in *.
    split; [done|]. split; [repeat case_bool_decide; lia|]. split.
    + intros s ts' Hs Hfs Hs'.
      destruct (decide (s = k)) as [-> | Hne].
      * rewrite Hts' in Hs'. injection Hs' as <-. fold this.
        repeat case_bool_decide; lia.
      * rewrite Hold in Hs' by lia.
        assert (Hs1 : (s < k)%nat) by lia.
        pose proof (Hge s ts' Hs1 Hfs Hs') as Hle.
        repeat case_bool_decide; lia.
    + assert (Hnew : ∃ s ts0, (s < S k)%nat ∧ is_final lat s = true
                 ∧ times' !! s = Some ts0
                 ∧ this = (ts0 + Z.of_nat (length (String (Final lat s))))%Z).
      { exists k, ts. split; [lia|done]. }
      assert (Hkeep : utt ≠ (-1)%Z → ∃ s ts0, (s < S k)%nat ∧ is_final lat s = true
                 ∧ times' !! s = Some ts0
                 ∧ utt = (ts0 + Z.of_nat (length (String (Final lat s))))%Z).
      { intros Hne. destruct Hatt as [?|(s & ts0 & Hs & Hfs & Hs' & ->)]; [done|].
        exists s, ts0. rewrite Hold by lia. split; [lia|done]. }
      case_bool_decide as H1; [by right|].
      case_bool_decide as H2; [|right; by apply Hkeep].
      right. destruct (Z.max_spec utt this) as [[_ ->]|[_ ->]];
        [done|by apply Hkeep].
  - injection Hf as <-. simpl. unfold utt_len_inv in *.
    split; [done|]. split; [done|]. split.
    + intros s ts' Hs Hfs Hs'.
      destruct (decide (s = k)) as [-> | Hne]; [congruence|].
      rewrite Hold in Hs' by lia. apply Hge; [lia|done..].
    + destruct Hatt as [?|(s & ts0 & Hs & Hfs & Hs' & ->)]; [by left|].
      right. exists s, ts0. rewrite Hold by lia. split; [lia|done].
Qed.

Lemma clat_state_times_utt_len (lat : CompactLattice) (T : Z) (times : list Z) :
  CompactLatticeStateTimes lat = Ok (T, times) →
  ∃ utt_len, T = utt_len_result utt_len
             ∧ utt_len_inv lat (NumStates lat) times utt_len.
Proof.
  unfold CompactLatticeStateTimes. destruct (top_sorted lat) eqn:Hts; [|done].
  cbn [negb]. intros Hf.
  apply bind_Ok in Hf as (u & _ & Hf).
  apply bind_Ok in Hf as (times0 & H0 & Hf). apply vset_Ok in H0 as [Hn ->].
  apply bind_Ok in Hf as ([times1 utt] & Hfold & Hf).
  exists utt.
  assert (times1 = times ∧ T = utt_len_result utt) as [-> ->].
  { unfold utt_len_result. case_bool_decide; by inv_ok. }
  split; [done|].
  assert (G : utt_len_inv lat (length (seq 0 (NumStates lat))) (times, utt).1
                          (times, utt).2).
  { eapply (foldM_inv (fun pre acc => utt_len_inv lat (length pre) acc.1 acc.2));
      [| |exact Hfold].
    - simpl. split; [|split; [lia|split; [intros; lia|by left]]].
      intros i v. rewrite list_lookup_insert. destruct (decide _).
      + intros Hv. injection Hv as <-. lia.
      + intros Hr. apply lookup_replicate in Hr as [-> _]. lia.
    - intros pre x post b1 b2 El Hp Hstep.
      rewrite length_app. simpl. rewrite Nat.add_1_r.
      apply seq_split_length in El. subst x.
      by eapply clat_utt_len_step. }
  by rewrite length_seq in G.
Qed.

(** X2.  When [CompactLatticeStateTimes] returns, the time of a state at
    the end of a path from the start state is the number of frames on the
    arcs of the path, whichever path is taken.  The length returned is not
    negative, it is at least the time of every final state plus the frames
    of its final weight, and it is that end time for one final state unless
    it is 0. *)
Theorem clat_state_times_path (clat : CompactLattice) (T : Z) (times : list Z) :
  CompactLatticeStateTimes clat = Ok (T, times) →
  (∀ p t, path clat 0 p t → times !! t = Some (path_frames p))
  ∧ (0 ≤ T)%Z
  ∧ (∀ s ts, is_final clat s = true → times !! s = Some ts →
       (ts + Z.of_nat (length (String (Final clat s))) ≤ T)%Z)
  ∧ (T = 0%Z
     ∨ ∃ s ts, is_final clat s = true ∧ times !! s = Some ts
               ∧ T = (ts + Z.of_nat (length (String (Final clat s))))%Z).
Proof.
  intros Hf. pose proof (clat_state_times_ok clat T times Hf) as (_ & _ & Hinv).
  destruct (clat_state_times_utt_len clat T times Hf)
    as (utt & -> & Hlow & Hu & Hge & Hatt).
  split.
  { intros p t Hp. rewrite <- (Z.add_0_l (path_frames p)).
    apply (clat_times_path clat times 0%nat t p 0%Z); [done..| |lia].
    by destruct Hinv as (_ & ? & _). }
  split; [unfold utt_len_result; case_bool_decide; lia|].
  split.
  { intros s ts Hfs Hs. apply Hge; [|done..]. by apply is_final_in_range. }
  unfold utt_len_result. case_bool_decide as Hm; [by left|]. right.
  destruct Hatt as [?|(s & ts & _ & Hfs & Hs & ->)]; [done|]. by exists s, ts.
Qed.

Lemma clat_state_times_path_witness :
  (∀ p t, path Examples.linear_clat 0 p t → [0; 3; 5]%Z !! t = Some (path_frames p))
  ∧ (0 ≤ 5)%Z
  ∧ (∀ s ts, is_final Examples.linear_clat s = true → [0; 3; 5]%Z !! s = Some ts →
       (ts + Z.of_nat (length (String (Final Examples.linear_clat s))) ≤ 5)%Z)
  ∧ (5%Z = 0%Z
     ∨ ∃ s ts, is_final Examples.linear_clat s = true ∧ [0; 3; 5]%Z !! s = Some ts
               ∧ 5%Z = (ts + Z.of_nat (length (String (Final Examples.linear_clat s))))%Z).
Proof.
  apply (clat_state_times_path Examples.linear_clat 5 [0; 3; 5]%Z). reflexivity.
Defined.

(* ================================================================== *)
(** ** Depth per frame and mean depth *)

Lemma sumZ_insert (l : list Z) (i : nat) (x y : Z) :
  l !! i = Some x → sumZ (<[i := y]> l) = (sumZ l - x + y)%Z.
Proof.
  revert i. induction l as [|z l IH]; intros [|i] Hi; simpl in *; try done.
  - injection Hi as ->. lia.
  - rewrite (IH i Hi). lia.
Qed.

Lemma sumZ_replicate_0 (n : nat) : sumZ (replicate n 0%Z) = 0%Z.
Proof. induction n as [|n IH]; simpl; [done|]. by rewrite IH. Qed.

Lemma count_frames_sum (T st : Z) (len : nat) (depth depth' : list Z) :
  count_frames T st len depth = Ok depth' →
  sumZ depth' = (sumZ depth + Z.of_nat len)%Z.
Proof.
  unfold count_frames. intros Hf.
  assert (G : sumZ depth'
              = (sumZ depth + Z.of_nat (length (seqZ st (Z.of_nat len))))%Z).
  { refine (foldM_inv (fun pre d => sumZ d = (sumZ depth + Z.of_nat (length pre))%Z)
              _ _ depth _ _ _ Hf); [simpl; lia|].
    intros pre t post d1 d2 _ Hp Hstep.
    apply bind_Ok in Hstep as (u & _ & Hupd). unfold vupdZ in Hupd.
    destruct (t <? 0)%Z; [done|].
    apply bind_Ok in Hupd as (x & Hx & Hupd). apply vget_Ok in Hx.
    apply vset_Ok in Hupd as [_ ->].
    rewrite (sumZ_insert _ _ x) by done. rewrite length_app, Hp. simpl. lia. }
  rewrite length_seqZ in G. lia.
Qed.

Lemma depth_state_sum (clat : CompactLattice) (T : Z) (times depth depth' : list Z)
  (s : nat) :
  depth_state clat T times depth s = Ok depth' →
  sumZ depth' = (sumZ depth + Z.of_nat (state_frames clat s))%Z.
Proof.
  unfold depth_state. intros Hf.
  apply bind_Ok in Hf as (st & _ & Hf).
  apply bind_Ok in Hf as (depth1 & Harcs & Hf).
  apply count_frames_sum in Hf. rewrite Hf.
  assert (G : sumZ depth1
              = (sumZ depth
                 + Z.of_nat (sum_list_with (fun a => length (String (weight a)))
                                           (Arcs clat s)))%Z).
  { refine (foldM_inv (fun pre d =>
              sumZ d = (sumZ depth
                        + Z.of_nat (sum_list_with
                                      (fun a => length (String (weight a))) pre))%Z)
              _ _ depth _ _ _ Harcs); [simpl; lia|].
    intros pre a post d1 d2 _ Hp Hstep. apply count_frames_sum in Hstep.
    rewrite Hstep, Hp, sum_list_with_app. simpl. lia. }
  rewrite G. unfold state_frames. rewrite foldl_add_sum. lia.
Qed.

(** X3.  The vector of [CompactLatticeDepthPerFrame] has one entry per
    frame of the utterance length of [CompactLatticeStateTimes].  When that
    length is positive its entries add up to the number of arc frames that
    [CompactLatticeDepth] counts, so [CompactLatticeDepth] returns the mean
    of the vector. *)
Theorem depth_per_frame_sum (clat : CompactLattice) (T : Z) (times depth : list Z) :
  CompactLatticeDepthPerFrame clat = Ok depth →
  CompactLatticeStateTimes clat = Ok (T, times) →
  length depth = Z.to_nat T
  ∧ ((0 < T)%Z →
     sumZ depth = Z.of_nat (num_arc_frames clat)
     ∧ CompactLatticeDepth clat true = Ok ((of_Z (sumZ depth) / of_Z T)%X, Some T)).
Proof.
  intros Hd Ht. pose proof (clat_state_times_ok clat T times Ht) as (Hts & Hst & _).
  unfold CompactLatticeDepthPerFrame in Hd. rewrite Hts, Hst, Ht in Hd.
  cbn [negb mbind result_bind] in Hd.
  destruct (T <=? 0)%Z eqn:HT.
  - apply Z.leb_le in HT. injection Hd as <-. simpl. split; [lia|]. intros; lia.
  - assert (G : length depth = Z.to_nat T
                ∧ sumZ depth
                  = Z.of_nat (sum_list_with (state_frames clat)
                                            (seq 0 (NumStates clat)))).
    { eapply (foldM_inv (fun pre d =>
                length d = Z.to_nat T
                ∧ sumZ d = Z.of_nat (sum_list_with (state_frames clat) pre)));
        [| |exact Hd].
      - by rewrite length_replicate, sumZ_replicate_0.
      - intros pre s post d1 d2 _ [Hl Hp] Hstep.
        pose proof (depth_state_spec _ _ _ _ _ _ Hstep) as [Hl' _].
        apply depth_state_sum in Hstep.
        split; [congruence|]. rewrite Hstep, Hp, sum_list_with_app. simpl. lia. }
    destruct G as [Hl Hsum]. split; [done|]. intros _.
    assert (Hn : sumZ depth = Z.of_nat (num_arc_frames clat)).
    { rewrite Hsum. unfold num_arc_frames. by rewrite foldl_add_sum. }
    split; [done|].
    unfold CompactLatticeDepth. rewrite Hts, Hst, Ht. cbn [negb mbind result_bind].
    by rewrite Hn.
Qed.

Lemma depth_per_frame_sum_witness :
  length [1; 1; 1; 1; 1]%Z = Z.to_nat 5
  ∧ ((0 < 5)%Z →
     sumZ [1; 1; 1; 1; 1]%Z = Z.of_nat (num_arc_frames Examples.linear_clat)
     ∧ CompactLatticeDepth Examples.linear_clat true
       = Ok ((of_Z (sumZ [1; 1; 1; 1; 1]%Z) / of_Z 5)%X, Some 5%Z)).
Proof.
  apply (depth_per_frame_sum Examples.linear_clat 5 [0; 3; 5]%Z [1; 1; 1; 1; 1]%Z);
    reflexivity.
Defined.

(* ================================================================== *)
(** ** Word alignment: the path walked and the end of the walk *)

Lemma sumZ_nonneg_take (ls : list Z) (i : nat) :
  (∀ j l, ls !! j = Some l → (0 ≤ l)%Z) → (0 ≤ sumZ (take i ls))%Z.
Proof.
  revert i. induction ls as [|l ls IH]; intros [|i] Hls; simpl; try lia.
  pose proof (Hls 0%nat l eq_refl).
  assert (0 ≤ sumZ (take i ls))%Z; [|lia].
  apply IH. intros j l' Hj. by apply (Hls (S j)).
Qed.

Lemma linear_walk_path (clat : CompactLattice) s t s' t' ws bs ls :
  linear_walk clat s t s' t' ws bs ls →
  ∃ p, path clat s p s'
       ∧ ws = ilabel <$> p
       ∧ ls = (fun a => Z.of_nat (arc_frames a)) <$> p
       ∧ ∀ i bt, bs !! i = Some bt → bt = (t + sumZ (take i ls))%Z.
Proof.
  induction 1 as [s t|s t d arc s' t' ws bs ls Hd Hnf Harcs Hw (p & Hp & -> & -> & Hb)].
  - exists []. split; [constructor|]. do 2 (split; [done|]). by intros i bt.
  - exists (arc :: p). split.
    { constructor; [|done]. rewrite (Arcs_lookup clat s d Hd), Harcs.
      apply list_elem_of_here. }
    do 2 (split; [done|]).
    intros [|i] bt Hi; simpl in Hi.
    + injection Hi as <-. simpl. lia.
    + rewrite (Hb i bt Hi). simpl. unfold arc_frames. lia.
Qed.

(** X4.  The output of [CompactLatticeToWordAlignment], whether it returns
    [true] or [false]: unless the lattice has no start state, the words and
    the lengths are the input labels and the numbers of frames of the arcs
    of a path from the start state, and every begin time is the sum of the
    lengths before it. *)
Theorem word_alignment_path (fuel : nat) (clat : CompactLattice)
  (b : bool) (ws bs ls : list Z) :
  CompactLatticeToWordAlignment fuel clat = Ok (b, (ws, bs, ls)) →
  (∀ i bt, bs !! i = Some bt → bt = sumZ (take i ls))
  ∧ ((Start clat = None ∧ ws = [] ∧ ls = [])
     ∨ ∃ s0 p t, Start clat = Some s0 ∧ path clat s0 p t
                 ∧ ws = ilabel <$> p
                 ∧ ls = (fun a => Z.of_nat (arc_frames a)) <$> p).
Proof.
  unfold CompactLatticeToWordAlignment. destruct (Start clat) as [s0|] eqn:Hs0.
  - intros Hf.
    apply word_alignment_loop_walk in Hf
      as (ws1 & bs1 & ls1 & s' & t' & -> & -> & -> & Hw & _).
    apply linear_walk_path in Hw as (p & Hp & -> & -> & Hb). simpl. split.
    + intros i bt Hi. rewrite (Hb i bt Hi). lia.
    + right. by exists s0, p, s'.
  - intros Hf. injection Hf as <- <- <- <-. split; [by intros i bt|by left].
Qed.

Lemma word_alignment_path_witness :
  (∀ i bt, [0; 3]%Z !! i = Some bt → bt = sumZ (take i [3; 2]%Z))
  ∧ ((Start Examples.linear_clat = None ∧ [5; 6]%Z = [] ∧ [3; 2]%Z = [])
     ∨ ∃ s0 p t, Start Examples.linear_clat = Some s0
                 ∧ path Examples.linear_clat s0 p t
                 ∧ [5; 6]%Z = ilabel <$> p
                 ∧ [3; 2]%Z = (fun a => Z.of_nat (arc_frames a)) <$> p).
Proof.
  apply (word_alignment_path 5 Examples.linear_clat true). reflexivity.
Defined.

Lemma word_alignment_loop_total (clat : CompactLattice) :
  top_sorted clat = true → arcs_in_range clat →
  ∀ fuel s t ws bs ls,
    (s < NumStates clat)%nat → (NumStates clat ≤ s + fuel)%nat →
    ∃ r, ∀ extra, word_alignment_loop (fuel + extra) clat s t ws bs ls = Ok r.
Proof.
  intros Hts Hrange. induction fuel as [|fuel IH]; intros s t ws bs ls Hs Hf; [lia|].
  destruct (lookup_lt_is_Some_2 (states clat) s Hs) as [d Hd].
  destruct (weight_neb (final d) Zero) eqn:Hfin.
  - destruct (bool_decide (length (arcs d) ≠ 0%nat)) eqn:Hn.
    all: eexists; intros extra; change (S fuel + extra)%nat with (S (fuel + extra));
      rewrite word_alignment_loop_S; unfold state_at, vget; rewrite Hd;
      cbn [mbind result_bind]; by rewrite Hfin, Hn.
  - destruct (arcs d) as [|arc [|arc2 rest]] eqn:Harcs.
    + eexists. intros extra. change (S fuel + extra)%nat with (S (fuel + extra)).
      rewrite word_alignment_loop_S. unfold state_at, vget. rewrite Hd.
      cbn [mbind result_bind]. by rewrite Hfin, Harcs.
    + assert (Ha : arc ∈ Arcs clat s).
      { rewrite (Arcs_lookup clat s d Hd), Harcs. apply list_elem_of_here. }
      pose proof (top_sorted_arcs clat s arc Hts Ha).
      pose proof (Hrange s arc Ha).
      destruct (IH (nextstate arc)
                   (t + Z.of_nat (length (String (weight arc))))%Z
                   (ws ++ [ilabel arc]) (bs ++ [t])
                   (ls ++ [Z.of_nat (length (String (weight arc)))]))
        as [r Hr]; [lia..|].
      exists r. intros extra. change (S fuel + extra)%nat with (S (fuel + extra)).
      rewrite word_alignment_loop_S. unfold state_at, vget. rewrite Hd.
      cbn [mbind result_bind]. rewrite Hfin, Harcs. apply Hr.
    + eexists. intros extra. change (S fuel + extra)%nat with (S (fuel + extra)).
      rewrite word_alignment_loop_S. unfold state_at, vget. rewrite Hd.
      cbn [mbind result_bind]. by rewrite Hfin, Harcs.
Qed.

(** X5.  On a sorted lattice whose arcs and start state are states of the
    lattice, the [while (1)] loop of [CompactLatticeToWordAlignment] ends
    after at most [NumStates] states: the call returns, and what it returns
    does not depend on the bound once it is [NumStates] or more. *)
Theorem word_alignment_terminates (clat : CompactLattice) :
  top_sorted clat = true → arcs_in_range clat →
  (∀ s0, Start clat = Some s0 → (s0 < NumStates clat)%nat) →
  ∃ r, ∀ fuel, (NumStates clat ≤ fuel)%nat →
               CompactLatticeToWordAlignment fuel clat = Ok r.
Proof.
  intros Hts Hrange Hstart. unfold CompactLatticeToWordAlignment.
  destruct (Start clat) as [s0|]; [|by eexists].
  destruct (word_alignment_loop_total clat Hts Hrange (NumStates clat) s0 0%Z [] [] [])
    as [r Hr]; [by apply Hstart|lia|].
  exists r. intros fuel Hfuel.
  replace fuel with (NumStates clat + (fuel - NumStates clat))%nat by lia. apply Hr.
Qed.

Lemma word_alignment_terminates_witness :
  ∃ r, ∀ fuel, (NumStates Examples.nonlinear_clat ≤ fuel)%nat →
               CompactLatticeToWordAlignment fuel Examples.nonlinear_clat = Ok r.
Proof.
  apply (word_alignment_terminates Examples.nonlinear_clat).
  - reflexivity.
  - apply arcs_in_rangeb_correct; reflexivity.
  - intros s0 Hs0. injection Hs0 as <-. unfold NumStates; simpl; lia.
Defined.

(* ================================================================== *)
(** ** Longest sentence *)

Lemma words_on_nonneg {W : Type} (has_word : Arc W → bool) (p : list (Arc W)) :
  (0 ≤ words_on has_word p)%Z.
Proof. induction p as [|a p IH]; simpl; [done|]. destruct (has_word a); lia. Qed.

Lemma words_on_app {W : Type} (has_word : Arc W → bool) (p q : list (Arc W)) :
  words_on has_word (p ++ q) = (words_on has_word p + words_on has_word q)%Z.
Proof. induction p as [|a p IH]; simpl; [done|]. rewrite IH. lia. Qed.

Lemma words_on_length {W : Type} (has_word : Arc W → bool) (p : list (Arc W)) :
  (words_on has_word p ≤ Z.of_nat (length p))%Z.
Proof. induction p as [|a p IH]; simpl; [done|]. destruct (has_word a); lia. Qed.

Lemma longest_grow_refl k m : longest_grow k m m.
Proof. split; [done|]. split; [done|]. intros i v Hi. exists v. split; [done|lia]. Qed.

Lemma longest_grow_trans k m1 m2 m3 :
  longest_grow k m1 m2 → longest_grow k m2 m3 → longest_grow k m1 m3.
Proof.
  intros (Hl1 & Hk1 & Hm1) (Hl2 & Hk2 & Hm2). split; [congruence|]. split.
  - intros i Hi. by rewrite Hk2, Hk1.
  - intros i v Hi. destruct (Hm1 i v Hi) as (v' & Hv' & Hle).
    destruct (Hm2 i v' Hv') as (v'' & Hv'' & Hle'). exists v''. split; [done|lia].
Qed.

Section LongestSentence.
Context {W : Type} `{WeightLaws W}.
Variable has_word : Arc W → bool.
Variable longest_arc : nat → Z → list Z → Arc W → result (list Z).
Hypothesis arc_spec : ∀ s this m a m',
  (s < nextstate a)%nat → longest_arc s this m a = Ok m' →
  ∃ mn, m !! nextstate a = Some mn
        ∧ m' = <[nextstate a := Z.max mn (this + (if has_word a then 1 else 0))]> m.
Hypothesis arc_total : ∀ s this m a,
  (s < nextstate a)%nat → (nextstate a < length m)%nat →
  ∃ m', longest_arc s this m a = Ok m'.
Variable lat : VectorFst W.
Hypothesis Hsorted : top_sorted lat = true.
Hypothesis Hrange : arcs_in_range lat.

Lemma longest_arc_step (k : nat) (this : Z) (m : list Z) (a : Arc W)
  (s0 : nat) (p0 : list (Arc W)) :
  length m = NumStates lat → a ∈ Arcs lat k →
  longest_attained has_word lat m →
  path lat s0 p0 k → this = words_on has_word p0 →
  ∃ m', longest_arc k this m a = Ok m'
        ∧ longest_grow k m m' ∧ longest_attained has_word lat m'
        ∧ ∃ vn, m' !! nextstate a = Some vn
                ∧ (this + (if has_word a then 1 else 0) ≤ vn)%Z.
Proof.
  intros Hlen Ha Hatt Hp0 Hthis.
  pose proof (top_sorted_arcs lat k a Hsorted Ha) as Hk.
  pose proof (Hrange k a Ha) as Hn.
  destruct (arc_total k this m a Hk) as [m' Hm']; [lia|].
  destruct (arc_spec k this m a m' Hk Hm') as (mn & Hmn & ->).
  exists (<[nextstate a := Z.max mn (this + (if has_word a then 1 else 0))]> m).
  split; [done|]. split; [|split].
  - split; [by rewrite length_insert|]. split.
    + intros i Hi. by rewrite list_lookup_insert_ne by lia.
    + intros i v Hi. destruct (decide (i = nextstate a)) as [-> | Hne].
      * rewrite Hmn in Hi. injection Hi as <-.
        eexists. rewrite list_lookup_insert_eq by lia. split; [done|lia].
      * exists v. rewrite list_lookup_insert_ne by done. split; [done|lia].
  - intros i v. destruct (decide (i = nextstate a)) as [-> | Hne].
    + rewrite list_lookup_insert_eq by lia. intros Hv. injection Hv as <-.
      destruct (Z.max_spec mn (this + (if has_word a then 1 else 0)))
        as [[_ ->]|[_ ->]].
      * exists s0, (p0 ++ [a]). split; [by apply (path_snoc lat s0 p0 k a)|].
        rewrite words_on_app, Hthis. simpl. lia.
      * by apply Hatt.
    + rewrite list_lookup_insert_ne by done. apply Hatt.
  - eexists. rewrite list_lookup_insert_eq by lia. split; [done|lia].
Qed.

Lemma longest_arcs_step (k : nat) (this : Z) (m : list Z) :
  length m = NumStates lat → longest_attained has_word lat m → m !! k = Some this →
  ∃ m', foldM (longest_arc k this) m (Arcs lat k) = Ok m'
        ∧ longest_grow k m m' ∧ longest_attained has_word lat m'
        ∧ ∀ a vn, a ∈ Arcs lat k → m' !! nextstate a = Some vn →
                  (this + (if has_word a then 1 else 0) ≤ vn)%Z.
Proof.
  intros Hlen Hatt Hk. destruct (Hatt k this Hk) as (s0 & p0 & Hp0 & Hthis).
  destruct (foldM_total
              (fun pre m1 =>
                 longest_grow k m m1 ∧ longest_attained has_word lat m1
                 ∧ ∀ a vn, a ∈ pre → m1 !! nextstate a = Some vn →
                           (this + (if has_word a then 1 else 0) ≤ vn)%Z)
              (longest_arc k this) (Arcs lat k) m) as (m' & Hm' & Hg & Ha & Hq).
  - split; [apply longest_grow_refl|]. split; [done|].
    intros a vn Hin. by apply elem_of_nil in Hin.
  - intros pre a post m1 El (Hg & Ha1 & Hq).
    assert (Hin : a ∈ Arcs lat k).
    { rewrite El. apply elem_of_app. right. apply list_elem_of_here. }
    destruct (longest_arc_step k this m1 a s0 p0) as (m2 & Hm2 & Hg2 & Ha2 & vn & Hvn & Hle);
      [by destruct Hg as [-> _]|done..|].
    exists m2. split; [done|]. split; [by eapply longest_grow_trans|].
    split; [done|].
    intros a' vn' Hin' Hvn'. apply elem_of_app in Hin' as [Hin'|Hin'].
    + destruct Hg2 as (Hl2 & _ & Hmono).
      destruct (lookup_lt_is_Some_2 m1 (nextstate a')) as [v1 Hv1].
      { rewrite <- Hl2. by eapply lookup_lt_Some. }
      destruct (Hmono _ _ Hv1) as (v' & Hv' & Hle').
      rewrite Hvn' in Hv'. injection Hv' as <-.
      pose proof (Hq a' v1 Hin' Hv1). lia.
    + apply list_elem_of_singleton in Hin' as ->.
      rewrite Hvn in Hvn'. by injection Hvn' as <-.
  - by exists m'.
Qed.

Lemma longest_state_step (k : nat) (acc : list Z * Z) :
  (k < NumStates lat)%nat → longest_inv has_word lat k acc →
  ∃ acc', longest_state longest_arc lat acc k = Ok acc'
          ∧ longest_inv has_word lat (S k) acc'.
Proof.
  intros Hk (Hlen & Hatt & Hrel & Hfin & Hmax). destruct acc as [m L]. simpl in *.
  destruct (lookup_lt_is_Some_2 m k) as [this Hthis]; [lia|].
  destruct (longest_arcs_step k this m Hlen Hatt Hthis)
    as (m' & Hm' & (Hl' & Hlow & Hmono) & Hatt' & Hnew).
  assert (Hthis' : m' !! k = Some this) by (by rewrite Hlow).
  assert (Hrel' : ∀ s a vs vn, (s < S k)%nat → a ∈ Arcs lat s →
            m' !! s = Some vs → m' !! nextstate a = Some vn →
            (vs + (if has_word a then 1 else 0) ≤ vn)%Z).
  { intros s a vs vn Hs Ha Hvs Hvn. rewrite Hlow in Hvs by lia.
    destruct (decide (s = k)) as [-> | Hne].
    - rewrite Hthis in Hvs. injection Hvs as <-. by eapply Hnew.
    - destruct (lookup_lt_is_Some_2 m (nextstate a)) as [v1 Hv1].
      { rewrite <- Hl'. by eapply lookup_lt_Some. }
      destruct (Hmono _ _ Hv1) as (v' & Hv' & Hle).
      rewrite Hvn in Hv'. injection Hv' as <-.
      assert (Hs1 : (s < k)%nat) by lia.
      pose proof (Hrel s a vs v1 Hs1 Ha Hvs Hv1). lia. }
  unfold longest_state. rewrite (proj2 (vget_Ok _ _ _) Hthis). cbn [mbind result_bind].
  rewrite Hm'. cbn [mbind result_bind].
  fold (is_final lat k). destruct (is_final lat k) eqn:Hfk.
  - rewrite (proj2 (vget_Ok _ _ _) Hthis'). cbn [mbind result_bind].
    eexists. split; [done|].
    split; [simpl; congruence|]. split; [done|]. split; [done|]. simpl. split.
    + intros s v Hs Hfs Hv. rewrite Hlow in Hv by lia.
      destruct (decide (s = k)) as [-> | Hne].
      * rewrite Hthis in Hv. injection Hv as <-. lia.
      * assert (Hs1 : (s < k)%nat) by lia.
        pose proof (Hfin s v Hs1 Hfs Hv). lia.
    + right. destruct (Z.max_spec L this) as [[_ ->]|[Hle ->]].
      * exists k, this. split; [lia|done].
      * destruct Hmax as [->|(s & v & Hs & Hfs & Hv & ->)].
        -- destruct (Hatt k this Hthis) as (s0 & p0 & _ & ->).
           pose proof (words_on_nonneg has_word p0).
           exists k, (words_on has_word p0).
           split; [lia|]. do 2 (split; [done|]). lia.
        -- exists s, v. split; [lia|]. split; [done|]. split; [|done].
           rewrite Hlow by lia. done.
  - eexists. split; [done|].
    split; [simpl; congruence|]. split; [done|]. split; [done|]. simpl. split.
    + intros s v Hs Hfs Hv. rewrite Hlow in Hv by lia.
      destruct (decide (s = k)) as [-> | Hne]; [congruence|].
      apply (Hfin s v); [lia|done..].
    + destruct Hmax as [->|(s & v & Hs & Hfs & Hv & ->)]; [by left|].
      right. exists s, v. split; [lia|]. split; [done|]. split; [|done].
      rewrite Hlow by lia. done.
Qed.

Lemma longest_loop_spec :
  ∃ acc, foldM (longest_state longest_arc lat) (replicate (NumStates lat) 0%Z, 0%Z)
               (seq 0 (NumStates lat)) = Ok acc
         ∧ longest_inv has_word lat (NumStates lat) acc.
Proof.
  destruct (foldM_total (fun pre acc => longest_inv has_word lat (length pre) acc)
              (longest_state longest_arc lat) (seq 0 (NumStates lat))
              (replicate (NumStates lat) 0%Z, 0%Z)) as (acc & Hacc & Hinv).
  - split; [simpl; by rewrite length_replicate|]. split.
    { intros i v Hv. apply lookup_replicate in Hv as [-> _].
      exists i, []. split; [constructor|done]. }
    split; [simpl; intros; lia|]. split; [simpl; intros; lia|]. by left.
  - intros pre x post b1 El Hp. pose proof (seq_split_lt _ _ _ _ El) as Hx.
    apply seq_split_length in El. subst x.
    rewrite length_app. simpl. rewrite Nat.add_1_r. by apply longest_state_step.
  - rewrite length_seq in Hinv. by exists acc.
Qed.

(** The entry of the end of a path is at least the number of its words. *)
Lemma longest_path_bound (m : list Z) (L : Z) (s t : nat) (p : list (Arc W)) (vs : Z) :
  longest_inv has_word lat (NumStates lat) (m, L) →
  path lat s p t → m !! s = Some vs →
  ∃ vt, m !! t = Some vt ∧ (vs + words_on has_word p ≤ vt)%Z.
Proof.
  intros (Hlen & _ & Hrel & _) Hp. simpl in *. revert vs.
  induction Hp as [s|s a p t Ha Hp IH]; intros vs Hvs; simpl.
  - exists vs. split; [done|lia].
  - destruct (lookup_lt_is_Some_2 m (nextstate a)) as [vn Hvn].
    { rewrite Hlen. by apply (Hrange s a). }
    destruct (IH vn Hvn) as (vt & Hvt & Hle). exists vt. split; [done|].
    assert (Hs : (s < NumStates lat)%nat) by (by eapply Arcs_in_range).
    pose proof (Hrel s a vs vn Hs Ha Hvs Hvn). lia.
Qed.

Lemma longest_sentence_spec (TopSort : ∀ W : Type, VectorFst W → option (VectorFst W)) :
  ∃ r, longest_sentence TopSort longest_arc lat = Ok r
       ∧ (0 ≤ r ≤ Z.of_nat (NumStates lat))%Z
       ∧ (∀ s p t, path lat s p t → is_final lat t = true →
            (words_on has_word p ≤ r)%Z)
       ∧ (r = 0%Z ∨ ∃ s p t, path lat s p t ∧ is_final lat t = true
                             ∧ r = words_on has_word p).
Proof.
  destruct longest_loop_spec as ([m L] & Hloop & Hinv).
  exists L. unfold longest_sentence. rewrite Hsorted. cbn [mbind result_bind].
  rewrite Hloop. cbn [mbind result_bind]. split; [done|].
  pose proof Hinv as (Hlen & Hatt & _ & Hfin & Hmax). simpl in *.
  assert (Hatt' : L = 0%Z ∨ ∃ s p t, path lat s p t ∧ is_final lat t = true
                                     ∧ L = words_on has_word p).
  { destruct Hmax as [->|(t & v & _ & Hft & Hv & ->)]; [by left|]. right.
    destruct (Hatt t v Hv) as (s & p & Hp & ->). by exists s, p, t. }
  split; [|split; [|done]].
  - destruct Hatt' as [->|(s & p & t & Hp & Hft & ->)]; [lia|].
    split; [apply words_on_nonneg|].
    pose proof (words_on_length has_word p).
    pose proof (path_sorted lat s p t Hsorted Hp).
    pose proof (is_final_in_range lat t Hft). lia.
  - intros s p t Hp Hft. pose proof (is_final_in_range lat t Hft) as Ht.
    assert (Hs : (s < NumStates lat)%nat).
    { inversion Hp as [|? a ? ? Ha _]; subst; [done|]. by eapply Arcs_in_range. }
    destruct (lookup_lt_is_Some_2 m s) as [vs Hvs]; [lia|].
    destruct (longest_path_bound m L s t p vs Hinv Hp Hvs) as (vt & Hvt & Hle).
    destruct (Hatt s vs Hvs) as (s1 & p1 & _ & ->).
    pose proof (words_on_nonneg has_word p1).
    pose proof (Hfin t vt Ht Hft Hvt). lia.
Qed.

End LongestSentence.

Lemma longest_arc_lat_spec s this m (a : LatticeArc) m' :
  (s < nextstate a)%nat → longest_arc_lat s this m a = Ok m' →
  ∃ mn, m !! nextstate a = Some mn
        ∧ m' = <[nextstate a := Z.max mn (this + (if lat_has_word a then 1 else 0))]> m.
Proof.
  intros Hs Hf. unfold longest_arc_lat in Hf. fold (lat_has_word a) in Hf.
  apply bind_Ok in Hf as (u & _ & Hf). destruct (lat_has_word a).
  - apply bind_Ok in Hf as (u' & _ & Hf).
    apply bind_Ok in Hf as (mn & Hmn & Hf). apply vget_Ok in Hmn.
    apply vset_Ok in Hf as [_ ->]. by exists mn.
  - apply bind_Ok in Hf as (mn & Hmn & Hf). apply vget_Ok in Hmn.
    apply vset_Ok in Hf as [_ ->]. exists mn. by rewrite Z.add_0_r.
Qed.

Lemma longest_arc_lat_total s this m (a : LatticeArc) :
  (s < nextstate a)%nat → (nextstate a < length m)%nat →
  ∃ m', longest_arc_lat s this m a = Ok m'.
Proof.
  intros Hs Hn. unfold longest_arc_lat.
  destruct (lookup_lt_is_Some_2 m (nextstate a) Hn) as [mn Hmn].
  rewrite (proj2 (Nat.ltb_lt _ _) Hn), (proj2 (Nat.ltb_lt _ _) Hs).
  rewrite (proj2 (vget_Ok _ _ _) Hmn). cbn [kaldi_assert mbind result_bind].
  unfold vset. rewrite !decide_True by done. destruct (bool_decide _); by eexists.
Qed.

Lemma longest_arc_clat_spec s this m (a : CompactLatticeArc) m' :
  (s < nextstate a)%nat → longest_arc_clat s this m a = Ok m' →
  ∃ mn, m !! nextstate a = Some mn
        ∧ m' = <[nextstate a := Z.max mn (this + (if clat_has_word a then 1 else 0))]> m.
Proof.
  intros Hs Hf. unfold longest_arc_clat in Hf. fold (clat_has_word a) in Hf.
  apply bind_Ok in Hf as (u & _ & Hf). apply bind_Ok in Hf as (u' & _ & Hf).
  destruct (clat_has_word a).
  - apply bind_Ok in Hf as (mn & Hmn & Hf). apply vget_Ok in Hmn.
    apply vset_Ok in Hf as [_ ->]. by exists mn.
  - apply bind_Ok in Hf as (mn & Hmn & Hf). apply vget_Ok in Hmn.
    apply vset_Ok in Hf as [_ ->]. exists mn. by rewrite Z.add_0_r.
Qed.

Lemma longest_arc_clat_total s this m (a : CompactLatticeArc) :
  (s < nextstate a)%nat → (nextstate a < length m)%nat →
  ∃ m', longest_arc_clat s this m a = Ok m'.
Proof.
  intros Hs Hn. unfold longest_arc_clat.
  destruct (lookup_lt_is_Some_2 m (nextstate a) Hn) as [mn Hmn].
  rewrite (proj2 (Nat.ltb_lt _ _) Hn), (proj2 (Nat.ltb_lt _ _) Hs).
  rewrite (proj2 (vget_Ok _ _ _) Hmn). cbn [kaldi_assert mbind result_bind].
  unfold vset. rewrite !decide_True by done. destruct (bool_decide _); by eexists.
Qed.

Section LongestSentenceTheorems.
Variable TopSort : ∀ W : Type, VectorFst W → option (VectorFst W).

(** X6.  On a sorted [Lattice] whose arcs lead to states of the lattice,
    [LongestSentenceLength] returns the greatest number of arcs with an
    output label on a path that ends in a final state.  The path may begin
    in any state, not only in the start state: every entry of [max_length]
    starts at 0.  The result is 0 when there is no such path, and it is at
    most the number of states. *)
Theorem longest_sentence_length_max (lat : Lattice) :
  top_sorted lat = true → arcs_in_range lat →
  ∃ r, LongestSentenceLength TopSort lat = Ok r
       ∧ (0 ≤ r ≤ Z.of_nat (NumStates lat))%Z
       ∧ (∀ s p t, path lat s p t → is_final lat t = true →
            (words_on lat_has_word p ≤ r)%Z)
       ∧ (r = 0%Z ∨ ∃ s p t, path lat s p t ∧ is_final lat t = true
                             ∧ r = words_on lat_has_word p).
Proof.
  intros Hts Hrange.
  apply (longest_sentence_spec lat_has_word longest_arc_lat
           longest_arc_lat_spec longest_arc_lat_total lat Hts Hrange TopSort).
Qed.

(** X7.  On a sorted [CompactLattice] whose arcs lead to states of the
    lattice, [LongestSentenceLength] returns the greatest number of arcs
    with an input label on a path, from any state, that ends in a final
    state; 0 when there is no such path. *)
Theorem longest_sentence_length_clat_max (clat : CompactLattice) :
  top_sorted clat = true → arcs_in_range clat →
  ∃ r, LongestSentenceLength_clat TopSort clat = Ok r
       ∧ (0 ≤ r ≤ Z.of_nat (NumStates clat))%Z
       ∧ (∀ s p t, path clat s p t → is_final clat t = true →
            (words_on clat_has_word p ≤ r)%Z)
       ∧ (r = 0%Z ∨ ∃ s p t, path clat s p t ∧ is_final clat t = true
                             ∧ r = words_on clat_has_word p).
Proof.
  intros Hts Hrange.
  apply (longest_sentence_spec clat_has_word longest_arc_clat
           longest_arc_clat_spec longest_arc_clat_total clat Hts Hrange TopSort).
Qed.

End LongestSentenceTheorems.

Lemma longest_sentence_length_max_witness :
  ∃ r, LongestSentenceLength Examples.TopSort_unused Examples.two_paths = Ok r
       ∧ (0 ≤ r ≤ Z.of_nat (NumStates Examples.two_paths))%Z
       ∧ (∀ s p t, path Examples.two_paths s p t →
            is_final Examples.two_paths t = true → (words_on lat_has_word p ≤ r)%Z)
       ∧ (r = 0%Z ∨ ∃ s p t, path Examples.two_paths s p t
                             ∧ is_final Examples.two_paths t = true
                             ∧ r = words_on lat_has_word p).
Proof.
  apply (longest_sentence_length_max Examples.TopSort_unused Examples.two_paths).
  - reflexivity.
  - apply arcs_in_rangeb_correct; reflexivity.
Defined.

Lemma longest_sentence_length_clat_max_witness :
  ∃ r, LongestSentenceLength_clat Examples.TopSort_unused Examples.linear_clat = Ok r
       ∧ (0 ≤ r ≤ Z.of_nat (NumStates Examples.linear_clat))%Z
       ∧ (∀ s p t, path Examples.linear_clat s p t →
            is_final Examples.linear_clat t = true → (words_on clat_has_word p ≤ r)%Z)
       ∧ (r = 0%Z ∨ ∃ s p t, path Examples.linear_clat s p t
                             ∧ is_final Examples.linear_clat t = true
                             ∧ r = words_on clat_has_word p).
Proof.
  apply (longest_sentence_length_clat_max Examples.TopSort_unused Examples.linear_clat).
  - reflexivity.
  - apply arcs_in_rangeb_correct; reflexivity.
Defined.

(* ================================================================== *)
(** ** Shortest path: the empty result, and the alignment of the result *)

Lemma xltb_not_PInf a b : xltb a b = true → a ≠ PInf.
Proof. by destruct a, b. Qed.

(** An entry of the table with a predecessor has a cost below plus
    infinity. *)
Lemma shortest_path_table_pred (clat : CompactLattice)
  (best : list (xnum * option nat)) :
  shortest_path_table clat = Ok best →
  ∀ i c u, best !! i = Some (c, Some u) → c ≠ PInf.
Proof.
  unfold shortest_path_table. intros Hf.
  apply bind_Ok in Hf as (best0 & H0 & Hf). apply vset_Ok in H0 as [_ ->].
  refine (foldM_inv (fun _ b => ∀ i c u, b !! i = Some (c, Some u) → c ≠ PInf)
            _ _ _ _ _ _ Hf).
  - intros i c u. rewrite list_lookup_insert. destruct (decide _); [done|].
    intros Hr. by apply lookup_replicate in Hr as [? _].
  - intros pre s post b1 b2 _ Hp Hstep. unfold shortest_path_state in Hstep.
    apply bind_Ok in Hstep as (b & _ & Hstep).
    apply bind_Ok in Hstep as (b3 & Harcs & Hstep).
    assert (Hp3 : ∀ i c u, b3 !! i = Some (c, Some u) → c ≠ PInf).
    { refine (foldM_inv (fun _ b => ∀ i c u, b !! i = Some (c, Some u) → c ≠ PInf)
                _ _ _ _ _ _ Harcs); [exact Hp|].
      intros pre' a post' b4 b5 _ Hp4 Hstep'. unfold shortest_path_arc in Hstep'.
      apply bind_Ok in Hstep' as (bn & _ & Hstep').
      destruct (xltb _ _) eqn:Hlt; [|by inv_ok].
      apply vset_Ok in Hstep' as [_ ->]. intros i c u.
      rewrite list_lookup_insert. destruct (decide _); [|apply Hp4].
      intros Hv. injection Hv as <- _. by eapply xltb_not_PInf. }
    apply bind_Ok in Hstep as (bf & _ & Hstep).
    destruct (xltb _ _) eqn:Hlt; [|by inv_ok].
    apply vset_Ok in Hstep as [_ ->]. intros i c u.
    rewrite list_lookup_insert. destruct (decide _); [|apply Hp3].
    intros Hv. injection Hv as <- _. by eapply xltb_not_PInf.
Qed.

Lemma is_cost_not_PInf_finite a : is_cost a → a ≠ PInf → is_finite a.
Proof. by destruct a. Qed.

Lemma xle_PInf_l a : (PInf <= a)%X → a = PInf.
Proof. by destruct a. Qed.

Section ShortestPathOutcome.
Variable TopSort : ∀ W : Type, VectorFst W → option (VectorFst W).
Variable clat : CompactLattice.
Hypothesis Hsorted : top_sorted clat = true.
Hypothesis Hrange : arcs_in_range clat.
Hypothesis Hcosts : costs_ok clat.
Hypothesis Hstart : Start clat = Some 0%nat.
Hypothesis Hn : (0 < NumStates clat)%nat.

(** The two outcomes of [CompactLatticeShortestPath]. *)
Lemma shortest_path_outcome :
  (CompactLatticeShortestPath TopSort clat = Ok DeleteStates
   ∧ ∀ p t, path clat 0 p t → (t < NumStates clat)%nat →
            (path_cost p + final_cost clat t)%X = PInf)
  ∨ ∃ chosen t,
      CompactLatticeShortestPath TopSort clat
      = Ok (linear_lattice chosen (Final clat t))
      ∧ path clat 0 chosen t ∧ is_final clat t = true
      ∧ is_finite (path_cost chosen + final_cost clat t)%X.
Proof.
  destruct (shortest_path_table_spec clat Hsorted Hrange Hcosts Hn) as (best & Htab & Hinv).
  pose proof Hinv as (Hlen & Hcost & Hzero & Hrel & Hfrel & Hpred & Hnone).
  destruct (lookup_lt_is_Some_2 best (NumStates clat)) as [[cf prf] Hcf]; [lia|].
  pose proof (table_inv_best_final clat Hcosts best cf prf Hinv Hcf) as Hbound.
  destruct prf as [u|].
  - right.
    assert (Hcf_fin : is_finite cf).
    { apply is_cost_not_PInf_finite; [by eapply Hcost|].
      by eapply (shortest_path_table_pred clat best Htab). }
    destruct (shortest_path_walk_spec clat best Hinv (S (NumStates clat))
                (NumStates clat) [] cf (Some u)) as (chain & Hw & Hpp); [lia|done|done|].
    inversion Hpp as [Hz|sts' t v c Hp' Hv0 Hbv Heq1 Heq2]; [lia|]. subst v.
    rewrite Hcf in Hbv. injection Hbv as <- ->.
    destruct (Hpred _ _ _ Hcf) as (Htn & _ & ct & prt & Hct & Hor).
    destruct Hor as [[? _]|[_ Hcfe]]; [lia|].
    destruct (pred_path_chosen clat Hcosts best Hinv sts' t Hp' Htn)
      as (chosen & cv & prv & Hcv & Hl & Hpath & Hle & Hsel & _).
    rewrite Hct in Hcv. injection Hcv as <- <-.
    assert (Hft : is_finite (final_cost clat t)).
    { rewrite Hcfe in Hcf_fin. by eapply xadd_finite_r. }
    exists chosen, t. split; [|split; [done|split]].
    + unfold CompactLatticeShortestPath. rewrite Hsorted. cbn [mbind result_bind].
      rewrite Hstart. rewrite bool_decide_true by done.
      cbn [kaldi_assert mbind result_bind]. rewrite Htab. cbn [mbind result_bind].
      rewrite Hw. cbn [mbind result_bind app]. rewrite <- Heq1.
      apply shortest_path_build_spec; [| |done].
      * rewrite length_app. simpl. lia.
      * by rewrite Hl, lookup_app_r, Nat.sub_diag by done.
    + by apply final_cost_is_final, is_finite_not_PInf.
    + eapply xle_finite; [| |exact Hcf_fin].
      * apply xadd_is_cost; [by eapply path_cost_is_cost|apply (Hcosts t)].
      * rewrite Hcfe. apply xle_add_r_mono; [|apply (Hcosts t)|done].
        by eapply path_cost_is_cost.
  - left. split.
    + unfold CompactLatticeShortestPath. rewrite Hsorted. cbn [mbind result_bind].
      rewrite Hstart. rewrite bool_decide_true by done.
      cbn [kaldi_assert mbind result_bind]. rewrite Htab. cbn [mbind result_bind].
      cbn [shortest_path_walk]. rewrite bool_decide_false by lia.
      rewrite (proj2 (vget_Ok _ _ _) Hcf). done.
    + intros p t Hp Ht. apply xle_PInf_l.
      destruct (Hnone _ _ Hcf) as [?|Heq]; [lia|]. rewrite <- Heq at 1.
      by apply Hbound.
Qed.

End ShortestPathOutcome.

Lemma word_alignment_loop_linear (p : list CompactLatticeArc) (fw : CompactLatticeWeight) :
  weight_neb fw Zero = true →
  ∀ q pre fuel t ws bs ls,
    p = pre ++ q → (length q < fuel)%nat →
    word_alignment_loop fuel (linear_lattice p fw) (length pre) t ws bs ls
    = Ok (true, (ws ++ (ilabel <$> q),
                 bs ++ begin_times_from t ((fun a => Z.of_nat (arc_frames a)) <$> q),
                 ls ++ ((fun a => Z.of_nat (arc_frames a)) <$> q))).
Proof.
  intros Hfw. induction q as [|a q IH]; intros pre fuel t ws bs ls Hp Hfuel.
  - destruct fuel as [|fuel]; [simpl in Hfuel; lia|].
    rewrite word_alignment_loop_S. rewrite app_nil_r in Hp. subst pre.
    unfold state_at. rewrite (proj2 (vget_Ok _ _ _) (linear_lattice_lookup_last p fw)).
    cbn [mbind result_bind final arcs length]. rewrite Hfw.
    rewrite bool_decide_false by auto. simpl. by rewrite !app_nil_r.
  - destruct fuel as [|fuel]; [simpl in Hfuel; lia|].
    rewrite word_alignment_loop_S.
    assert (Ha : p !! length pre = Some a).
    { rewrite Hp. by rewrite lookup_app_r, Nat.sub_diag by done. }
    unfold state_at.
    rewrite (proj2 (vget_Ok _ _ _) (linear_lattice_lookup_arc p fw _ a Ha)).
    cbn [mbind result_bind final arcs ilabel weight nextstate].
    replace (weight_neb (Zero : CompactLatticeWeight) Zero) with false by reflexivity.
    specialize (IH (pre ++ [a]) fuel
                   (t + Z.of_nat (length (String (weight a))))%Z
                   (ws ++ [ilabel a]) (bs ++ [t])
                   (ls ++ [Z.of_nat (length (String (weight a)))])).
    rewrite length_app in IH. simpl in IH. rewrite Nat.add_1_r in IH.
    rewrite IH; [|by rewrite <- app_assoc|simpl in Hfuel; lia].
    by rewrite <- !app_assoc.
Qed.

Section ShortestPathAlignment.
Variable TopSort : ∀ W : Type, VectorFst W → option (VectorFst W).

(** X8.  The result of [CompactLatticeShortestPath] is linear in the sense
    of [CompactLatticeToWordAlignment].  On a sorted compact lattice with
    start state 0 and a path of finite cost to a final state, the shortest
    path is given to [CompactLatticeToWordAlignment], which returns [true]
    with the input labels of the chosen arcs as words, their numbers of
    frames as lengths, and the running sums of these as begin times. *)
Theorem shortest_path_aligns (clat : CompactLattice)
  (p0 : list CompactLatticeArc) (t0 : nat) :
  top_sorted clat = true → arcs_in_range clat → costs_ok clat →
  Start clat = Some 0%nat →
  path clat 0 p0 t0 → is_finite (path_cost p0 + final_cost clat t0)%X →
  ∃ sp chosen t,
    CompactLatticeShortestPath TopSort clat = Ok sp
    ∧ path clat 0 chosen t ∧ is_final clat t = true
    ∧ NumStates sp = S (length chosen)
    ∧ ∀ fuel, (length chosen < fuel)%nat →
        CompactLatticeToWordAlignment fuel sp
        = Ok (true,
              (ilabel <$> chosen,
               begin_times_from 0 ((fun a => Z.of_nat (arc_frames a)) <$> chosen),
               (fun a => Z.of_nat (arc_frames a)) <$> chosen)).
Proof.
  intros Hts Hrange Hcosts Hstart Hp0 Hfin0.
  assert (Ht0 : (t0 < NumStates clat)%nat).
  { apply is_final_in_range, final_cost_is_final, is_finite_not_PInf.
    by eapply xadd_finite_r. }
  assert (Hn : (0 < NumStates clat)%nat) by lia.
  destruct (shortest_path_outcome TopSort clat Hts Hrange Hcosts Hstart Hn)
    as [[_ Hall]|(chosen & t & Hsp & Hpath & Hft & _)].
  { rewrite (Hall p0 t0 Hp0 Ht0) in Hfin0. done. }
  exists (linear_lattice chosen (Final clat t)), chosen, t.
  do 3 (split; [done|]). split; [apply linear_lattice_length|].
  intros fuel Hfuel. unfold CompactLatticeToWordAlignment. cbn [linear_lattice Start].
  apply (word_alignment_loop_linear chosen (Final clat t) Hft chosen [] fuel 0%Z [] [] []);
    [done|done].
Qed.

(** X9.  On a sorted compact lattice whose weights have costs, with no
    start state or with start state 0, [CompactLatticeShortestPath] returns
    the empty FST exactly when there is no start state or no path from the
    start state ends in a state with a final cost at a finite total cost. *)
Theorem shortest_path_empty (clat : CompactLattice) :
  top_sorted clat = true → arcs_in_range clat → costs_ok clat →
  (Start clat = None ∨ (Start clat = Some 0%nat ∧ (0 < NumStates clat)%nat)) →
  CompactLatticeShortestPath TopSort clat = Ok DeleteStates
  ↔ (Start clat = None
     ∨ ∀ p t, path clat 0 p t → (t < NumStates clat)%nat →
              (path_cost p + final_cost clat t)%X = PInf).
Proof.
  intros Hts Hrange Hcosts [Hnone|[Hstart Hn]].
  - split; [by left|]. intros _. unfold CompactLatticeShortestPath.
    rewrite Hts. cbn [mbind result_bind]. by rewrite Hnone.
  - destruct (shortest_path_outcome TopSort clat Hts Hrange Hcosts Hstart Hn)
      as [[Hsp Hall]|(chosen & t & Hsp & Hpath & Hft & Hfin)].
    + split; [by right|done].
    + split.
      * rewrite Hsp. intros Heq. injection Heq as Heq. discriminate Heq.
      * intros [Hnone|Hall]; [congruence|].
        rewrite (Hall chosen t Hpath) in Hfin; [done|by apply is_final_in_range].
Qed.

End ShortestPathAlignment.

Lemma shortest_path_aligns_witness :
  ∃ sp chosen t,
    CompactLatticeShortestPath Examples.TopSort_unused Examples.parallel_arcs = Ok sp
    ∧ path Examples.parallel_arcs 0 chosen t
    ∧ is_final Examples.parallel_arcs t = true
    ∧ NumStates sp = S (length chosen)
    ∧ ∀ fuel, (length chosen < fuel)%nat →
        CompactLatticeToWordAlignment fuel sp
        = Ok (true,
              (ilabel <$> chosen,
               begin_times_from 0 ((fun a => Z.of_nat (arc_frames a)) <$> chosen),
               (fun a => Z.of_nat (arc_frames a)) <$> chosen)).
Proof.
  apply (shortest_path_aligns Examples.TopSort_unused Examples.parallel_arcs
           [mkArc 1 1 (Examples.clw 1 0 [7%Z]) 1%nat] 1%nat).
  - reflexivity.
  - apply arcs_in_rangeb_correct; reflexivity.
  - apply costs_okb_correct; reflexivity.
  - reflexivity.
  - apply path_cons; [apply list_elem_of_further, list_elem_of_here|apply path_nil].
  - reflexivity.
Defined.

Lemma shortest_path_empty_witness :
  CompactLatticeShortestPath Examples.TopSort_unused Examples.no_final_clat
  = Ok DeleteStates
  ↔ (Start Examples.no_final_clat = None
     ∨ ∀ p t, path Examples.no_final_clat 0 p t →
              (t < NumStates Examples.no_final_clat)%nat →
              (path_cost p + final_cost Examples.no_final_clat t)%X = PInf).
Proof.
  apply (shortest_path_empty Examples.TopSort_unused Examples.no_final_clat).
  - reflexivity.
  - apply arcs_in_rangeb_correct; reflexivity.
  - apply costs_okb_correct; reflexivity.
  - right. split; [reflexivity|]. unfold NumStates. simpl. lia.
Defined.

(* ================================================================== *)
(** ** Rescoring: features that end before the lattice *)

Lemma rescore_frames_app (decodable : DecodableInterface) (utt_len : Z)
  (tts : list (list nat)) (ts1 ts2 : list Z) (lat lat1 : Lattice) :
  rescore_frames decodable utt_len tts ts1 lat = Ok (true, lat1) →
  rescore_frames decodable utt_len tts (ts1 ++ ts2) lat
  = rescore_frames decodable utt_len tts ts2 lat1.
Proof.
  revert lat. induction ts1 as [|t ts1 IH]; intros lat Hf; simpl in *.
  - by injection Hf as ->.
  - destruct ((t <? utt_len - 1)%Z && IsLastFrame decodable t); [done|].
    destruct (vget tts (Z.to_nat t)) as [bucket|]; [|done]. simpl in *.
    by apply IH.
Qed.

(** The frames below [k], none of which is the last frame of the oracle. *)
Lemma rescore_frames_prefix (decodable : DecodableInterface) (utt_len : Z)
  (tts : list (list nat)) (times : list Z) (n : nat) (lat : Lattice) (k : nat) :
  length tts = Z.to_nat utt_len →
  (∀ t, (t < Z.to_nat utt_len)%nat →
        tts !! t = Some (states_at_time times n (Z.of_nat t))) →
  (∀ t, (0 ≤ t < Z.of_nat k)%Z → IsLastFrame decodable t = false) →
  NumStates lat = n →
  (k ≤ Z.to_nat utt_len)%nat →
  ∀ j, (j ≤ k)%nat →
  rescore_frames decodable utt_len tts (seqZ (Z.of_nat j) (Z.of_nat (k - j)))
    (mkFst (Start lat) (rescored_below decodable times (Z.of_nat j) (states lat)))
  = Ok (true, mkFst (Start lat)
                    (rescored_below decodable times (Z.of_nat k) (states lat))).
Proof.
  intros Hl Hb Hlast Hn Hk j Hj.
  remember (k - j)%nat as m eqn:Hm. revert j Hj Hm.
  induction m as [|m IH]; intros j Hj Hm.
  - simpl. assert (j = k) as -> by lia. done.
  - rewrite Nat2Z.inj_succ, seqZ_cons by lia. simpl.
    rewrite (Hlast (Z.of_nat j)) by lia. rewrite andb_false_r.
    unfold vget. rewrite Nat2Z.id, Hb by lia. simpl.
    rewrite Z.pred_succ.
    replace (Z.succ (Z.of_nat j)) with (Z.of_nat (S j)) by lia.
    rewrite <- (IH (S j)) by lia. f_equal.
    rewrite rescore_state_as_SetArcs.
    rewrite (foldl_SetArcs_in (fun _ a => rescore_arc decodable (Z.of_nat j) <$> a))
      by (apply NoDup_filter, NoDup_seq).
    simpl. f_equal. unfold map_arcs_in, rescored_below.
    apply list_eq. intros s. rewrite !list_lookup_imap.
    destruct (states lat !! s) as [d|] eqn:Hd; simpl; [|done]. f_equal.
    assert (Hs : (s < n)%nat) by (rewrite <- Hn; by eapply lookup_lt_Some).
    unfold states_at_time.
    destruct (times !! s) as [t|] eqn:Ht.
    + destruct (decide (t = Z.of_nat j)) as [->|Hne].
      * rewrite bool_decide_true.
        2:{ apply list_elem_of_filter. split; [done|]. apply elem_of_seq. lia. }
        rewrite (bool_decide_false (0 ≤ Z.of_nat j < Z.of_nat j)%Z) by lia.
        by rewrite bool_decide_true by lia.
      * rewrite bool_decide_false.
        2:{ intros Hin. apply list_elem_of_filter in Hin as [Hin _]. congruence. }
        destruct (decide (0 ≤ t < Z.of_nat j)%Z).
        -- by rewrite !bool_decide_true by lia.
        -- by rewrite !bool_decide_false by lia.
    + rewrite bool_decide_false; [done|].
      intros Hin. apply list_elem_of_filter in Hin as [Hin _]. congruence.
Qed.

Section RescoreShortFeatures.
Variable TopSort : ∀ W : Type, VectorFst W → option (VectorFst W).

(** X10.  When the oracle reports its last frame at a frame [t0] before the
    last frame of the lattice, and at no frame before [t0], [RescoreLattice]
    returns [false] and leaves the lattice rescored in part: the arcs of
    the states with a time below [t0] are rescored as in a full run, and
    all other states are as they were. *)
Theorem rescore_lattice_short_features (decodable : DecodableInterface)
  (lat : Lattice) (utt_len : Z) (times : list Z) (t0 : Z) :
  LatticeStateTimes lat = Ok (utt_len, times) →
  (0 ≤ t0 < utt_len - 1)%Z →
  IsLastFrame decodable t0 = true →
  (∀ t, (0 ≤ t < t0)%Z → IsLastFrame decodable t = false) →
  RescoreLattice TopSort decodable lat
  = Ok (false, mkFst (Start lat) (rescored_below decodable times t0 (states lat))).
Proof.
  intros Ht Ht0 Hlast Hbefore.
  destruct (lattice_state_times_ok lat utt_len times Ht)
    as (Hts & Hstart & (Hlen & Hge & Harc) & Hmax & Hpos & Hn0).
  destruct (time_to_state_buckets utt_len times (NumStates lat) Hlen Hmax)
    as (tts & Hf & Hl & Hb).
  unfold RescoreLattice. rewrite bool_decide_false by lia.
  rewrite Hts, Ht. simpl. rewrite bool_decide_true by done. simpl.
  rewrite Hf. simpl.
  assert (Hsplit : seqZ 0 utt_len
                   = seqZ 0 t0 ++ seqZ t0 (utt_len - t0)).
  { replace utt_len with (t0 + (utt_len - t0))%Z at 1 by lia.
    rewrite seqZ_app by lia. by rewrite Z.add_0_l. }
  rewrite Hsplit.
  pose proof (rescore_frames_prefix decodable utt_len tts times (NumStates lat) lat
                (Z.to_nat t0) Hl Hb) as Hr.
  rewrite Z2Nat.id in Hr by lia.
  specialize (Hr Hbefore eq_refl).
  assert (Hk : (Z.to_nat t0 ≤ Z.to_nat utt_len)%nat) by lia.
  specialize (Hr Hk 0%nat (Nat.le_0_l _)).
  rewrite Nat.sub_0_r, Z2Nat.id in Hr by lia. simpl in Hr.
  rewrite rescored_below_0 in Hr.
  replace (mkFst (Start lat) (states lat)) with lat in Hr by (by destruct lat).
  rewrite (rescore_frames_app _ _ _ _ _ _ _ Hr).
  rewrite seqZ_cons by lia. simpl.
  rewrite Hlast. by rewrite (proj2 (Z.ltb_lt _ _)) by lia.
Qed.

End RescoreShortFeatures.

Lemma rescore_lattice_short_features_witness :
  RescoreLattice Examples.TopSort_unused Examples.short_oracle Examples.two_paths
  = Ok (false, mkFst (Start Examples.two_paths)
                     (rescored_below Examples.short_oracle [0; 1; 1; 2]%Z 0
                                     (states Examples.two_paths))).
Proof.
  apply (rescore_lattice_short_features Examples.TopSort_unused Examples.short_oracle
           Examples.two_paths 2 [0; 1; 1; 2]%Z 0).
  - reflexivity.
  - lia.
  - reflexivity.
  - intros t Ht. lia.
Defined.

(* ================================================================== *)
(** ** Beam pruning: the final weights and the size of the result *)

Lemma xneb_PInf_false a : xneb a PInf = false → a = PInf.
Proof. by destruct a. Qed.

Section PruneFinals.
Context {W : Type} `{WeightLaws W}.
Variable TopSort : ∀ W : Type, VectorFst W → option (VectorFst W).


End PruneFinals.


(* ================================================================== *)
(** ** Depth limiting: the result is a part of the lattice *)

Section LimitDepthSublattice.
Variable TopSort : ∀ W : Type, VectorFst W → option (VectorFst W).
Variable LogAdd : xnum → xnum → xnum.
Variable nth_element : nat → list LatticeArcRecord.t → list LatticeArcRecord.t.

(** X12.  [CompactLatticeLimitDepth] only removes: on a sorted lattice with
    a start state, for a depth of at least 1 and [std::nth_element]
    rearranging the records, the result is sorted and has no more states
    than the lattice; with [keep] the old id of every state of the result,
    every state keeps its final weight, and every arc of the result is an
    arc of the lattice with the same labels and weight between the old
    states. *)
Theorem limit_depth_sublattice (D : Z) (clat clat' : CompactLattice) (s0 : nat) :
  (1 ≤ D < 2 ^ 31)%Z →
  (∀ n l, nth_element n l ≡ₚ l) →
  top_sorted clat = true → Start clat = Some s0 →
  CompactLatticeLimitDepth TopSort LogAdd nth_element D clat = Ok clat' →
  top_sorted clat' = true
  ∧ (NumStates clat' ≤ NumStates clat)%nat
  ∧ ∃ keep : list nat,
      length keep = NumStates clat'
      ∧ (∀ j s, keep !! j = Some s → Final clat' j = Final clat s)
      ∧ ∀ j a', a' ∈ Arcs clat' j →
          ∃ s a, keep !! j = Some s ∧ a ∈ Arcs clat s ∧ renumbered keep a a'.
Proof.
  intros HD Hperm Hts Hs0 Hlimit. unfold CompactLatticeLimitDepth in Hlimit.
  rewrite Hs0 in Hlimit. unfold TopSortCompactLatticeIfNeeded at 2 in Hlimit.
  rewrite Hts in Hlimit. cbn [mbind result_bind] in Hlimit.
  apply bind_Ok in Hlimit as (pruned & Hprune & Hlimit).
  destruct (limit_depth_prune_spec LogAdd nth_element Hperm D clat pruned HD Hprune)
    as (T & times & Htimes & Hkilled & _).
  apply clat_state_times_ok in Htimes as (_ & Hstart & Hinv).
  pose proof (pruned_sorted clat pruned Hts Hkilled) as Hps.
  assert (clat' = Connect pruned) as ->.
  { unfold TopSortCompactLatticeIfNeeded in Hlimit.
    rewrite (Connect_top_sorted pruned Hps) in Hlimit. by inv_ok. }
  assert (Hkeep : ∀ s, s ∈ connect_keep pruned → (s < NumStates clat)%nat).
  { intros s Hs. pose proof (dead_state_not_kept clat pruned Hkilled) as Hbad.
    apply elem_of_connect_keep in Hs as Hs'. destruct Hs' as (Hlt & _).
    destruct Hkilled as (_ & Hn & _). rewrite Hn in Hlt.
    unfold AddState, NumStates in Hlt. simpl in Hlt. rewrite length_app in Hlt.
    simpl in Hlt. fold (NumStates clat) in Hlt.
    destruct (decide (s = NumStates clat)) as [-> | Hne]; [done|lia]. }
  split; [by apply Connect_top_sorted|]. split.
  { rewrite Connect_NumStates.
    assert (Hsub : connect_keep pruned ⊆+ seq 0 (NumStates clat)).
    { apply NoDup_submseteq; [apply connect_keep_NoDup|].
      intros s Hs. apply elem_of_seq. split; [lia|]. simpl. by apply Hkeep. }
    apply submseteq_length in Hsub. by rewrite length_seq in Hsub. }
  exists (connect_keep pruned). split; [by rewrite Connect_NumStates|]. split.
  - intros j s Hj. rewrite (Connect_Final pruned j s Hj).
    destruct Hkilled as (_ & _ & Hk). destruct (Hk s) as (Hf & _).
    by rewrite Hf, Final_AddState.
  - intros j a' Ha'. pose proof (Arcs_in_range _ _ _ Ha') as Hj.
    destruct (Connect_state_old pruned j Hj) as [s Hs].
    destruct (Connect_arc_inv pruned j s a' Hs Ha') as (a1 & Ha1 & Hren).
    apply list_elem_of_lookup in Ha1 as [pos Ha1].
    destruct (pruned_arc_origin clat pruned Hkilled s pos a1 Ha1)
      as (a & Ha & Hil & Hol & Hw & Hn).
    exists s, a. split; [done|]. split; [by eapply list_elem_of_lookup_2|].
    destruct Hren as (Hil' & Hol' & Hw' & Hn').
    unfold renumbered. rewrite Hil', Hol', Hw', Hn'.
    do 3 (split; [done|]). f_equal. destruct Hn as [Hn|Hn]; [done|].
    exfalso. apply (dead_state_not_kept clat pruned Hkilled).
    rewrite <- Hn. by eapply list_elem_of_lookup_2.
Qed.

End LimitDepthSublattice.

Lemma limit_depth_sublattice_witness :
  ∃ clat',
    CompactLatticeLimitDepth Examples.TopSort_unused Examples.LogAdd_unused
      Examples.nth_element_sort 1 Examples.parallel_arcs = Ok clat'
    ∧ top_sorted clat' = true
    ∧ (NumStates clat' ≤ NumStates Examples.parallel_arcs)%nat
    ∧ ∃ keep : list nat,
        length keep = NumStates clat'
        ∧ (∀ j s, keep !! j = Some s → Final clat' j = Final Examples.parallel_arcs s)
        ∧ ∀ j a', a' ∈ Arcs clat' j →
            ∃ s a, keep !! j = Some s ∧ a ∈ Arcs Examples.parallel_arcs s
                   ∧ renumbered keep a a'.
Proof.
  eexists. split; [reflexivity|].
  apply (limit_depth_sublattice Examples.TopSort_unused Examples.LogAdd_unused
           Examples.nth_element_sort 1 Examples.parallel_arcs _ 0%nat).
  - lia.
  - apply nth_element_sort_perm.
  - reflexivity.
  - reflexivity.
  - reflexivity.
Defined.

(* ================================================================== *)
(** ** Viterbi alphas and betas *)

Lemma xneg_involutive a : xneg (xneg a) = a.
Proof. destruct a as [|[n d]| |]; simpl; try done. unfold Qopp. simpl. by rewrite Z.opp_involutive. Qed.

Lemma xneg_add a b : xneg (a + b)%X = (xneg a + xneg b)%X.
Proof.
  destruct a as [|[n1 d1]| |], b as [|[n2 d2]| |]; simpl; try done.
  unfold Qplus, Qopp. simpl. f_equal. f_equal. lia.
Qed.

Lemma xltb_neg a b : xltb (xneg a) (xneg b) = xltb b a.
Proof.
  destruct a as [|[n1 d1]| |], b as [|[n2 d2]| |]; simpl; try done.
  unfold Qltb. simpl.
  destruct (- n1 * Z.pos d2 <? - n2 * Z.pos d1)%Z eqn:E1,
           (n2 * Z.pos d1 <? n1 * Z.pos d2)%Z eqn:E2; try done;
    rewrite ?Z.ltb_lt, ?Z.ltb_ge in *; lia.
Qed.

Lemma xmax_neg a b : xmax (xneg a) (xneg b) = xneg (if xltb b a then b else a).
Proof. unfold xmax. rewrite xltb_neg. by destruct (xltb b a). Qed.

Lemma xltb_add_PInf a b : xltb (a + PInf)%X b = false.
Proof. by destruct a, b. Qed.

Lemma foldM_sim {A B C : Type} (g : B → C) (f1 : B → A → result B)
  (f2 : C → A → result C) :
  (∀ b1 x b2, f1 b1 x = Ok b2 → f2 (g b1) x = Ok (g b2)) →
  ∀ l b r, foldM f1 b l = Ok r → foldM f2 (g b) l = Ok (g r).
Proof.
  intros Hstep. induction l as [|x l IH]; intros b r Hf; simpl in *.
  - by injection Hf as ->.
  - apply bind_Ok in Hf as (b1 & Hb1 & Hf).
    rewrite (Hstep _ _ _ Hb1). simpl. by apply IH.
Qed.

Section ViterbiSimulation.
Context {W : Type} `{WeightLaws W}.
Variable LogAdd : xnum → xnum → xnum.
Variable f : VectorFst W.

(** The forward pass on likelihoods is the forward pass of [PruneLattice]
    on costs, negated. *)
Lemma alpha_arc_sim (n k : nat) (this : xnum) (fc fc' : list xnum) (a : Arc W) :
  prune_forward_arc n k this fc a = Ok fc' →
  alpha_arc LogAdd true (xneg this) (xneg <$> fc) a = Ok (xneg <$> fc').
Proof.
  unfold prune_forward_arc, alpha_arc. intros Hf.
  apply bind_Ok in Hf as (u & _ & Hf).
  apply bind_Ok in Hf as (fn & Hfn & Hf). apply vget_Ok in Hfn.
  assert (Hl : (xneg <$> fc) !! nextstate a = Some (xneg fn)).
  { by rewrite list_lookup_fmap, Hfn. }
  rewrite (proj2 (vget_Ok _ _ _) Hl). cbn [mbind result_bind LogAddOrMax].
  rewrite <- xneg_add, xmax_neg. unfold vset.
  rewrite decide_True by (rewrite length_fmap; by eapply lookup_lt_Some).
  unfold xgtb in Hf. f_equal.
  destruct (xltb (this + ConvertToCost (weight a))%X fn).
  - apply vset_Ok in Hf as [_ ->]. by rewrite list_fmap_insert.
  - injection Hf as <-. by apply list_insert_id.
Qed.

Lemma alpha_state_sim (n k : nat) (acc acc' : list xnum * xnum) :
  prune_forward_state f n acc k = Ok acc' →
  alpha_state LogAdd f true (xneg <$> acc.1, xneg acc.2) k
  = Ok (xneg <$> acc'.1, xneg acc'.2).
Proof.
  destruct acc as [fc bfc]. unfold prune_forward_state, alpha_state. simpl.
  intros Hf. apply bind_Ok in Hf as (this & Hthis & Hf). apply vget_Ok in Hthis.
  apply bind_Ok in Hf as (fc' & Harcs & Hf). injection Hf as <-. simpl.
  assert (Hl : (xneg <$> fc) !! k = Some (xneg this)).
  { by rewrite list_lookup_fmap, Hthis. }
  rewrite (proj2 (vget_Ok _ _ _) Hl). cbn [mbind result_bind].
  rewrite (foldM_sim (fmap (M:=list) xneg) (prune_forward_arc n k this)
             (alpha_arc LogAdd true (xneg this))
             (fun b1 x b2 => alpha_arc_sim n k this b1 b2 x) _ _ _ Harcs).
  cbn [mbind result_bind LogAddOrMax].
  destruct (weight_neb (Final f k) Zero) eqn:Hne.
  - unfold xsub. by rewrite <- xneg_add, xmax_neg.
  - unfold weight_neb in Hne. apply negb_false_iff in Hne.
    rewrite (weight_eqb_Zero_cost _ Hne). by rewrite xltb_add_PInf.
Qed.

End ViterbiSimulation.

Section ViterbiBackward.
Context {W : Type} `{WeightLaws W}.
Variable LogAdd : xnum → xnum → xnum.
Variable f : VectorFst W.
Hypothesis Hsorted : top_sorted f = true.
Hypothesis Hrange : arcs_in_range f.
Hypothesis Hcosts : costs_ok f.

Lemma beta_arcs_fold (bw : list xnum) (l : list (Arc W)) (b : xnum) :
  (∀ a, a ∈ l → (nextstate a < length bw)%nat) →
  foldM (beta_arc LogAdd true (xneg <$> bw)) (xneg b) l
  = Ok (xneg (foldl (backward_relax bw) b l)).
Proof.
  revert b. induction l as [|a l IH]; intros b Hl; [done|].
  destruct (lookup_lt_is_Some_2 bw (nextstate a)) as [bn Hbn].
  { apply Hl, list_elem_of_here. }
  cbn [foldM foldl]. unfold beta_arc at 2.
  assert (Hlk : (xneg <$> bw) !! nextstate a = Some (xneg bn)).
  { by rewrite list_lookup_fmap, Hbn. }
  rewrite (proj2 (vget_Ok _ _ _) Hlk). cbn [mbind result_bind LogAddOrMax].
  rewrite <- xneg_add, xmax_neg.
  assert (Hr : backward_relax bw b a
               = (if xltb (bn + ConvertToCost (weight a))%X b
                  then (bn + ConvertToCost (weight a))%X else b)).
  { unfold backward_relax, arc_cost. rewrite Hbn. simpl.
    by rewrite (xadd_comm (ConvertToCost (weight a)) bn). }
  rewrite <- Hr. apply IH. intros a' Ha'. by apply Hl, list_elem_of_further.
Qed.

(** The backward cost of a state from the backward costs of the later
    states. *)
Lemma backward_cost_relax (k : nat) (bw : list xnum) :
  length bw = NumStates f → (k < NumStates f)%nat →
  (∀ s v, (k < s)%nat → bw !! s = Some v → is_backward_cost f s v) →
  is_backward_cost f k (foldl (backward_relax bw) (final_cost f k) (Arcs f k)).
Proof.
  intros Hlen Hk Hbw.
  assert (Hsucc : ∀ a, a ∈ Arcs f k →
            is_cost (arc_cost a) ∧ is_cost (default PInf (bw !! nextstate a))).
  { intros a Ha. split; [by apply (Hcosts k)|].
    pose proof (top_sorted_arcs f k a Hsorted Ha) as Hlt.
    destruct (bw !! nextstate a) as [v|] eqn:Hv; simpl; [|done].
    by destruct (Hbw _ _ Hlt Hv). }
  destruct (backward_relax_fold bw (Arcs f k) (final_cost f k)
              (proj1 (Hcosts k)) Hsucc) as (Hr1 & Hr2 & Hr3 & Hr4).
  split; [done|]. split.
  - intros p t Hp. inversion Hp as [|? a p' ? Ha Hp']; subst.
    + change (path_cost []) with (of_Z 0). by rewrite xadd_0_l_L.
    + eapply xle_trans; [by apply Hr3|]. simpl. rewrite <- xadd_assoc.
      destruct (Hsucc a Ha) as [Hca Hcb].
      apply xle_add_l_mono; [done|done|].
      pose proof (top_sorted_arcs f k a Hsorted Ha) as Hlt.
      pose proof (Hrange k a Ha) as Hn.
      destruct (lookup_lt_is_Some_2 bw (nextstate a)) as [v Hv]; [lia|].
      rewrite Hv. simpl. destruct (Hbw _ _ Hlt Hv) as (_ & Hlb & _).
      by apply Hlb.
  - destruct Hr4 as [Hr4|(a & Ha & Hr4)].
    + right. exists [], k. split; [constructor|].
      change (path_cost []) with (of_Z 0). by rewrite xadd_0_l_L.
    + pose proof (top_sorted_arcs f k a Hsorted Ha) as Hlt.
      pose proof (Hrange k a Ha) as Hn.
      destruct (lookup_lt_is_Some_2 bw (nextstate a)) as [v Hv]; [lia|].
      rewrite Hv in Hr4. simpl in Hr4.
      destruct (Hbw _ _ Hlt Hv) as (_ & _ & [->|(p & t & Hp & ->)]).
      * left. rewrite Hr4. apply xle_add_PInf_r. by apply (Hcosts k).
      * right. exists (a :: p), t. split; [by constructor|].
        rewrite Hr4. simpl. by rewrite xadd_assoc.
Qed.

Lemma beta_loop_spec :
  ∃ bw, foldM (beta_state LogAdd f true) (replicate (NumStates f) kLogZeroDouble)
              (rev (seq 0 (NumStates f))) = Ok (xneg <$> bw)
        ∧ length bw = NumStates f
        ∧ ∀ s v, bw !! s = Some v → is_backward_cost f s v.
Proof.
  destruct (foldM_total
              (fun pre beta =>
                 ∃ bw, beta = xneg <$> bw ∧ length bw = NumStates f
                       ∧ ∀ s v, (NumStates f - length pre ≤ s)%nat →
                                bw !! s = Some v → is_backward_cost f s v)
              (beta_state LogAdd f true) (rev (seq 0 (NumStates f)))
              (replicate (NumStates f) kLogZeroDouble))
    as (beta & Hbeta & bw & -> & Hlen & Hbw).
  - exists (replicate (NumStates f) PInf). split; [by rewrite fmap_replicate|].
    split; [by rewrite length_replicate|].
    intros s v Hs Hv. apply lookup_replicate in Hv as [_ Hv]. simpl in Hs. lia.
  - intros pre k post beta El (bw & -> & Hlen & Hbw).
    pose proof (rev_seq_split _ _ _ _ El) as Hk.
    set (r := foldl (backward_relax bw) (final_cost f k) (Arcs f k)).
    exists (xneg <$> <[k := r]> bw). split.
    + unfold beta_state.
      change (- ConvertToCost (Final f k))%X with (xneg (final_cost f k)).
      rewrite beta_arcs_fold.
      2:{ intros a Ha. rewrite Hlen. by apply (Hrange k a). }
      cbn [mbind result_bind]. unfold vset.
      rewrite decide_True by (rewrite length_fmap; lia).
      by rewrite list_fmap_insert.
    + exists (<[k := r]> bw). split; [done|]. split; [by rewrite length_insert|].
      rewrite length_app. simpl. intros s v Hs.
      destruct (decide (s = k)) as [-> | Hne].
      * rewrite list_lookup_insert_eq by lia. intros Hv. injection Hv as <-.
        apply backward_cost_relax; [done|lia|].
        intros s v Hs' Hv. apply (Hbw s v); [lia|done].
      * rewrite list_lookup_insert_ne by done. apply Hbw. lia.
  - exists bw. split; [done|]. split; [done|].
    intros s v Hv. apply (Hbw s v); [|done]. rewrite length_rev, length_seq. lia.
Qed.

End ViterbiBackward.

Lemma half_sum_neg a b c :
  is_finite c → (c == a)%X → (c == b)%X →
  (Fin (1 # 2) * (xneg a + xneg b) == xneg c)%X.
Proof. xnum_solve. Qed.

Section ViterbiTheorem.
Context {W : Type} `{WeightLaws W}.
Variable LogAdd : xnum → xnum → xnum.

Lemma best_final_cost_unique (f : VectorFst W) (c1 c2 : xnum) :
  costs_ok f → is_best_final_cost f c1 → is_best_final_cost f c2 → (c1 <= c2)%X.
Proof.
  intros Hcosts (Hc1 & Hlb & _) (_ & _ & Hatt).
  destruct Hatt as [->|(s0 & p & t & Hs0 & Hp & ->)]; [by apply xle_PInf|].
  destruct (decide (t < NumStates f)%nat) as [Ht|Ht]; [by eapply Hlb|].
  assert (Hf : final_cost f t = PInf).
  { unfold final_cost, Final. rewrite lookup_ge_None_2 by (unfold NumStates in Ht; lia).
    apply ConvertToCost_Zero. }
  rewrite Hf, xle_add_PInf_r by (by eapply path_cost_is_cost). by apply xle_PInf.
Qed.


End ViterbiTheorem.


(* ================================================================== *)
(** ** Composition: where the arcs of the result come from *)

Lemma Arcs_SetFinal (f : CompactLattice) s w s' : Arcs (SetFinal f s w) s' = Arcs f s'.
Proof.
  unfold Arcs, SetFinal. simpl. rewrite list_lookup_alter.
  case_decide as E; [subst s'|done]. by destruct (states f !! s).
Qed.

Lemma elem_of_Arcs_AddArc (f : CompactLattice) s a s' a' :
  a' ∈ Arcs (AddArc f s a) s' → a' ∈ Arcs f s' ∨ a' = a.
Proof.
  unfold Arcs, AddArc. simpl. rewrite list_lookup_alter.
  case_decide as E; [subst s'|by left].
  destruct (states f !! s) as [d|]; simpl; [|by left].
  intros Hin. apply elem_of_app in Hin as [Hin|Hin]; [by left|].
  apply list_elem_of_singleton in Hin. by right.
Qed.

Section ComposeArcs.
Variable clat : CompactLattice.
Variable det_fst : DeterministicOnDemandFst.

Lemma compose_arc_from (s : StatePair) (state_map state_map' : gmap StatePair nat)
  (queue queue' : list StatePair) (composed composed' : CompactLattice)
  (arc1 : CompactLatticeArc) (s1 : nat) :
  arc1 ∈ Arcs clat s1 →
  (∀ j a', a' ∈ Arcs composed j → composed_arc_of clat det_fst a') →
  compose_arc det_fst s (state_map, queue, composed) arc1
  = Ok (state_map', queue', composed') →
  ∀ j a', a' ∈ Arcs composed' j → composed_arc_of clat det_fst a'.
Proof.
  intros Harc1 Hinv Hf. unfold compose_arc in Hf.
  assert (Hadd : ∀ j a', a' ∈ Arcs (AddState composed).1 j →
                         composed_arc_of clat det_fst a').
  { intros j a'. rewrite Arcs_AddState. apply Hinv. }
  destruct (AddState composed) as [composed1 new_state]. simpl in Hadd.
  case_bool_decide as Heps.
  - assert (Hnew : ∀ n, composed_arc_of clat det_fst (mkArc 0 0 (weight arc1) n)).
    { intros n. exists s1, arc1. split; [done|]. by left. }
    destruct (state_map !! (nextstate arc1, s.2)) as [nx|].
    + destruct (state_map !! s) as [src|]; [|done]. injection Hf as <- <- <-.
      intros j a' Ha'. apply elem_of_Arcs_AddArc in Ha' as [Ha'| ->]; [by eapply Hinv|].
      apply Hnew.
    + destruct (<[(nextstate arc1, s.2) := new_state]> state_map !! s)
        as [src|]; [|done].
      injection Hf as <- <- <-.
      intros j a' Ha'. apply elem_of_Arcs_AddArc in Ha' as [Ha'| ->]; [by eapply Hadd|].
      apply Hnew.
  - destruct (GetArc det_fst s.2 (olabel arc1)) as [arc2|] eqn:Hget.
    2:{ injection Hf as <- <- <-. exact Hinv. }
    assert (Hnew : ∀ n, composed_arc_of clat det_fst
              (mkArc (ilabel arc1) (olabel arc1)
                 (mkCompactLatticeWeight
                    (mkLatticeWeight (Value1 (Weight_ (weight arc1)) + std_weight arc2)%X
                                     (Value2 (Weight_ (weight arc1))))
                    (String (weight arc1))) n)).
    { intros n. exists s1, arc1. split; [done|]. right. simpl. do 5 (split; [done|]).
      by exists s.2, arc2. }
    destruct (state_map !! (nextstate arc1, std_nextstate arc2)) as [nx|].
    + destruct (state_map !! s) as [src|]; [|done]. injection Hf as <- <- <-.
      intros j a' Ha'. apply elem_of_Arcs_AddArc in Ha' as [Ha'| ->]; [by eapply Hinv|].
      apply Hnew.
    + destruct (<[(nextstate arc1, std_nextstate arc2) := new_state]>
                  state_map !! s) as [src|]; [|done].
      injection Hf as <- <- <-.
      intros j a' Ha'. apply elem_of_Arcs_AddArc in Ha' as [Ha'| ->]; [by eapply Hadd|].
      apply Hnew.
Qed.

Lemma compose_loop_from (fuel : nat) :
  ∀ (state_map : gmap StatePair nat) (queue : list StatePair)
    (composed result_ : CompactLattice),
    (∀ j a', a' ∈ Arcs composed j → composed_arc_of clat det_fst a') →
    compose_loop fuel clat det_fst state_map queue composed = Ok result_ →
    ∀ j a', a' ∈ Arcs result_ j → composed_arc_of clat det_fst a'.
Proof.
  induction fuel as [|fuel IH]; intros state_map queue composed result_ Hinv Hf.
  - destruct queue; simpl in Hf; [|done]. by injection Hf as <-.
  - destruct queue as [|[s1 s2] queue]; simpl in Hf; [by injection Hf as <-|].
    apply bind_Ok in Hf as (d1 & Hd1 & Hf). apply vget_Ok in Hd1.
    apply bind_Ok in Hf as (composed1 & Hfin & Hf).
    assert (Hinv1 : ∀ j a', a' ∈ Arcs composed1 j → composed_arc_of clat det_fst a').
    { destruct (weight_neb _ _); [|by injection Hfin as <-].
      destruct (state_map !! _) in Hfin; [|done]. injection Hfin as <-.
      intros j a'. rewrite Arcs_SetFinal. apply Hinv. }
    apply bind_Ok in Hf as ([[state_map2 queue2] composed2] & Harcs & Hf).
    apply (IH state_map2 queue2 composed2 result_); [|done].
    assert (G : ∀ j a', a' ∈ Arcs composed2 j → composed_arc_of clat det_fst a').
    { refine (foldM_inv
                (fun _ acc => ∀ j a', a' ∈ Arcs acc.2 j → composed_arc_of clat det_fst a')
                _ _ _ _ _ _ Harcs); [exact Hinv1|].
      intros pre arc1 post [[m1 q1] c1] [[m2 q2] c2] El Hp Hstep. simpl in *.
      eapply (compose_arc_from (s1, s2) m1 m2 q1 q2 c1 c2 arc1 s1); [|done|done].
      rewrite (Arcs_lookup clat s1 d1 Hd1), El.
      apply elem_of_app. right. apply list_elem_of_here. }
    exact G.
Qed.

(** X14.  Every arc of the result of [ComposeCompactLatticeDeterministic]
    comes from an arc of the lattice.  An arc with an output label keeps
    its labels, its frame string and its second weight component, and the
    weight of the matching arc of the deterministic FST is added to its
    first weight component.  An arc without output label is copied with
    its weight, and with both labels 0 whatever its input label was. *)
Theorem compose_arcs_from_lattice (fuel : nat) (composed : CompactLattice) :
  ComposeCompactLatticeDeterministic fuel clat det_fst = Ok composed →
  ∀ j a', a' ∈ Arcs composed j → composed_arc_of clat det_fst a'.
Proof.
  unfold ComposeCompactLatticeDeterministic, compose_product. intros Hf.
  apply bind_Ok in Hf as (product & Hprod & Hf). injection Hf as <-.
  simpl in Hprod. destruct (Start clat) as [start1|]; [|done].
  assert (Hp : ∀ j a', a' ∈ Arcs product j → composed_arc_of clat det_fst a').
  { eapply compose_loop_from; [|exact Hprod].
    intros [|j] a' Ha'; by apply elem_of_nil in Ha'. }
  intros j a' Ha'. pose proof (Arcs_in_range _ _ _ Ha') as Hj.
  destruct (Connect_state_old product j Hj) as [s Hs].
  destruct (Connect_arc_inv product j s a' Hs Ha') as (a & Ha & Hil & Hol & Hw & _).
  destruct (Hp s a Ha) as (s1 & arc1 & Harc1 & Hcase).
  exists s1, arc1. split; [done|]. rewrite Hil, Hol, Hw. exact Hcase.
Qed.

End ComposeArcs.

Lemma compose_arcs_from_lattice_witness :
  composed_arc_of Examples.word_clat Examples.reject_all_det
    (mkArc 5 5 (Examples.clw (1 + 3) 0 [7%Z]) 1%nat).
Proof.
  apply (compose_arcs_from_lattice Examples.word_clat Examples.reject_all_det 5
           (mkFst (Some 0%nat)
              [ mkState Zero [mkArc 5 5 (Examples.clw (1 + 3) 0 [7%Z]) 1%nat];
                mkState (mkCompactLatticeWeight (mkLatticeWeight PInf (Fin 0)) []) [] ])
           eq_refl 0%nat).
  apply list_elem_of_here.
Defined.
